(** * gmap: the concurrent-safe/unsafe hash map of package g/container/gmap

    A shallow embedding of [g/container/gmap/gmap.go] and a verification of
    its documented behaviour.  The Go program is modelled as it is written:

    - a Go map is a reference, so map objects live in a heap of locations and
      a [*Map] is a pointer to a struct whose field [data] holds such a
      reference (or nil);
    - every method is a computation over the program state that may end in a
      value, a run-time panic or a deadlock;
    - the reader/writer mutex has an explicit state, so that a method that
      forgot to release a lock, or took it twice, would be visible;
    - [interface{}] values are dynamically typed: some can be hashed (and thus
      used as map keys), others cannot, and some are closures of type
      [func() interface{}].

    The semantics is that of one goroutine running the methods one after the
    other.  Values of floating point type are left outside the value
    universe, and so are the [GetVar] methods, which wrap the results of
    [Get] and of the [GetOrSet] family in a box of package [gvar]. *)

From Stdlib Require Import ZArith String List.
From stdpp Require Import base option list gmap strings numbers fin_maps.

(** ** Dynamically typed values *)

(** The comparable dynamic values: those that Go accepts as keys of a
    [map[interface{}]interface{}].  Two keys are the same key when they have
    the same dynamic type and the same value. *)
Inductive comparable : Type :=
  | CNil
  | CBool (b : bool)
  | CInt (n : Z)
  | CString (s : string).

#[global] Instance comparable_eq_dec : EqDecision comparable.
Proof. solve_decision. Defined.

Definition comparable_enc (c : comparable) : unit + bool + Z + string :=
  match c with
  | CNil => inl (inl (inl tt))
  | CBool b => inl (inl (inr b))
  | CInt n => inl (inr n)
  | CString s => inr s
  end.

Definition comparable_dec (x : unit + bool + Z + string) : comparable :=
  match x with
  | inl (inl (inl _)) => CNil
  | inl (inl (inr b)) => CBool b
  | inl (inr n) => CInt n
  | inr s => CString s
  end.

#[global] Instance comparable_countable : Countable comparable :=
  inj_countable' comparable_enc comparable_dec
    (λ c, match c with
          | CNil => eq_refl
          | CBool _ => eq_refl
          | CInt _ => eq_refl
          | CString _ => eq_refl
          end).

(** Pointers to [Map] structs and locations of Go map objects. *)
Definition ptr := positive.
Definition loc := positive.

(** ** The mutex of package g/internal/rwmutex *)

(** Modelled from the spec: package [g/internal/rwmutex] (section 4.1).  A
    wrapper around a reader/writer lock with a mode fixed at creation; in
    unsafe mode the four operations do nothing.  [writer] and [readers] are
    the state of the underlying lock. *)
Record RWMutex : Type := mkRWMutex {
  unsafe : bool;
  writer : bool;
  readers : nat
}.

(** Modelled from the spec: [rwmutex.New(unsafe ...bool)], the mode defaults
    to safe when the variadic argument is empty. *)
Definition rwmutex_New (unsafe : list bool) : RWMutex :=
  mkRWMutex (List.hd false unsafe) false 0.

(** <<type Map struct { mu *rwmutex.RWMutex; data map[interface{}]interface{} }>>
    The mutex is created with the struct and never shared, so it is kept in
    the record; [data] is [None] for the nil map. *)
Record Map : Type := mkMap {
  mu : RWMutex;
  data : option loc
}.

Section Gmap.

(** The part of the program state that closures capture and may change. *)
Context {W : Type}.

(** [interface{}]: a comparable value, a value of a type that cannot be
    hashed (a slice stands for these), or a closure of dynamic type
    [func() interface{}].  Closures act on the captured state [W]; they do
    not call back into the map they are handed to. *)
#[warnings="-register-all"]
Inductive iface : Type :=
  | VCmp (c : comparable)
  | VSlice (elems : list iface)
  | VFunc (f : W → iface * W).

(** [interface{}(nil)], also the zero value of [interface{}]. *)
Definition Nil : iface := VCmp CNil.
Definition VBool (b : bool) : iface := VCmp (CBool b).
Definition VInt (n : Z) : iface := VCmp (CInt n).
Definition VString (s : string) : iface := VCmp (CString s).

(** The run-time hash of a key: [None] is the panic
    "runtime error: hash of unhashable type". *)
Definition hash (k : iface) : option comparable :=
  match k with
  | VCmp c => Some c
  | VSlice _ => None
  | VFunc _ => None
  end.

(** The type assertion [value.(func() interface{})]. *)
Definition assert_func (value : iface) : option (W → iface * W) :=
  match value with
  | VFunc f => Some f
  | _ => None
  end.

(** The contents of a Go map object. *)
#[local] Abbreviation gomap := (gmap comparable iface).

(** ** Program state and computations *)

(** [calls] has one entry per closure invocation, in order: the set of maps
    whose exclusive lock was held at that moment. *)
Record State : Type := mkState {
  maps : gmap ptr Map;
  heap : gmap loc gomap;
  world : W;
  calls : list (gset ptr)
}.

Inductive outcome (A : Type) : Type :=
  | Ok (a : A) (σ : State)
  | Panic
  | Deadlock.
Arguments Ok {A} a σ.
Arguments Panic {A}.
Arguments Deadlock {A}.

Definition M (A : Type) : Type := State → outcome A.

#[export] Instance M_mret : MRet M := λ A a σ, Ok a σ.

#[export] Instance M_bind : MBind M := λ A B k c σ,
  match c σ with
  | Ok a σ' => k a σ'
  | Panic => Panic
  | Deadlock => Deadlock
  end.

Definition panic {A} : M A := λ _, Panic.
Definition deadlock {A} : M A := λ _, Deadlock.

(** [defer u] in front of a body: [u] runs when the body returns, after the
    result has been computed.  A panic ends the run, and the state it leaves
    is not observed. *)
Definition defer {A} (u : M unit) (body : M A) : M A :=
  r ← body; u;; mret r.

(** <<for _, x := range l { body }>> over a slice, or over the entries of a
    map once their order has been fixed. *)
Fixpoint for_each {A} (l : list A) (body : A → M unit) : M unit :=
  match l with
  | [] => mret tt
  | x :: l' => body x;; for_each l' body
  end.

(** <<for i, x := range l { body }>> with the index counted from [i]. *)
Fixpoint for_each_from {A} (i : nat) (l : list A) (body : nat → A → M unit) : M unit :=
  match l with
  | [] => mret tt
  | x :: l' => body i x;; for_each_from (S i) l' body
  end.

(** *** Struct fields *)

Definition load_Map (m : ptr) : M Map :=
  λ σ, match maps σ !! m with
       | Some o => Ok o σ
       | None => Panic
       end.

Definition store_Map (m : ptr) (o : Map) : M unit :=
  λ σ, Ok tt (mkState (<[m := o]> (maps σ)) (heap σ) (world σ) (calls σ)).

(** <<&Map{mu: mu, data: data}>> *)
Definition alloc_Map (o : Map) : M ptr :=
  λ σ, let m := fresh (dom (maps σ)) in
       Ok m (mkState (<[m := o]> (maps σ)) (heap σ) (world σ) (calls σ)).

(** reading [m.data] *)
Definition get_data (m : ptr) : M (option loc) :=
  o ← load_Map m; mret (data o).

(** <<m.data = d>> *)
Definition set_data (m : ptr) (d : option loc) : M unit :=
  o ← load_Map m; store_Map m (mkMap (mu o) d).

(** *** The mutex operations *)

Definition set_mu (m : ptr) (l : RWMutex) : M unit :=
  o ← load_Map m; store_Map m (mkMap l (data o)).

(** Modelled from the spec: [Lock], exclusive.  A goroutine that waits for a
    lock nobody will release is deadlocked. *)
Definition Lock (m : ptr) : M unit :=
  o ← load_Map m;
  let l := mu o in
  if unsafe l then mret tt
  else if writer l || negb (readers l =? 0)%nat then deadlock
  else set_mu m (mkRWMutex (unsafe l) true (readers l)).

(** Modelled from the spec: [Unlock]; releasing a lock that is not held is a
    fatal error. *)
Definition Unlock (m : ptr) : M unit :=
  o ← load_Map m;
  let l := mu o in
  if unsafe l then mret tt
  else if writer l then set_mu m (mkRWMutex (unsafe l) false (readers l))
  else panic.

(** Modelled from the spec: [RLock], shared. *)
Definition RLock (m : ptr) : M unit :=
  o ← load_Map m;
  let l := mu o in
  if unsafe l then mret tt
  else if writer l then deadlock
  else set_mu m (mkRWMutex (unsafe l) false (S (readers l))).

(** Modelled from the spec: [RUnlock]. *)
Definition RUnlock (m : ptr) : M unit :=
  o ← load_Map m;
  let l := mu o in
  if unsafe l then mret tt
  else match readers l with
       | S n => set_mu m (mkRWMutex (unsafe l) (writer l) n)
       | O => panic
       end.

(** The maps whose exclusive lock is held. *)
Definition write_locked (σ : State) : gset ptr :=
  dom (filter (λ p, writer (mu p.2) = true) (maps σ)).

(** *** Closures *)

(** <<f()>> *)
Definition call (f : W → iface * W) : M iface :=
  λ σ, let r := f (world σ) in
       Ok r.1 (mkState (maps σ) (heap σ) r.2 (calls σ ++ [write_locked σ])).

(** *** Go map objects *)

(** The order in which [range] visits the entries of a map is not
    specified: it is some enumeration of the entries, chosen by the
    run-time system. *)
Record RangeOrder : Type := mkRangeOrder {
  range_of :> gomap → list (comparable * iface);
  range_perm : ∀ s, range_of s ≡ₚ map_to_list s
}.

Context (order : RangeOrder).

(** The object behind a map reference; the nil map reads as an empty map. *)
Definition deref (d : option loc) : M gomap :=
  λ σ, match d with
       | None => Ok ∅ σ
       | Some l => match heap σ !! l with
                   | Some s => Ok s σ
                   | None => Panic
                   end
       end.

(** <<make(map[interface{}]interface{})>> *)
Definition make_map : M (option loc) :=
  λ σ, let l := fresh (dom (heap σ)) in
       Ok (Some l) (mkState (maps σ) (<[l := ∅]> (heap σ)) (world σ) (calls σ)).

(** Overwriting the object at a location. *)
Definition heap_write (l : loc) (s : gomap) : M unit :=
  λ σ, Ok tt (mkState (maps σ) (<[l := s]> (heap σ)) (world σ) (calls σ)).

(** The two results of an index expression <<v, ok := s[c]>>: the value,
    or the zero value, and whether the key is present. *)
Definition comma_ok (s : gomap) (c : comparable) : iface * bool :=
  match s !! c with
  | Some v => (v, true)
  | None => (Nil, false)
  end.

(** <<v, ok := d[k]>> *)
Definition map_load (d : option loc) (k : iface) : M (iface * bool) :=
  match hash k return M (iface * bool) with
  | None => panic
  | Some c => s ← deref d; mret (comma_ok s c)
  end.

(** <<d[k] = v>>; an assignment to an entry of the nil map panics. *)
Definition map_store (d : option loc) (k : iface) (v : iface) : M unit :=
  match hash k, d return M unit with
  | None, _ => panic
  | Some c, None => panic
  | Some c, Some l => s ← deref d; heap_write l (<[c := v]> s)
  end.

(** <<delete(d, k)>>; a no-op on the nil map. *)
Definition map_delete (d : option loc) (k : iface) : M unit :=
  match hash k, d return M unit with
  | None, _ => panic
  | Some c, None => mret tt
  | Some c, Some l => s ← deref d; heap_write l (delete c s)
  end.

(** <<len(d)>> *)
Definition map_len (d : option loc) : M nat :=
  s ← deref d; mret (size s).

(** The entries that <<for k, v := range d>> visits, in order. *)
Definition map_range (d : option loc) : M (list (comparable * iface)) :=
  s ← deref d; mret (order s).

(** ** The methods of [Map] *)

(** [New] returns an empty hash map. *)
Definition New (unsafe : list bool) : M ptr :=
  d ← make_map;
  alloc_Map (mkMap (rwmutex_New unsafe) d).

(** [NewFrom] adopts the given map object: no copy is made. *)
Definition NewFrom (data : option loc) (unsafe : list bool) : M ptr :=
  alloc_Map (mkMap (rwmutex_New unsafe) data).

(** [NewFromArray]: [keys] zipped with [values]; a key beyond the length of
    [values] gets [interface{}(nil)]. *)
Definition NewFromArray (keys values : list iface) (unsafe : list bool) : M ptr :=
  m ← make_map;
  let l := length values in
  for_each_from 0 keys (λ i k,
    if (i <? l)%nat then
      match values !! i return M unit with
      | Some v => map_store m k v
      | None => panic
      end
    else map_store m k Nil);;
  alloc_Map (mkMap (rwmutex_New unsafe) m).

(** The loop of [Iterator]: it stops as soon as the callback returns false. *)
Fixpoint iterate (es : list (comparable * iface)) (f : iface → iface → M bool)
    : M unit :=
  match es with
  | [] => mret tt
  | e :: es' => b ← f (VCmp e.1) e.2; if b : bool then iterate es' f else mret tt
  end.

(** [Iterator] iterates the hash map with the callback [f], under the shared
    lock. *)
Definition Iterator (m : ptr) (f : iface → iface → M bool) : M unit :=
  RLock m;;
  defer (RUnlock m) (d ← get_data m; es ← map_range d; iterate es f).

(** [Map] returns a copy of the data of the hash map. *)
Definition Map_ (m : ptr) : M (option loc) :=
  data ← make_map;
  RLock m;;
  d ← get_data m;
  es ← map_range d;
  for_each es (λ e, map_store data (VCmp e.1) e.2);;
  RUnlock m;;
  mret data.

(** [Clone] returns a new hash map with a copy of the current data. *)
Definition Clone (m : ptr) (unsafe : list bool) : M ptr :=
  d ← Map_ m; NewFrom d unsafe.

(** [Set] sets key-value to the hash map. *)
Definition Set_ (m : ptr) (key val : iface) : M unit :=
  Lock m;;
  d ← get_data m;
  map_store d key val;;
  Unlock m.

(** [Sets] batch sets key-values to the hash map. *)
Definition Sets (m : ptr) (data : option loc) : M unit :=
  Lock m;;
  es ← map_range data;
  for_each es (λ e, d ← get_data m; map_store d (VCmp e.1) e.2);;
  Unlock m.

(** [Search]: the value, or the zero value, and whether the key was found. *)
Definition Search (m : ptr) (key : iface) : M (iface * bool) :=
  RLock m;;
  d ← get_data m;
  r ← map_load d key;
  RUnlock m;;
  mret r.

(** [Get] returns the value by given key. *)
Definition Get (m : ptr) (key : iface) : M iface :=
  RLock m;;
  d ← get_data m;
  r ← map_load d key;
  RUnlock m;;
  mret r.1.

(** [doSetWithLockCheck] checks under the exclusive lock whether the key
    exists; if not it sets the value, and a value of type
    [func() interface{}] is executed first and its result is what is set. *)
Definition doSetWithLockCheck (m : ptr) (key value : iface) : M iface :=
  Lock m;;
  defer (Unlock m) (
    d ← get_data m;
    r ← map_load d key;
    if r.2 : bool then mret r.1
    else
      value ← match assert_func value return M iface with
              | Some f => call f
              | None => mret value
              end;
      d ← get_data m;
      map_store d key value;;
      mret value).

(** [GetOrSet] returns the value by key, or sets it when it does not exist. *)
Definition GetOrSet (m : ptr) (key value : iface) : M iface :=
  r ← Search m key;
  if negb r.2 then doSetWithLockCheck m key value else mret r.1.

(** [GetOrSetFunc]: the value to set is the result of [f], computed before
    the exclusive lock is taken. *)
Definition GetOrSetFunc (m : ptr) (key : iface) (f : W → iface * W) : M iface :=
  r ← Search m key;
  if negb r.2 then (x ← call f; doSetWithLockCheck m key x) else mret r.1.

(** [GetOrSetFuncLock]: [f] is executed under the exclusive lock. *)
Definition GetOrSetFuncLock (m : ptr) (key : iface) (f : W → iface * W) : M iface :=
  r ← Search m key;
  if negb r.2 then doSetWithLockCheck m key (VFunc f) else mret r.1.

(** [Contains] checks whether a key exists. *)
Definition Contains (m : ptr) (key : iface) : M bool :=
  RLock m;;
  d ← get_data m;
  r ← map_load d key;
  RUnlock m;;
  mret r.2.

(** [SetIfNotExist] sets the value if the key does not exist and returns
    true; it returns false if the key exists. *)
Definition SetIfNotExist (m : ptr) (key value : iface) : M bool :=
  b ← Contains m key;
  if negb b then doSetWithLockCheck m key value;; mret true
  else mret false.

Definition SetIfNotExistFunc (m : ptr) (key : iface) (f : W → iface * W) : M bool :=
  b ← Contains m key;
  if negb b then (x ← call f; doSetWithLockCheck m key x);; mret true
  else mret false.

Definition SetIfNotExistFuncLock (m : ptr) (key : iface) (f : W → iface * W) : M bool :=
  b ← Contains m key;
  if negb b then doSetWithLockCheck m key (VFunc f);; mret true
  else mret false.

(** [Remove] deletes the value of the key and returns it. *)
Definition Remove (m : ptr) (key : iface) : M iface :=
  Lock m;;
  d ← get_data m;
  r ← map_load d key;
  (if r.2 : bool then d ← get_data m; map_delete d key else mret tt);;
  Unlock m;;
  mret r.1.

(** [Removes] batch deletes values of the map by keys. *)
Definition Removes (m : ptr) (keys : list iface) : M unit :=
  Lock m;;
  for_each keys (λ key, d ← get_data m; map_delete d key);;
  Unlock m.

(** [Keys] returns all keys of the map as a slice. *)
Definition Keys (m : ptr) : M (list iface) :=
  RLock m;;
  d ← get_data m;
  es ← map_range d;
  RUnlock m;;
  mret ((λ e, VCmp e.1) <$> es).

(** [Values] returns all values of the map as a slice. *)
Definition Values (m : ptr) : M (list iface) :=
  RLock m;;
  d ← get_data m;
  es ← map_range d;
  RUnlock m;;
  mret (snd <$> es).

(** [Size] returns the size of the map. *)
Definition Size (m : ptr) : M nat :=
  RLock m;;
  d ← get_data m;
  length ← map_len d;
  RUnlock m;;
  mret length.

(** [IsEmpty] checks whether the map is empty. *)
Definition IsEmpty (m : ptr) : M bool :=
  RLock m;;
  d ← get_data m;
  length ← map_len d;
  RUnlock m;;
  mret (length =? 0)%nat.

(** [Clear] deletes all data of the map: it makes a new underlying map. *)
Definition Clear (m : ptr) : M unit :=
  Lock m;;
  n ← make_map;
  set_data m n;;
  Unlock m.



(** [Flip] exchanges key-value of the map to value-key. *)
Definition Flip (m : ptr) : M unit :=
  Lock m;;
  defer (Unlock m) (
    d ← get_data m;
    _ ← map_len d;
    n ← make_map;
    d ← get_data m;
    es ← map_range d;
    for_each es (λ e, map_store n e.2 (VCmp e.1));;
    set_data m n).

(** [Merge] merges the map [other] into the map [m]. *)
Definition Merge (m other : ptr) : M unit :=
  Lock m;;
  defer (Unlock m) (
    (if decide (other ≠ m) then RLock other else mret tt);;
    defer (if decide (other ≠ m) then RUnlock other else mret tt) (
      od ← get_data other;
      es ← map_range od;
      for_each es (λ e, d ← get_data m; map_store d (VCmp e.1) e.2))).

(** ** Describing states *)

(** A mutex that nobody holds. *)
Definition idle (l : RWMutex) : Prop :=
  writer l = false ∧ readers l = 0%nat.

(** The mutex as [Lock] and [RLock] leave it. *)
Definition wlocked (lk : RWMutex) : RWMutex :=
  if unsafe lk then lk else mkRWMutex (unsafe lk) true (readers lk).

Definition rlocked (lk : RWMutex) : RWMutex :=
  if unsafe lk then lk else mkRWMutex (unsafe lk) false (S (readers lk)).

(** [holds σ m l s]: in state [σ] the pointer [m] leads to a map that nobody
    has locked, and whose data is the object at location [l], of contents
    [s]. *)
Definition holds (σ : State) (m : ptr) (l : loc) (s : gomap) : Prop :=
  ∃ o, maps σ !! m = Some o ∧ idle (mu o) ∧ data o = Some l ∧
       heap σ !! l = Some s.

(** The state [σ] with the object at [l] replaced by [s]. *)
Definition with_heap (σ : State) (l : loc) (s : gomap) : State :=
  mkState (maps σ) (<[l := s]> (heap σ)) (world σ) (calls σ).

(** The exclusive locks held once the one of [m] has been taken as well. *)
Definition held_with (σ : State) (m : ptr) : gset ptr :=
  match maps σ !! m with
  | Some o => if unsafe (mu o) then write_locked σ else {[m]} ∪ write_locked σ
  | None => write_locked σ
  end.

(** The state after a closure of result [r] (value and captured state) ran
    with the locks [held] and its value was stored under [c] in the object
    at [l]. *)
Definition after_call (σ : State) (l : loc) (s : gomap) (c : comparable)
    (r : iface * W) (held : gset ptr) : State :=
  mkState (maps σ) (<[l := <[c := r.1]> s]> (heap σ)) r.2 (calls σ ++ [held]).

(** The contents of the map that [m] points to, if there is one. *)
Definition contents (σ : State) (m : ptr) : option gomap :=
  match maps σ !! m with
  | Some o =>
      match data o with
      | Some l => heap σ !! l
      | None => Some ∅
      end
  | None => None
  end.

(** ** What the loops compute *)

(** The map that the loop of [NewFromArray] builds from the keys at
    positions [i], [i+1], ... on top of [acc]. *)
Fixpoint zip_from (i : nat) (keys : list comparable) (values : list iface)
    (acc : gomap) : gomap :=
  match keys with
  | [] => acc
  | k :: keys' => zip_from (S i) keys' values (<[k := default Nil (values !! i)]> acc)
  end.

(** The map that a loop of assignments [acc[k] = v] leaves, the entries
    [(k, v)] being taken in the order of the list. *)
Definition store_all (acc : gomap) (es : list (comparable * iface)) : gomap :=
  foldl (λ a e, <[e.1 := e.2]> a) acc es.

(** The map that the loop of [Flip] builds on top of [acc] from the entries
    [es]: each value becomes a key, if it can be hashed. *)
Fixpoint flip_all (acc : gomap) (es : list (comparable * iface)) : option gomap :=
  match es with
  | [] => Some acc
  | e :: es' =>
      match hash e.2 with
      | Some c => flip_all (<[c := VCmp e.1]> acc) es'
      | None => None
      end
  end.

(** The state [σ] in which the data of [m] has become the object at [l], of
    contents [s]. *)
Definition with_data (σ : State) (m : ptr) (l : loc) (s : gomap) : State :=
  mkState (alter (λ o, mkMap (mu o) (Some l)) m (maps σ))
          (<[l := s]> (heap σ)) (world σ) (calls σ).

(** The values of a map are pairwise distinct. *)
Definition distinct_values (s : gomap) : Prop :=
  ∀ k1 k2 v, s !! k1 = Some v → s !! k2 = Some v → k1 = k2.

(** The values of a map are all of a comparable type. *)
Definition comparable_values (s : gomap) : Prop :=
  ∀ k v, s !! k = Some v → is_Some (hash v).

(** [Flip] twice read as restoring every map with pairwise distinct
    values. *)
Definition Flip_twice_restores (σ : State) (m : ptr) (l : loc) (s : gomap) : Prop :=
  holds σ m l s → distinct_values s →
  ∃ σ', (Flip m ≫= λ _, Flip m) σ = Ok tt σ' ∧ contents σ' m = Some s.

(** The map that a loop of [delete(acc, k)] leaves. *)
Definition delete_all (acc : gomap) (ks : list comparable) : gomap :=
  foldl (λ a k, delete k a) acc ks.

(** [NewFromArray] read as zipping position by position, whatever the
    keys. *)
Definition NewFromArray_zips (σ : State) (keys : list comparable)
    (values : list iface) : Prop :=
  length values < length keys →
  ∃ m σ' s',
    NewFromArray (VCmp <$> keys) values [] σ = Ok m σ' ∧
    contents σ' m = Some s' ∧
    (∀ i k v, keys !! i = Some k → values !! i = Some v → s' !! k = Some v) ∧
    (∀ i k, keys !! i = Some k → length values ≤ i → s' !! k = Some Nil).

(** ** Readings of the check-and-set methods *)

(** [GetOrSet] read as storing, and returning, its argument whenever the key
    is absent. *)
Definition GetOrSet_stores_argument (σ : State) (m : ptr) (l : loc)
    (s : gomap) (k : comparable) (v : iface) : Prop :=
  holds σ m l s →
  (∀ v0, s !! k = Some v0 → GetOrSet m (VCmp k) v σ = Ok v0 σ) ∧
  (s !! k = None →
   ∃ σ', GetOrSet m (VCmp k) v σ = Ok v σ' ∧
         contents σ' m = Some (<[k := v]> s)).

(** [SetIfNotExist] read as storing its argument whenever the key is
    absent. *)
Definition SetIfNotExist_stores_argument (σ : State) (m : ptr) (l : loc)
    (s : gomap) (k : comparable) (v : iface) : Prop :=
  holds σ m l s →
  (s !! k = None →
   ∃ σ', SetIfNotExist m (VCmp k) v σ = Ok true σ' ∧
         contents σ' m = Some (<[k := v]> s)) ∧
  (∀ v0, s !! k = Some v0 → SetIfNotExist m (VCmp k) v σ = Ok false σ).

(** What [GetOrSet] and [SetIfNotExist] leave under [k] is never a closure
    of type [func() interface{}]. *)
Definition never_stores_func (σ : State) (m : ptr) (l : loc) (s : gomap)
    (k : comparable) (f : W → iface * W) : Prop :=
  holds σ m l s → s !! k = None →
  (∀ r σ' s' x, GetOrSet m (VCmp k) (VFunc f) σ = Ok r σ' →
     contents σ' m = Some s' → s' !! k = Some x → assert_func x = None) ∧
  (∀ b σ' s' x, SetIfNotExist m (VCmp k) (VFunc f) σ = Ok b σ' →
     contents σ' m = Some s' → s' !! k = Some x → assert_func x = None).

(** The map is in safe mode: its mutex really locks. *)
Definition safe_mode (σ : State) (m : ptr) : Prop :=
  ∃ o, maps σ !! m = Some o ∧ unsafe (mu o) = false.

(** ** Sequences of operations on one map *)

(** A map literal: a new map object of contents [d]. *)
Definition map_lit (d : gomap) : M (option loc) :=
  λ σ, let l := fresh (dom (heap σ)) in
       Ok (Some l) (mkState (maps σ) (<[l := d]> (heap σ)) (world σ) (calls σ)).

(** The ways to make the map: [New()], [NewFrom(data)] for a map object
    [data] of contents [d], [NewFrom(nil)], and [NewFromArray(keys, values)]. *)
Inductive ctor : Type :=
  | CNew
  | CNewFrom (d : gomap)
  | CNewFromNil
  | CNewFromArray (keys : list comparable) (values : list iface).

(** The operations on the map [m]: the methods of the package but for the
    callbacks on the raw data and the copies.  [OSets d] is [m.Sets(data)]
    for a map object [data] of contents [d]; [OMerge d] is [m.Merge(other)]
    for another map [other] of contents [d]; [OMergeSelf] is [m.Merge(m)]. *)
Inductive op : Type :=
  | OSet (k : comparable) (v : iface)
  | OSets (d : gomap)
  | OGet (k : comparable)
  | OSearch (k : comparable)
  | OContains (k : comparable)
  | OSize
  | OIsEmpty
  | OGetOrSet (k : comparable) (v : iface)
  | OGetOrSetFunc (k : comparable) (f : W → iface * W)
  | OGetOrSetFuncLock (k : comparable) (f : W → iface * W)
  | OSetIfNotExist (k : comparable) (v : iface)
  | OSetIfNotExistFunc (k : comparable) (f : W → iface * W)
  | OSetIfNotExistFuncLock (k : comparable) (f : W → iface * W)
  | ORemove (k : comparable)
  | ORemoves (ks : list comparable)
  | OClear
  | OFlip
  | OMerge (d : gomap)
  | OMergeSelf.

Definition construct (c : ctor) (unsafe : list bool) : M ptr :=
  match c with
  | CNew => New unsafe
  | CNewFrom d => data ← map_lit d; NewFrom data unsafe
  | CNewFromNil => NewFrom None unsafe
  | CNewFromArray keys values => NewFromArray (VCmp <$> keys) values unsafe
  end.

Definition exec (m : ptr) (o : op) : M unit :=
  match o with
  | OSet k v => Set_ m (VCmp k) v
  | OSets d => data ← map_lit d; Sets m data
  | OGet k => Get m (VCmp k);; mret tt
  | OSearch k => Search m (VCmp k);; mret tt
  | OContains k => Contains m (VCmp k);; mret tt
  | OSize => Size m;; mret tt
  | OIsEmpty => IsEmpty m;; mret tt
  | OGetOrSet k v => GetOrSet m (VCmp k) v;; mret tt
  | OGetOrSetFunc k f => GetOrSetFunc m (VCmp k) f;; mret tt
  | OGetOrSetFuncLock k f => GetOrSetFuncLock m (VCmp k) f;; mret tt
  | OSetIfNotExist k v => SetIfNotExist m (VCmp k) v;; mret tt
  | OSetIfNotExistFunc k f => SetIfNotExistFunc m (VCmp k) f;; mret tt
  | OSetIfNotExistFuncLock k f => SetIfNotExistFuncLock m (VCmp k) f;; mret tt
  | ORemove k => Remove m (VCmp k);; mret tt
  | ORemoves ks => Removes m (VCmp <$> ks)
  | OClear => Clear m
  | OFlip => Flip m
  | OMerge d => data ← map_lit d; other ← NewFrom data []; Merge m other
  | OMergeSelf => Merge m m
  end.

(** The contents of the map, read for the record: no lock is taken. *)
Definition snapshot (m : ptr) : M gomap :=
  d ← get_data m; deref d.

(** Running the operations in turn; the history that comes back pairs each
    operation with the contents of the map just before it. *)
Fixpoint run_ops (m : ptr) (ops : list op) : M (list (op * gomap)) :=
  match ops with
  | [] => mret []
  | o :: ops' =>
      s ← snapshot m;
      exec m o;;
      h ← run_ops m ops';
      mret ((o, s) :: h)
  end.

Definition run (c : ctor) (unsafe : list bool) (ops : list op)
    : M (ptr * list (op * gomap)) :=
  m ← construct c unsafe;
  h ← run_ops m ops;
  mret (m, h).

(** The operations that store under [k], as the methods are named:
    [Set], [Sets], the [GetOrSet] and [SetIfNotExist] families and
    [Merge]. *)
Definition stored_by_setter (e : op * gomap) (k : comparable) : Prop :=
  match e.1 with
  | OSet k' _ | OGetOrSet k' _ | OGetOrSetFunc k' _ | OGetOrSetFuncLock k' _
  | OSetIfNotExist k' _ | OSetIfNotExistFunc k' _
  | OSetIfNotExistFuncLock k' _ => k = k'
  | OSets d | OMerge d => is_Some (d !! k)
  | _ => False
  end.

(** The operations that store under [k]: the setters, and [Flip], which
    stores under every value that the map holds. *)
Definition stored_by (e : op * gomap) (k : comparable) : Prop :=
  match e.1 with
  | OFlip => ∃ k0, e.2 !! k0 = Some (VCmp k)
  | _ => stored_by_setter e k
  end.

(** The operations that remove [k]: [Remove] and [Removes] of [k], and
    [Flip] and [Clear], which replace the whole data. *)
Definition removed_by (e : op * gomap) (k : comparable) : Prop :=
  match e.1 with
  | ORemove k' => k = k'
  | ORemoves ks => k ∈ ks
  | OClear | OFlip => True
  | _ => False
  end.

Definition ctor_stored (c : ctor) (k : comparable) : Prop :=
  match c with
  | CNew => False
  | CNewFrom d => is_Some (d !! k)
  | CNewFromNil => False
  | CNewFromArray keys _ => k ∈ keys
  end.

(** In the history [h] of a map made by [c], something stored under [k] and
    nothing removed [k] afterwards. *)
Definition set_and_kept (stored : op * gomap → comparable → Prop)
    (c : ctor) (h : list (op * gomap)) (k : comparable) : Prop :=
  (ctor_stored c k ∧ Forall (λ e, ¬ removed_by e k) h) ∨
  (∃ pre e post, h = pre ++ e :: post ∧ stored e k ∧
                 Forall (λ e', ¬ removed_by e' k) post).

(** Presence read off the setters alone. *)
Definition present_iff_set (c : ctor) (ops : list op) (σ : State)
    (k : comparable) : Prop :=
  ∀ m h σ', run c [] ops σ = Ok (m, h) σ' →
    (Contains m (VCmp k) σ' = Ok true σ' ↔ set_and_kept stored_by_setter c h k).

(** ** Callbacks and the nil map *)

(** A callback for [Iterator] that leaves the maps alone: it answers [p k v]
    and updates what it captured with [g k v]. *)
Definition visitor (p : iface → iface → bool) (g : iface → iface → W → W)
    : iface → iface → M bool :=
  λ k v σ, Ok (p k v) (mkState (maps σ) (heap σ) (g k v (world σ)) (calls σ)).

(** The entries that a loop stopping at the first refusal of [p] visits: all
    those accepted, and the first one refused. *)
Fixpoint visited (p : iface → iface → bool) (es : list (comparable * iface))
    : list (comparable * iface) :=
  match es with
  | [] => []
  | e :: es' => if p (VCmp e.1) e.2 then e :: visited p es' else [e]
  end.

(** [holds_nil σ m]: the pointer [m] leads to a map that nobody has locked
    and whose data is the nil map. *)
Definition holds_nil (σ : State) (m : ptr) : Prop :=
  ∃ o, maps σ !! m = Some o ∧ idle (mu o) ∧ data o = None.

(** [at_rest σ m s]: nobody has locked the map that [m] leads to, and its
    contents are [s]; its data is a map object or the nil map. *)
Definition at_rest (σ : State) (m : ptr) (s : gomap) : Prop :=
  (∃ l, holds σ m l s) ∨ (holds_nil σ m ∧ s = ∅).

(** The operations that assign into the data of the map when it holds
    nothing: [Set], the [GetOrSet] and [SetIfNotExist] families, and [Sets]
    and [Merge] of a map that is not empty. *)
Definition needs_data (o : op) : bool :=
  match o with
  | OSet _ _ | OGetOrSet _ _ | OGetOrSetFunc _ _ | OGetOrSetFuncLock _ _
  | OSetIfNotExist _ _ | OSetIfNotExistFunc _ _
  | OSetIfNotExistFuncLock _ _ => true
  | OSets d | OMerge d => negb (size d =? 0)%nat
  | _ => false
  end.

(** The operations that give the map a new data object: [Clear] and
    [Flip]. *)
Definition gives_data (o : op) : bool :=
  match o with
  | OClear | OFlip => true
  | _ => false
  end.

(** Some operation assigns into the data before any has replaced it. *)
Fixpoint stores_before_data (ops : list op) : bool :=
  match ops with
  | [] => false
  | o :: ops' =>
      if gives_data o then false else needs_data o || stores_before_data ops'
  end.

(** The map is made with the nil map for data. *)
Definition nil_ctor (c : ctor) : bool :=
  match c with
  | CNewFromNil => true
  | _ => false
  end.

(** The state [σ] after closures ran: the captured state is [w] and the
    call log has grown by [log]. *)
Definition with_calls (σ : State) (w : W) (log : list (gset ptr)) : State :=
  mkState (maps σ) (heap σ) w (calls σ ++ log).

End Gmap.

Arguments iface : clear implicits.
Arguments State : clear implicits.
Arguments ctor : clear implicits.
Arguments op : clear implicits.
Arguments RangeOrder : clear implicits.
Arguments M : clear implicits.

Arguments outcome : clear implicits.
Arguments Ok {W A} a σ.
Arguments Panic {W A}.
Arguments Deadlock {W A}.

Arguments comma_ok {W} s c.

(** The contents of a Go map object whose closures act on [W]. *)
Abbreviation gomap W := (gmap comparable (iface W)).

(** ** A concrete program *)

(** Closures that capture a counter. *)
Definition seven : nat → iface nat * nat := λ n, (VInt 7, S n).
Definition make_seven : nat → iface nat * nat := λ n, (VFunc seven, S n).

(** The state of a program that has made no map yet. *)
Definition state0 : State nat := mkState ∅ ∅ 0%nat [].

(** The state in which the pointer [m1] leads to a map of contents [s], of
    the given mode, with its data at location [l1]. *)
Definition m1 : ptr := 1%positive.
Definition l1 : loc := 1%positive.
Definition map_of (unsafe : bool) : Map := mkMap (mkRWMutex unsafe false 0) (Some l1).

Definition state_of (unsafe : bool) (s : gomap nat) : State nat :=
  mkState {[ m1 := map_of unsafe ]} {[ l1 := s ]} 0%nat [].

(** The state with two maps in safe mode: [m1] with its data, of contents
    [s1], at [l1], and [m2] with its data, of contents [s2], at [l2]. *)
Definition m2 : ptr := 2%positive.
Definition l2 : loc := 2%positive.

Definition state_of2 (s1 s2 : gomap nat) : State nat :=
  mkState {[ m1 := map_of false; m2 := mkMap (mkRWMutex false false 0) (Some l2) ]}
          {[ l1 := s1; l2 := s2 ]} 0%nat [].

(** A map with the one entry [1:10], and the state that holds it. *)
Definition one_ten : gomap nat := {[ CInt 1 := VInt 10 ]}.
Definition st10 : State nat := state_of false one_ten.

(** The state in which [m1] leads to a map in safe mode whose data is the
    nil map. *)
Definition state_nil : State nat :=
  mkState {[ m1 := mkMap (mkRWMutex false false 0) None ]} ∅ 0%nat [].

(** A callback that accepts the values other than [10] and counts its
    calls. *)
Definition not_ten : iface nat → iface nat → bool :=
  λ _ v, match v with VCmp (CInt 10) => false | _ => true end.
Definition count_call : iface nat → iface nat → nat → nat := λ _ _ n, S n.

(** The two orders in which the entries of a map can be enumerated that the
    examples use. *)
Definition order_fwd : RangeOrder nat :=
  mkRangeOrder map_to_list (λ s, reflexivity _).

Definition order_rev : RangeOrder nat :=
  mkRangeOrder (λ s, reverse (map_to_list s)) (λ s, reverse_Permutation _).

(** * Verification *)

Section GmapTheory.

Context {W : Type} (order : RangeOrder W).

Implicit Types (σ : State W) (m : ptr) (l : loc) (s : gomap W).
Implicit Types (c k : comparable) (v : iface W) (o : Map).
Implicit Types (mp : gmap ptr Map) (hp : gmap loc (gomap W)) (w : W).
Implicit Types (cs : list (gset ptr)).

(** ** Running computations step by step *)

Lemma bind_run {A B} (c : M W A) (f : A → M W B) σ a σ1 r :
  c σ = Ok a σ1 → f a σ1 = r → (c ≫= f) σ = r.
Proof. intros Hc Hf. unfold mbind, M_bind. by rewrite Hc. Qed.



Lemma get_data_run mp hp w cs m o :
  mp !! m = Some o →
  get_data m (mkState mp hp w cs) = Ok (data o) (mkState mp hp w cs).
Proof.
  intros Hm. unfold get_data. eapply bind_run; [unfold load_Map; simpl; by rewrite Hm|reflexivity].
Qed.

Lemma set_data_run mp hp w cs m o d :
  mp !! m = Some o →
  set_data m d (mkState mp hp w cs)
  = Ok tt (mkState (<[m := mkMap (mu o) d]> mp) hp w cs).
Proof.
  intros Hm. unfold set_data. eapply bind_run; [unfold load_Map; simpl; by rewrite Hm|reflexivity].
Qed.

Lemma Lock_run mp hp w cs m o :
  mp !! m = Some o → idle (mu o) →
  Lock m (mkState mp hp w cs)
  = Ok tt (mkState (<[m := mkMap (wlocked (mu o)) (data o)]> mp) hp w cs).
Proof.
  intros Hm [Hw Hr]. unfold Lock.
  eapply bind_run; [unfold load_Map; simpl; by rewrite Hm|].
  destruct o as [[u wr rd] d]; simpl in *; subst. unfold wlocked; simpl.
  destruct u; simpl.
  - by rewrite insert_id.
  - unfold set_mu. eapply bind_run; [unfold load_Map; simpl; by rewrite Hm|reflexivity].
Qed.

Lemma Unlock_run mp hp w cs m o lk :
  mp !! m = Some o → mu o = wlocked lk → idle lk →
  Unlock m (mkState mp hp w cs)
  = Ok tt (mkState (<[m := mkMap lk (data o)]> mp) hp w cs).
Proof.
  intros Hm Hmu [Hw Hr]. unfold Unlock.
  eapply bind_run; [unfold load_Map; simpl; by rewrite Hm|].
  destruct o as [lk' d], lk as [u wr rd]; simpl in *; subst.
  unfold wlocked; simpl. destruct u; simpl.
  - by rewrite insert_id.
  - unfold set_mu. eapply bind_run; [unfold load_Map; simpl; by rewrite Hm|reflexivity].
Qed.

Lemma RLock_run mp hp w cs m o :
  mp !! m = Some o → idle (mu o) →
  RLock m (mkState mp hp w cs)
  = Ok tt (mkState (<[m := mkMap (rlocked (mu o)) (data o)]> mp) hp w cs).
Proof.
  intros Hm [Hw Hr]. unfold RLock.
  eapply bind_run; [unfold load_Map; simpl; by rewrite Hm|].
  destruct o as [[u wr rd] d]; simpl in *; subst. unfold rlocked; simpl.
  destruct u; simpl.
  - by rewrite insert_id.
  - unfold set_mu. eapply bind_run; [unfold load_Map; simpl; by rewrite Hm|reflexivity].
Qed.

Lemma RUnlock_run mp hp w cs m o lk :
  mp !! m = Some o → mu o = rlocked lk → idle lk →
  RUnlock m (mkState mp hp w cs)
  = Ok tt (mkState (<[m := mkMap lk (data o)]> mp) hp w cs).
Proof.
  intros Hm Hmu [Hw Hr]. unfold RUnlock.
  eapply bind_run; [unfold load_Map; simpl; by rewrite Hm|].
  destruct o as [lk' d], lk as [u wr rd]; simpl in *; subst.
  unfold rlocked; simpl. destruct u; simpl.
  - by rewrite insert_id.
  - unfold set_mu. eapply bind_run; [unfold load_Map; simpl; by rewrite Hm|reflexivity].
Qed.

Lemma map_load_run mp hp w cs l s c :
  hp !! l = Some s →
  map_load (Some l) (VCmp c) (mkState mp hp w cs)
  = Ok (comma_ok s c) (mkState mp hp w cs).
Proof.
  intros Hl. unfold map_load; simpl. eapply bind_run; [unfold deref; simpl; by rewrite Hl|reflexivity].
Qed.

Lemma map_store_run mp hp w cs l s c v :
  hp !! l = Some s →
  map_store (Some l) (VCmp c) v (mkState mp hp w cs)
  = Ok tt (mkState mp (<[l := <[c := v]> s]> hp) w cs).
Proof.
  intros Hl. unfold map_store; simpl. eapply bind_run; [unfold deref; simpl; by rewrite Hl|reflexivity].
Qed.

Lemma map_delete_run mp hp w cs l s c :
  hp !! l = Some s →
  map_delete (Some l) (VCmp c) (mkState mp hp w cs)
  = Ok tt (mkState mp (<[l := delete c s]> hp) w cs).
Proof.
  intros Hl. unfold map_delete; simpl. eapply bind_run; [unfold deref; simpl; by rewrite Hl|reflexivity].
Qed.

Lemma map_len_run mp hp w cs l s :
  hp !! l = Some s →
  map_len (Some l) (mkState mp hp w cs) = Ok (size s) (mkState mp hp w cs).
Proof.
  intros Hl. unfold map_len. eapply bind_run; [unfold deref; simpl; by rewrite Hl|reflexivity].
Qed.

Lemma map_range_run mp hp w cs l s :
  hp !! l = Some s →
  map_range order (Some l) (mkState mp hp w cs)
  = Ok (order s) (mkState mp hp w cs).
Proof.
  intros Hl. unfold map_range. eapply bind_run; [unfold deref; simpl; by rewrite Hl|reflexivity].
Qed.

(** Symbolic execution of straight-line code from a state given by its
    components. *)
Ltac solve_lookup :=
  first
    [ eassumption
    | apply lookup_insert_eq
    | rewrite lookup_insert_ne; [solve_lookup | congruence] ].

Ltac solve_idle :=
  first [ eassumption | split; reflexivity ].

Ltac use_lookups :=
  repeat match goal with
         | H : _ !! _ = _ |- _ => rewrite H
         | H : comma_ok _ _ = _ |- _ => rewrite H
         end.

Ltac mstep_loop := fail.

Ltac mstep :=
  simpl;
  lazymatch goal with
  | |- mbind _ _ _ = _ => eapply bind_run; [mstep | mstep]
  | |- defer _ _ _ = _ => unfold defer; mstep
  | |- mret _ _ = _ => reflexivity
  | |- Lock _ _ = _ => eapply Lock_run; [solve_lookup | solve_idle]
  | |- RLock _ _ = _ => eapply RLock_run; [solve_lookup | solve_idle]
  | |- Unlock _ _ = _ =>
      eapply Unlock_run; [solve_lookup | reflexivity | solve_idle]
  | |- RUnlock _ _ = _ =>
      eapply RUnlock_run; [solve_lookup | reflexivity | solve_idle]
  | |- get_data _ _ = _ => eapply get_data_run; solve_lookup
  | |- set_data _ _ _ = _ => eapply set_data_run; solve_lookup
  | |- map_load _ _ _ = _ => eapply map_load_run; solve_lookup
  | |- map_store _ _ _ _ = _ => eapply map_store_run; solve_lookup
  | |- map_delete _ _ _ = _ => eapply map_delete_run; solve_lookup
  | |- map_len _ _ = _ => eapply map_len_run; solve_lookup
  | |- map_range _ _ _ = _ => eapply map_range_run; solve_lookup
  | |- call _ _ = _ => reflexivity
  | |- make_map _ = _ => reflexivity
  | |- for_each _ _ _ = _ => mstep_loop
  | |- (if _ then _ else _) _ = _ => progress use_lookups; mstep
  | |- (match _ with _ => _ end) _ = _ => progress use_lookups; mstep
  end.

(** Unlocking restores the struct the method found. *)
Lemma relock_id mp m lk lk' d d' :
  mp !! m = Some (mkMap lk d) →
  <[m := mkMap lk d]> (<[m := mkMap lk' d']> mp) = mp.
Proof. intros Hm. rewrite insert_insert_eq. by apply insert_id. Qed.

Ltac open_holds H σ :=
  let o := fresh "o" in
  let lk := fresh "lk" in
  let d := fresh "d" in
  let Hm := fresh "Hm" in
  let Hi := fresh "Hi" in
  let Hd := fresh "Hd" in
  let Hl := fresh "Hl" in
  destruct H as (o & Hm & Hi & Hd & Hl);
  destruct o as [lk d]; simpl in Hi, Hd; subst d;
  try (destruct σ as [mp hp w cs]; simpl in * ).

(** ** The single-item methods *)

Lemma Set_run σ m l s c v :
  holds σ m l s →
  Set_ m (VCmp c) v σ = Ok tt (with_heap σ l (<[c := v]> s)).
Proof.
  intros H. open_holds H σ. unfold Set_, with_heap; simpl.
  eapply eq_trans; [mstep|]. by rewrite relock_id.
Qed.

Lemma Search_run σ m l s c :
  holds σ m l s →
  Search m (VCmp c) σ = Ok (comma_ok s c) σ.
Proof.
  intros H. open_holds H σ. unfold Search.
  eapply eq_trans; [mstep|]. by rewrite relock_id.
Qed.

Lemma Get_run σ m l s c :
  holds σ m l s → Get m (VCmp c) σ = Ok (comma_ok s c).1 σ.
Proof.
  intros H. open_holds H σ. unfold Get.
  eapply eq_trans; [mstep|]. by rewrite relock_id.
Qed.

Lemma Contains_run σ m l s c :
  holds σ m l s → Contains m (VCmp c) σ = Ok (comma_ok s c).2 σ.
Proof.
  intros H. open_holds H σ. unfold Contains.
  eapply eq_trans; [mstep|]. by rewrite relock_id.
Qed.

Lemma Size_run σ m l s :
  holds σ m l s → Size m σ = Ok (size s) σ.
Proof.
  intros H. open_holds H σ. unfold Size.
  eapply eq_trans; [mstep|]. by rewrite relock_id.
Qed.

Lemma IsEmpty_run σ m l s :
  holds σ m l s → IsEmpty m σ = Ok (size s =? 0)%nat σ.
Proof.
  intros H. open_holds H σ. unfold IsEmpty.
  eapply eq_trans; [mstep|]. by rewrite relock_id.
Qed.

Lemma Remove_run σ m l s c :
  holds σ m l s →
  Remove m (VCmp c) σ
  = Ok (comma_ok s c).1
       (if (comma_ok s c).2 then with_heap σ l (delete c s) else σ).
Proof.
  intros H. open_holds H σ. unfold Remove, with_heap; simpl.
  destruct (comma_ok s c) as [v0 [|]] eqn:Hc; simpl;
    (eapply eq_trans; [mstep|]); by rewrite Hc, relock_id.
Qed.

(** ** States that hold a map *)

Lemma comma_ok_Some s c v : s !! c = Some v → comma_ok s c = (v, true).
Proof. intros H. unfold comma_ok. by rewrite H. Qed.

Lemma comma_ok_None s c : s !! c = None → comma_ok s c = (Nil, false).
Proof. intros H. unfold comma_ok. by rewrite H. Qed.


Lemma holds_contents σ m l s : holds σ m l s → contents σ m = Some s.
Proof.
  intros (o & Hm & _ & Hd & Hl). unfold contents. by rewrite Hm, Hd.
Qed.

Lemma holds_with_heap σ m l s s' : holds σ m l s → holds (with_heap σ l s') m l s'.
Proof.
  intros (o & Hm & Hi & Hd & Hl). exists o. simpl.
  by rewrite lookup_insert_eq.
Qed.

Lemma holds_with_heap_ne σ m l s l' s' :
  holds σ m l s → l ≠ l' → holds (with_heap σ l' s') m l s.
Proof.
  intros (o & Hm & Hi & Hd & Hl) Hne. exists o. simpl.
  by rewrite lookup_insert_ne.
Qed.

Lemma holds_after_call σ m l s c r held :
  holds σ m l s → holds (after_call σ l s c r held) m l (<[c := r.1]> s).
Proof.
  intros (o & Hm & Hi & Hd & Hl). exists o. simpl.
  by rewrite lookup_insert_eq.
Qed.

Lemma holds_not_write_locked σ m l s : holds σ m l s → m ∉ write_locked σ.
Proof.
  intros (o & Hm & [Hw _] & _) Hin. unfold write_locked in Hin.
  apply elem_of_dom in Hin as [o' Ho'].
  apply map_lookup_filter_Some in Ho' as [Ho' Hp]. simpl in Hp.
  rewrite Hm in Ho'. injection Ho' as <-. congruence.
Qed.

Lemma write_locked_Lock σ hp w cs m lk d :
  maps σ !! m = Some (mkMap lk d) → idle lk →
  write_locked (mkState (<[m := mkMap (wlocked lk) d]> (maps σ)) hp w cs)
  = held_with σ m.
Proof.
  intros Hm [Hw Hr]. unfold held_with, write_locked, wlocked; simpl.
  rewrite Hm; simpl. destruct (unsafe lk) eqn:Hu.
  - by rewrite insert_id.
  - rewrite map_filter_insert_True by done. by rewrite dom_insert_L.
Qed.

(** ** The check-and-set methods *)


Lemma doSet_absent_value σ m l s c value :
  holds σ m l s → s !! c = None → assert_func value = None →
  doSetWithLockCheck m (VCmp c) value σ
  = Ok value (with_heap σ l (<[c := value]> s)).
Proof.
  intros H Hc%comma_ok_None Hf. open_holds H σ. unfold doSetWithLockCheck.
  rewrite Hf. eapply eq_trans; [mstep|]. by rewrite relock_id.
Qed.

Lemma doSet_absent_func σ m l s c f :
  holds σ m l s → s !! c = None →
  doSetWithLockCheck m (VCmp c) (VFunc f) σ
  = Ok (f (world σ)).1 (after_call σ l s c (f (world σ)) (held_with σ m)).
Proof.
  intros H Hc%comma_ok_None. open_holds H σ. unfold doSetWithLockCheck.
  eapply eq_trans; [mstep|]. unfold after_call; simpl.
  rewrite relock_id by done.
  by rewrite (write_locked_Lock (mkState mp hp w cs)).
Qed.

Lemma GetOrSet_present σ m l s c v0 value :
  holds σ m l s → s !! c = Some v0 →
  GetOrSet m (VCmp c) value σ = Ok v0 σ.
Proof.
  intros H Hc. unfold GetOrSet.
  eapply bind_run; [by eapply Search_run|].
  by rewrite (comma_ok_Some _ _ _ Hc).
Qed.

Lemma GetOrSet_absent σ m l s c value :
  holds σ m l s → s !! c = None →
  GetOrSet m (VCmp c) value σ = doSetWithLockCheck m (VCmp c) value σ.
Proof.
  intros H Hc. unfold GetOrSet.
  eapply bind_run; [by eapply Search_run|].
  by rewrite (comma_ok_None _ _ Hc).
Qed.

Lemma GetOrSetFuncLock_present σ m l s c v0 f :
  holds σ m l s → s !! c = Some v0 →
  GetOrSetFuncLock m (VCmp c) f σ = Ok v0 σ.
Proof.
  intros H Hc. unfold GetOrSetFuncLock.
  eapply bind_run; [by eapply Search_run|].
  by rewrite (comma_ok_Some _ _ _ Hc).
Qed.

Lemma GetOrSetFuncLock_absent σ m l s c f :
  holds σ m l s → s !! c = None →
  GetOrSetFuncLock m (VCmp c) f σ
  = Ok (f (world σ)).1 (after_call σ l s c (f (world σ)) (held_with σ m)).
Proof.
  intros H Hc. unfold GetOrSetFuncLock.
  eapply bind_run; [by eapply Search_run|].
  rewrite (comma_ok_None _ _ Hc); simpl. by apply doSet_absent_func.
Qed.

Lemma SetIfNotExist_present σ m l s c v0 value :
  holds σ m l s → s !! c = Some v0 →
  SetIfNotExist m (VCmp c) value σ = Ok false σ.
Proof.
  intros H Hc. unfold SetIfNotExist.
  eapply bind_run; [by eapply Contains_run|].
  by rewrite (comma_ok_Some _ _ _ Hc).
Qed.

Lemma SetIfNotExist_absent σ m l s c value :
  holds σ m l s → s !! c = None →
  SetIfNotExist m (VCmp c) value σ
  = (doSetWithLockCheck m (VCmp c) value ≫= λ _, mret true) σ.
Proof.
  intros H Hc. unfold SetIfNotExist.
  eapply bind_run; [by eapply Contains_run|].
  by rewrite (comma_ok_None _ _ Hc).
Qed.

(** ** GetOrSet *)

(** C1, as the code has it.  For every map [m], key [k] and value [v]: if
    [k] is present with value [v0], [GetOrSet(k, v)] returns [v0] and the
    whole state is left as it was; if [k] is absent and [v] is not of dynamic
    type [func() interface{}], it stores [v] under [k] and returns [v]; if
    [k] is absent and [v] is such a closure, the closure is run and its
    result is what is stored and returned. *)
Theorem GetOrSet_spec σ m l s k v :
  holds σ m l s →
  (∀ v0, s !! k = Some v0 → GetOrSet m (VCmp k) v σ = Ok v0 σ) ∧
  (s !! k = None → assert_func v = None →
   GetOrSet m (VCmp k) v σ = Ok v (with_heap σ l (<[k := v]> s)) ∧
   contents (with_heap σ l (<[k := v]> s)) m = Some (<[k := v]> s)) ∧
  (s !! k = None → ∀ f, v = VFunc f →
   GetOrSet m (VCmp k) v σ
   = Ok (f (world σ)).1 (after_call σ l s k (f (world σ)) (held_with σ m)) ∧
   contents (after_call σ l s k (f (world σ)) (held_with σ m)) m
   = Some (<[k := (f (world σ)).1]> s)).
Proof.
  intros H. split_and!.
  - intros v0 Hk. by eapply GetOrSet_present.
  - intros Hk Hv. split.
    + erewrite GetOrSet_absent by done. by apply doSet_absent_value.
    + eapply holds_contents, holds_with_heap, H.
  - intros Hk f ->. split.
    + erewrite GetOrSet_absent by done. by apply doSet_absent_func.
    + eapply holds_contents, holds_after_call, H.
Qed.

(** ** SetIfNotExist *)

(** C2, as the code has it.  [SetIfNotExist(k, v)] on an absent [k] returns
    true and stores [v] when [v] is not of dynamic type [func() interface{}],
    and stores the result of running [v] when it is; on a present [k] it
    returns false and the whole state, the entries of the map included, is
    left as it was. *)
Theorem SetIfNotExist_spec σ m l s k v :
  holds σ m l s →
  (s !! k = None → assert_func v = None →
   SetIfNotExist m (VCmp k) v σ = Ok true (with_heap σ l (<[k := v]> s)) ∧
   contents (with_heap σ l (<[k := v]> s)) m = Some (<[k := v]> s)) ∧
  (s !! k = None → ∀ f, v = VFunc f →
   SetIfNotExist m (VCmp k) v σ
   = Ok true (after_call σ l s k (f (world σ)) (held_with σ m)) ∧
   contents (after_call σ l s k (f (world σ)) (held_with σ m)) m
   = Some (<[k := (f (world σ)).1]> s)) ∧
  (∀ v0, s !! k = Some v0 → SetIfNotExist m (VCmp k) v σ = Ok false σ).
Proof.
  intros H. split_and!.
  - intros Hk Hv. split.
    + erewrite SetIfNotExist_absent by done.
      eapply bind_run; [by apply doSet_absent_value|reflexivity].
    + eapply holds_contents, holds_with_heap, H.
  - intros Hk f ->. split.
    + erewrite SetIfNotExist_absent by done.
      eapply bind_run; [by apply doSet_absent_func|reflexivity].
    + eapply holds_contents, holds_after_call, H.
  - intros v0 Hk. by eapply SetIfNotExist_present.
Qed.

(** ** Closures as values *)

(** C9, as the code has it.  On an absent key, [GetOrSet] and
    [SetIfNotExist] with a value of dynamic type [func() interface{}] run
    the closure exactly once, under the lock of the map, and store its
    result under the key instead of the closure.  Nothing is said of the
    result: it is stored as it is, closure or not. *)
Theorem func_value_is_run σ m l s k f :
  holds σ m l s → s !! k = None →
  let r := f (world σ) in
  let σ' := after_call σ l s k r (held_with σ m) in
  GetOrSet m (VCmp k) (VFunc f) σ = Ok r.1 σ' ∧
  SetIfNotExist m (VCmp k) (VFunc f) σ = Ok true σ' ∧
  contents σ' m = Some (<[k := r.1]> s) ∧
  world σ' = r.2 ∧
  calls σ' = calls σ ++ [held_with σ m].
Proof.
  intros H Hk r σ'. split_and!; try reflexivity.
  - erewrite GetOrSet_absent by done. by apply doSet_absent_func.
  - erewrite SetIfNotExist_absent by done.
    eapply bind_run; [by apply doSet_absent_func|reflexivity].
  - eapply holds_contents, holds_after_call, H.
Qed.

(** ** GetOrSetFuncLock *)



(** ** Get, Search and Remove *)

(** C10.  [Get] of an absent key returns nil, as it does for a key stored
    with nil; [Search] tells the two apart: its flag is false exactly when
    the key is absent.  Neither changes the state. *)
Theorem Get_Search_absent σ m l s :
  holds σ m l s →
  (∀ k, s !! k = None → Get m (VCmp k) σ = Ok Nil σ) ∧
  (∀ k, s !! k = Some Nil → Get m (VCmp k) σ = Ok Nil σ) ∧
  (∀ k, ∃ v found, Search m (VCmp k) σ = Ok (v, found) σ ∧
                   (found = false ↔ s !! k = None)).
Proof.
  intros H. split_and!.
  - intros k Hk. erewrite Get_run by done. by rewrite (comma_ok_None _ _ Hk).
  - intros k Hk. erewrite Get_run by done. by rewrite (comma_ok_Some _ _ _ Hk).
  - intros k. exists (comma_ok s k).1, (comma_ok s k).2. split.
    + erewrite Search_run by done. by destruct (comma_ok s k).
    + unfold comma_ok. destruct (s !! k); simpl; split; done.
Qed.

(** C7.  [Remove(k)] returns the value that was stored under [k], or nil
    when there was none; afterwards [k] is absent and every other entry is as
    before; when [k] was absent the whole state is left as it was. *)
Theorem Remove_spec σ m l s k :
  holds σ m l s →
  ∃ σ' s',
    Remove m (VCmp k) σ = Ok (default Nil (s !! k)) σ' ∧
    holds σ' m l s' ∧ contents σ' m = Some s' ∧
    s' !! k = None ∧
    (∀ k', k' ≠ k → s' !! k' = s !! k') ∧
    (s !! k = None → σ' = σ).
Proof.
  intros H. pose proof (Remove_run σ m l s k H) as Hrun.
  unfold comma_ok in Hrun. destruct (s !! k) as [v0|] eqn:Hk; simpl in *.
  - exists (with_heap σ l (delete k s)), (delete k s). split_and!.
    + done.
    + by eapply holds_with_heap.
    + eapply holds_contents. by eapply holds_with_heap.
    + apply lookup_delete_eq.
    + intros k' Hne. by apply lookup_delete_ne.
    + done.
  - exists σ, s. split_and!; try done. by eapply holds_contents.
Qed.

(** ** NewFromArray *)

Lemma zip_from_notin i (keys : list comparable) (values : list (iface W)) acc k :
  k ∉ keys → zip_from i keys values acc !! k = acc !! k.
Proof.
  revert i acc. induction keys as [|k' keys IH]; intros i acc Hk; simpl.
  - done.
  - apply not_elem_of_cons in Hk as [Hne Hk].
    rewrite IH by done. by rewrite lookup_insert_ne.
Qed.

Lemma zip_from_last i (keys : list comparable) (values : list (iface W)) acc j k :
  keys !! j = Some k →
  (∀ j', j < j' → keys !! j' ≠ Some k) →
  zip_from i keys values acc !! k = Some (default Nil (values !! (i + j))).
Proof.
  revert i acc j. induction keys as [|k' keys IH]; intros i acc j Hj Hlast.
  - done.
  - destruct j as [|j]; simpl in *.
    + injection Hj as ->. rewrite zip_from_notin.
      * by rewrite lookup_insert_eq, Nat.add_0_r.
      * intros [j' Hj']%list_elem_of_lookup.
        apply (Hlast (S j')); [lia|done].
    + rewrite (IH (S i) _ j); [|done|].
      * by replace (S i + j) with (i + S j) by lia.
      * intros j' Hlt. apply (Hlast (S j')). lia.
Qed.

Lemma NewFromArray_body mp hp w cs l (values : list (iface W)) i k acc :
  hp !! l = Some acc →
  (if (i <? length values)%nat then
     match values !! i return M W unit with
     | Some v => map_store (Some l) (VCmp k) v
     | None => panic
     end
   else map_store (Some l) (VCmp k) Nil) (mkState mp hp w cs)
  = Ok tt (mkState mp (<[l := <[k := default Nil (values !! i)]> acc]> hp) w cs).
Proof.
  intros Hl. destruct (Nat.ltb_spec i (length values)) as [Hlt|Hge].
  - destruct (lookup_lt_is_Some_2 values i Hlt) as [v Hv]. rewrite Hv.
    by apply map_store_run.
  - rewrite (lookup_ge_None_2 values i) by done. by apply map_store_run.
Qed.

Lemma NewFromArray_loop mp hp w cs l (keys : list comparable)
    (values : list (iface W)) i acc :
  hp !! l = Some acc →
  for_each_from i (VCmp <$> keys)
    (λ (i : nat) (k : iface W),
       if (i <? length values)%nat then
         match values !! i return M W unit with
         | Some v => map_store (Some l) k v
         | None => panic
         end
       else map_store (Some l) k Nil) (mkState mp hp w cs)
  = Ok tt (mkState mp (<[l := zip_from i keys values acc]> hp) w cs).
Proof.
  revert hp i acc. induction keys as [|k keys IH]; intros hp i acc Hl; simpl.
  - by rewrite insert_id.
  - eapply bind_run; [by apply NewFromArray_body|].
    simpl. rewrite (IH _ (S i) (<[k := default Nil (values !! i)]> acc)).
    + by rewrite insert_insert_eq.
    + by rewrite lookup_insert_eq.
Qed.

Lemma NewFromArray_run σ (keys : list comparable) values us :
  let l := fresh (dom (heap σ)) in
  let m := fresh (dom (maps σ)) in
  NewFromArray (VCmp <$> keys) values us σ
  = Ok m (mkState (<[m := mkMap (rwmutex_New us) (Some l)]> (maps σ))
            (<[l := zip_from 0 keys values ∅]> (heap σ)) (world σ) (calls σ)).
Proof.
  intros l m. destruct σ as [mp hp w cs]; simpl in *. unfold NewFromArray.
  eapply bind_run; [reflexivity|]. simpl.
  eapply bind_run; [apply NewFromArray_loop, lookup_insert_eq|].
  simpl. by rewrite insert_insert_eq.
Qed.

(** C6, as the code has it.  [NewFromArray(keys, values)] returns a new
    map in which a key absent from [keys] is absent, and in which [keys[i]]
    maps to [values[i]] when [i < len(values)] and [keys[i]] does not occur
    again after position [i], and to nil, being present all the same, when
    [i >= len(values)]; a key that occurs several times has the entry of its
    last occurrence.  So [NewFromArray([1,2,3], [10,20])] is
    [{1:10, 2:20, 3:nil}]. *)
Theorem NewFromArray_spec σ (keys : list comparable) (values : list (iface W)) us :
  (∃ m l σ' s',
     NewFromArray (VCmp <$> keys) values us σ = Ok m σ' ∧
     holds σ' m l s' ∧ contents σ' m = Some s' ∧
     (∀ i k v, keys !! i = Some k → (∀ j, i < j → keys !! j ≠ Some k) →
               values !! i = Some v → s' !! k = Some v) ∧
     (∀ i k, keys !! i = Some k → length values ≤ i → s' !! k = Some Nil) ∧
     (∀ k, k ∉ keys → s' !! k = None)) ∧
  (∃ m σ',
     NewFromArray [VInt 1; VInt 2; VInt 3] [VInt 10; VInt 20] us σ = Ok m σ' ∧
     contents σ' m
     = Some {[ CInt 1 := VInt 10; CInt 2 := VInt 20; CInt 3 := Nil ]}).
Proof.
  split.
  - pose proof (NewFromArray_run σ keys values us) as Hrun. simpl in Hrun.
    eexists _, (fresh (dom (heap σ))), _, (zip_from 0 keys values ∅).
    assert (holds
      (mkState (<[fresh (dom (maps σ)) :=
                  mkMap (rwmutex_New us) (Some (fresh (dom (heap σ))))]> (maps σ))
         (<[fresh (dom (heap σ)) := zip_from 0 keys values ∅]> (heap σ))
         (world σ) (calls σ))
      (fresh (dom (maps σ))) (fresh (dom (heap σ))) (zip_from 0 keys values ∅)) as Hh.
    { eexists. simpl. rewrite !lookup_insert_eq. by repeat split. }
    split_and!.
    + exact Hrun.
    + exact Hh.
    + by eapply holds_contents.
    + intros i k v Hi Hlast Hv.
      rewrite (zip_from_last 0 keys values ∅ i k Hi Hlast). simpl. by rewrite Hv.
    + intros i k Hi Hge.
      assert (∃ j, i ≤ j ∧ keys !! j = Some k ∧
                   ∀ j', j < j' → keys !! j' ≠ Some k) as (j & Hij & Hj & Hlast).
      { clear -Hi. revert i Hi.
        induction keys as [|k' keys IH] using rev_ind; intros i Hi; [done|].
        destruct (decide (k' = k)) as [->|Hne].
        - exists (length keys). split_and!.
          + apply lookup_lt_Some in Hi. rewrite length_app in Hi. simpl in Hi. lia.
          + by rewrite lookup_app_r, Nat.sub_diag.
          + intros j' Hj'. rewrite lookup_ge_None_2; [done|].
            rewrite length_app. simpl. lia.
        - assert (keys !! i = Some k) as Hi'.
          { apply lookup_app_Some in Hi as [Hi|[_ Hi]]; [done|].
            apply list_lookup_singleton_Some in Hi as [_ ?]. done. }
          destruct (IH i Hi') as (j & Hij & Hj & Hlast).
          exists j. split_and!; [done|by apply lookup_app_l_Some|].
          intros j' Hj' Hk. apply lookup_app_Some in Hk as [Hk|[_ Hk]].
          + by apply (Hlast j').
          + apply list_lookup_singleton_Some in Hk as [_ ?]. done. }
      rewrite (zip_from_last 0 keys values ∅ j k Hj Hlast). simpl.
      rewrite lookup_ge_None_2; [done|lia].
    + intros k Hk. rewrite zip_from_notin by done. apply lookup_empty.
  - pose proof (NewFromArray_run σ [CInt 1; CInt 2; CInt 3]
                  [VInt 10; VInt 20] us) as Hrun.
    simpl in Hrun. eexists _, _. split; [exact Hrun|].
    unfold contents; simpl. rewrite !lookup_insert_eq. simpl.
    rewrite lookup_insert_eq. reflexivity.
Qed.

(** ** Merge and Sets *)

Lemma store_all_union (es : list (comparable * iface W)) (acc : gomap W) :
  NoDup es.*1 → store_all acc es = list_to_map es ∪ acc.
Proof.
  unfold store_all. revert acc.
  induction es as [|[k v] es IH]; intros acc Hnd; simpl.
  - by rewrite (left_id_L ∅ (∪)).
  - apply NoDup_cons in Hnd as [Hk Hnd]. rewrite IH by done.
    rewrite <-insert_union_r by by apply not_elem_of_list_to_map_1.
    by rewrite insert_union_l.
Qed.

Lemma store_all_order (s acc : gomap W) : store_all acc (order s) = s ∪ acc.
Proof.
  assert (NoDup (order s).*1) as Hnd.
  { rewrite (range_perm order s). apply NoDup_fst_map_to_list. }
  rewrite store_all_union by done. f_equal.
  rewrite (list_to_map_proper (order s) (map_to_list s) Hnd (range_perm order s)).
  apply list_to_map_to_list.
Qed.

Lemma store_all_loop mp hp w cs m lk l (es : list (comparable * iface W)) acc :
  mp !! m = Some (mkMap lk (Some l)) → hp !! l = Some acc →
  for_each es (λ e, d ← get_data m; map_store d (VCmp e.1) e.2)
    (mkState mp hp w cs)
  = Ok tt (mkState mp (<[l := store_all acc es]> hp) w cs).
Proof.
  intros Hm. revert hp acc.
  induction es as [|e es IH]; intros hp acc Hl; simpl.
  - by rewrite insert_id.
  - eapply bind_run.
    { eapply bind_run; [by apply get_data_run|]. simpl. by apply map_store_run. }
    simpl. rewrite (IH _ (<[e.1 := e.2]> acc)).
    + by rewrite insert_insert_eq.
    + by rewrite lookup_insert_eq.
Qed.

Ltac mstep_loop ::= eapply store_all_loop; solve_lookup.

Lemma unlock2_id mp m m' (o o' a b : Map) :
  m' ≠ m → mp !! m = Some o → mp !! m' = Some o' →
  <[m := o]> (<[m' := o']> (<[m' := a]> (<[m := b]> mp))) = mp.
Proof.
  intros Hne Hm Hm'. rewrite insert_insert_eq.
  rewrite (insert_insert_ne _ m' m) by done. rewrite insert_insert_eq.
  rewrite (insert_id _ m) by by rewrite lookup_insert_ne.
  by apply insert_id.
Qed.

Lemma Merge_run σ m other l s lo so :
  other ≠ m → holds σ m l s → holds σ other lo so →
  Merge order m other σ = Ok tt (with_heap σ l (so ∪ s)).
Proof.
  intros Hne H Ho. open_holds H σ. open_holds Ho σ.
  unfold Merge, with_heap; simpl. rewrite !decide_True by done.
  eapply eq_trans; [mstep|].
  rewrite store_all_order. by rewrite unlock2_id.
Qed.

Lemma Merge_self σ m l s :
  holds σ m l s → Merge order m m σ = Ok tt σ.
Proof.
  intros H. open_holds H σ.
  unfold Merge; simpl. rewrite !decide_False by (intros ?; done).
  eapply eq_trans; [mstep|].
  rewrite store_all_order, relock_id by done.
  rewrite (idemp_L (∪) s). by rewrite insert_id.
Qed.

(** C5.  For two distinct maps [m] and [other], after [m.Merge(other)] every
    key of [other] is in [m] with the value [other] gives it, the keys of [m]
    that [other] does not have keep their values, and when the two have no
    key in common the size of [m] is the sum of the two sizes.  This holds
    also when the two maps share their data. *)
Theorem Merge_spec σ m other l s lo so :
  other ≠ m → holds σ m l s → holds σ other lo so →
  ∃ σ' s',
    Merge order m other σ = Ok tt σ' ∧
    holds σ' m l s' ∧ contents σ' m = Some s' ∧
    (∀ k v, so !! k = Some v →
            s' !! k = Some v ∧ Get m (VCmp k) σ' = Ok v σ') ∧
    (∀ k, so !! k = None → s' !! k = s !! k) ∧
    (s ##ₘ so →
     Size m σ = Ok (size s) σ ∧ Size other σ = Ok (size so) σ ∧
     Size m σ' = Ok (size s + size so) σ').
Proof.
  intros Hne H Ho.
  assert (holds (with_heap σ l (so ∪ s)) m l (so ∪ s)) as H'
    by by eapply holds_with_heap.
  exists (with_heap σ l (so ∪ s)), (so ∪ s). split_and!.
  - by eapply Merge_run.
  - done.
  - by eapply holds_contents.
  - intros k v Hk.
    assert ((so ∪ s) !! k = Some v) as Hu by by apply lookup_union_Some_l.
    split; [done|]. erewrite Get_run by done.
    by rewrite (comma_ok_Some _ _ _ Hu).
  - intros k Hk. by apply lookup_union_r.
  - intros Hdisj. split_and!.
    + by eapply Size_run.
    + by eapply Size_run.
    + erewrite Size_run by done. do 2 f_equal.
      rewrite map_size_disj_union by done. lia.
Qed.

(** ** Flip *)

Lemma bind_panic {A B} (c : M W A) (f : A → M W B) σ :
  c σ = Panic → (c ≫= f) σ = Panic.
Proof. intros Hc. unfold mbind, M_bind. by rewrite Hc. Qed.

Lemma hash_Some v c : hash v = Some c → v = VCmp c.
Proof. destruct v; simpl; congruence. Qed.

Lemma flip_all_app (es1 es2 : list (comparable * iface W)) acc :
  flip_all acc (es1 ++ es2) = flip_all acc es1 ≫= λ n, flip_all n es2.
Proof.
  revert acc. induction es1 as [|e es1 IH]; intros acc; simpl; [done|].
  destruct (hash e.2); [apply IH|done].
Qed.

(** What one [Flip] loop computes from entries whose values can all be
    hashed: every entry of the result comes from an entry of [es] or from
    [acc], and every value of [es] is a key of the result. *)
Lemma flip_all_spec (es : list (comparable * iface W)) acc :
  Forall (λ e, is_Some (hash e.2)) es →
  ∃ n, flip_all acc es = Some n ∧
    (∀ c v, n !! c = Some v →
       (∃ e, e ∈ es ∧ hash e.2 = Some c ∧ v = VCmp e.1) ∨ acc !! c = Some v) ∧
    (∀ e c, e ∈ es → hash e.2 = Some c →
       ∃ e', e' ∈ es ∧ hash e'.2 = Some c ∧ n !! c = Some (VCmp e'.1)).
Proof.
  induction es as [|e es IH] using rev_ind; intros Hall.
  - exists acc. split_and!; [done|by right|]. by intros ? ? ?%elem_of_nil.
  - apply Forall_app in Hall as [Hall He].
    apply Forall_singleton in He as [c0 Hc0].
    destruct (IH Hall) as (n & Hn & Hfrom & Hto).
    exists (<[c0 := VCmp e.1]> n). split_and!.
    + rewrite flip_all_app, Hn. simpl. by rewrite Hc0.
    + intros c v Hcv. destruct (decide (c = c0)) as [->|Hne].
      * rewrite lookup_insert_eq in Hcv. injection Hcv as <-.
        left. exists e. split_and!; [|done..].
        apply elem_of_app. right. by apply list_elem_of_singleton.
      * rewrite lookup_insert_ne in Hcv by done.
        destruct (Hfrom c v Hcv) as [(e' & He' & Hh & Hv)|Hacc]; [|by right].
        left. exists e'. split_and!; [|done..].
        apply elem_of_app. by left.
    + intros e' c He' Hc. destruct (decide (c = c0)) as [->|Hne].
      * exists e. split_and!; [|done|by rewrite lookup_insert_eq].
        apply elem_of_app. right. by apply list_elem_of_singleton.
      * apply elem_of_app in He' as [He'|He'].
        -- destruct (Hto e' c He' Hc) as (e'' & He'' & Hh & Hl).
           exists e''. split_and!; [|done|by rewrite lookup_insert_ne].
           apply elem_of_app. by left.
        -- apply list_elem_of_singleton in He' as ->. congruence.
Qed.

Lemma flip_all_None (es : list (comparable * iface W)) acc :
  Exists (λ e, hash e.2 = None) es → flip_all acc es = None.
Proof.
  revert acc. induction es as [|e es IH]; intros acc Hex; simpl.
  - by apply Exists_nil in Hex.
  - destruct (hash e.2) eqn:He; [|done].
    apply Exists_cons in Hex as [?|Hex]; [congruence|by apply IH].
Qed.

Lemma Flip_loop mp hp w cs l (es : list (comparable * iface W)) acc :
  hp !! l = Some acc →
  for_each es (λ e, map_store (Some l) e.2 (VCmp e.1)) (mkState mp hp w cs)
  = match flip_all acc es with
    | Some n => Ok tt (mkState mp (<[l := n]> hp) w cs)
    | None => Panic
    end.
Proof.
  revert hp acc. induction es as [|e es IH]; intros hp acc Hl; simpl.
  - by rewrite insert_id.
  - destruct (hash e.2) as [c|] eqn:He.
    + apply hash_Some in He as He'. rewrite He'.
      eapply bind_run; [by apply map_store_run|]. simpl.
      rewrite (IH _ (<[c := VCmp e.1]> acc)) by by rewrite lookup_insert_eq.
      destruct (flip_all _ es); [|done]. by rewrite insert_insert_eq.
    + apply bind_panic. unfold map_store. by rewrite He.
Qed.

Lemma Flip_loop_ok mp hp w cs l (es : list (comparable * iface W)) acc n :
  hp !! l = Some acc → flip_all acc es = Some n →
  for_each es (λ e, map_store (Some l) e.2 (VCmp e.1)) (mkState mp hp w cs)
  = Ok tt (mkState mp (<[l := n]> hp) w cs).
Proof. intros Hl Hn. rewrite (Flip_loop _ _ _ _ _ _ acc) by done. by rewrite Hn. Qed.

Ltac mstep_loop ::=
  first [ eapply store_all_loop; solve_lookup
        | eapply Flip_loop_ok; [solve_lookup | eassumption] ].

Lemma fresh_loc_ne hp l s : hp !! l = Some s → fresh (dom hp) ≠ l.
Proof.
  intros Hl Heq. apply (is_fresh (dom hp)). rewrite Heq.
  apply elem_of_dom. by eexists.
Qed.

Lemma alter_Some mp m o (f : Map → Map) :
  mp !! m = Some o → alter f m mp = <[m := f o]> mp.
Proof.
  intros Hm. rewrite <-(insert_id mp m o Hm) at 1. apply alter_insert_eq.
Qed.

Lemma Flip_run σ m l s n :
  holds σ m l s → flip_all ∅ (order s) = Some n →
  Flip order m σ = Ok tt (with_data σ m (fresh (dom (heap σ))) n).
Proof.
  intros H Hn. open_holds H σ. unfold Flip, with_data; simpl.
  pose proof (fresh_loc_ne _ _ _ Hl) as Hfresh.
  eapply eq_trans; [mstep|].
  rewrite !insert_insert_eq. rewrite (alter_Some _ _ _ _ Hm). reflexivity.
Qed.

Lemma Flip_panics σ m l s :
  holds σ m l s → flip_all ∅ (order s) = None → Flip order m σ = Panic.
Proof.
  intros H Hn. open_holds H σ. unfold Flip; simpl.
  pose proof (fresh_loc_ne _ _ _ Hl) as Hfresh.
  eapply bind_run; [mstep|]. unfold defer.
  apply bind_panic.
  eapply bind_run; [mstep|]. eapply bind_run; [mstep|].
  eapply bind_run; [mstep|]. eapply bind_run; [mstep|].
  eapply bind_run; [mstep|]. simpl.
  apply bind_panic.
  rewrite (Flip_loop _ _ _ _ _ _ ∅) by apply lookup_insert_eq. by rewrite Hn.
Qed.

Lemma holds_with_data σ m l s l' s' :
  holds σ m l s → holds (with_data σ m l' s') m l' s'.
Proof.
  intros (o & Hm & Hi & Hd & Hl). exists (mkMap (mu o) (Some l')).
  unfold with_data; simpl. rewrite lookup_alter_eq, Hm, lookup_insert_eq. done.
Qed.

Lemma elem_of_order (s : gomap W) e : e ∈ order s ↔ s !! e.1 = Some e.2.
Proof.
  rewrite (range_perm order s). destruct e as [k v]. apply elem_of_map_to_list.
Qed.

(** One [Flip] of a map whose values are comparable: each entry of the
    result is an entry of [s] turned round, and each value of [s] is a key
    of the result. *)
Lemma flip_order_spec (s : gomap W) :
  comparable_values s →
  ∃ n, flip_all ∅ (order s) = Some n ∧
    (∀ c v, n !! c = Some v → ∃ k, v = VCmp k ∧ s !! k = Some (VCmp c)) ∧
    (∀ k c, s !! k = Some (VCmp c) →
       ∃ k', n !! c = Some (VCmp k') ∧ s !! k' = Some (VCmp c)).
Proof.
  intros Hcmp.
  destruct (flip_all_spec (order s) ∅) as (n & Hn & Hfrom & Hto).
  { apply Forall_forall. intros [k v] He%elem_of_order. by eapply Hcmp. }
  exists n. split_and!; [done|..].
  - intros c v Hcv. destruct (Hfrom c v Hcv) as [(e & He & Hh & ->)|Hemp].
    + exists e.1. split; [done|]. apply elem_of_order in He.
      by rewrite He, (hash_Some _ _ Hh).
    + by rewrite lookup_empty in Hemp.
  - intros k c Hk.
    destruct (Hto (k, VCmp c) c) as (e' & He' & Hh & Hl); [by apply elem_of_order|done|].
    exists e'.1. split; [done|]. apply elem_of_order in He'.
    by rewrite He', (hash_Some _ _ Hh).
Qed.

Lemma flip_all_twice (s : gomap W) :
  comparable_values s → distinct_values s →
  ∃ n, flip_all ∅ (order s) = Some n ∧ flip_all ∅ (order n) = Some s.
Proof.
  intros Hcmp Hinj.
  destruct (flip_order_spec s Hcmp) as (n & Hn & Hfrom & Hto).
  exists n. split; [done|].
  destruct (flip_order_spec n) as (s2 & Hs2 & Hfrom2 & Hto2).
  { intros c v Hcv. destruct (Hfrom c v Hcv) as (k & -> & _). by eexists. }
  rewrite Hs2. f_equal. apply map_eq. intros k.
  destruct (s !! k) as [v|] eqn:Hk.
  - destruct (Hcmp k v Hk) as [c ->%hash_Some].
    destruct (Hto k c Hk) as (k' & Hn' & Hk').
    rewrite (Hinj k' k _ Hk' Hk) in Hn'.
    destruct (Hto2 c k Hn') as (c' & Hs2' & Hn'').
    destruct (Hfrom c' _ Hn'') as (k2 & [= <-] & Hk2).
    rewrite Hk in Hk2. injection Hk2 as <-. done.
  - destruct (s2 !! k) as [v|] eqn:Hk2; [|done].
    destruct (Hfrom2 k v Hk2) as (c & -> & Hn').
    destruct (Hfrom c _ Hn') as (k0 & [= <-] & Hk0). congruence.
Qed.

(** C4, as the code has it.  For every map whose values are all of a
    comparable type and pairwise distinct, [Flip] twice gives back exactly
    the original mapping.  One [Flip] of a map of comparable values turns
    every entry round and keeps one key for each value: [{1:9, 2:9}] flips to
    [{9:k}] for one [k] among [1] and [2], and a second [Flip] gives
    [{k:9}], which is not the original. *)
Theorem Flip_twice σ m l s :
  holds σ m l s → comparable_values s →
  (distinct_values s →
   ∃ σ', (Flip order m ≫= λ _, Flip order m) σ = Ok tt σ' ∧
         contents σ' m = Some s) ∧
  (∃ σ1 n, Flip order m σ = Ok tt σ1 ∧ contents σ1 m = Some n ∧
     (∀ c v, n !! c = Some v → ∃ k, v = VCmp k ∧ s !! k = Some (VCmp c)) ∧
     (∀ k c, s !! k = Some (VCmp c) →
        ∃ k', n !! c = Some (VCmp k') ∧ s !! k' = Some (VCmp c))) ∧
  (s = {[ CInt 1 := VInt 9; CInt 2 := VInt 9 ]} →
   ∃ k σ1 σ2, (k = CInt 1 ∨ k = CInt 2) ∧
     Flip order m σ = Ok tt σ1 ∧ contents σ1 m = Some {[ CInt 9 := VCmp k ]} ∧
     Flip order m σ1 = Ok tt σ2 ∧ contents σ2 m = Some {[ k := VInt 9 ]} ∧
     ({[ k := VInt 9 ]} : gomap W) ≠ s).
Proof.
  intros H Hcmp.
  assert (∃ σ1 n l1, Flip order m σ = Ok tt σ1 ∧ holds σ1 m l1 n ∧
     (∀ c v, n !! c = Some v → ∃ k, v = VCmp k ∧ s !! k = Some (VCmp c)) ∧
     (∀ k c, s !! k = Some (VCmp c) →
        ∃ k', n !! c = Some (VCmp k') ∧ s !! k' = Some (VCmp c)))
    as (σ1 & n & ln & Hrun1 & H1 & Hfrom & Hto).
  { destruct (flip_order_spec s Hcmp) as (n & Hn & Hfrom & Hto).
    eexists _, n, _. split_and!; [by eapply Flip_run|by eapply holds_with_data|done..]. }
  split_and!.
  - intros Hinj. destruct (flip_all_twice s Hcmp Hinj) as (n' & Hn & Hs).
    eexists. split.
    + eapply bind_run; [by eapply Flip_run|].
      eapply Flip_run; [by eapply holds_with_data|done].
    + eapply holds_contents, holds_with_data, holds_with_data, H.
  - exists σ1, n. split_and!; [done|by eapply holds_contents|done..].
  - intros ->. unfold VInt in *.
    destruct (Hto (CInt 1) (CInt 9)) as (k & Hn9 & Hk); [done|].
    assert (k = CInt 1 ∨ k = CInt 2) as Hk12.
    { destruct (decide (k = CInt 1)) as [|Hne1]; [by left|right].
      rewrite lookup_insert_ne in Hk by done.
      by apply lookup_singleton_Some in Hk as [? _]. }
    assert (n = {[ CInt 9 := VCmp k ]}) as ->.
    { apply map_eq. intros c. destruct (decide (c = CInt 9)) as [->|Hne].
      - by rewrite lookup_singleton_eq.
      - rewrite lookup_singleton_ne by done.
        destruct (n !! c) as [v|] eqn:Hc; [|done].
        destruct (Hfrom c v Hc) as (k0 & -> & Hk0).
        destruct (decide (k0 = CInt 1)) as [->|Hne1].
        + rewrite lookup_insert_eq in Hk0. congruence.
        + rewrite lookup_insert_ne in Hk0 by done.
          apply lookup_singleton_Some in Hk0 as [_ ?]. congruence. }
    destruct (flip_order_spec {[ CInt 9 := VCmp k ]}) as (n2 & Hn2 & Hfrom2 & Hto2).
    { intros c v [_ <-]%lookup_singleton_Some. by eexists. }
    assert (n2 = {[ k := VInt 9 ]}) as ->.
    { apply map_eq. intros k0. destruct (decide (k0 = k)) as [->|Hne].
      - rewrite lookup_singleton_eq.
        destruct (Hto2 (CInt 9) k) as (c' & Hc' & [<- _]%lookup_singleton_Some);
          [by rewrite lookup_singleton_eq|done].
      - rewrite lookup_singleton_ne by done.
        destruct (n2 !! k0) as [v|] eqn:Hk0; [|done].
        destruct (Hfrom2 k0 v Hk0) as (c & -> & [_ ?]%lookup_singleton_Some).
        congruence. }
    exists k, σ1, (with_data σ1 m (fresh (dom (heap σ1))) {[ k := VInt 9 ]}).
    split_and!; [done|done|by eapply holds_contents|by eapply Flip_run|
                 eapply holds_contents, holds_with_data, H1|].
    intros Heq. destruct Hk12 as [->| ->].
    + apply (f_equal (.!! CInt 2)) in Heq.
      rewrite lookup_singleton_ne in Heq by done.
      rewrite lookup_insert_ne, lookup_singleton_eq in Heq by done. done.
    + apply (f_equal (.!! CInt 1)) in Heq.
      rewrite lookup_singleton_ne in Heq by done.
      rewrite lookup_insert_eq in Heq. done.
Qed.

(** ** The remaining methods *)

Lemma Sets_run σ m l s ld d :
  holds σ m l s → heap σ !! ld = Some d →
  Sets order m (Some ld) σ = Ok tt (with_heap σ l (d ∪ s)).
Proof.
  intros H Hd. open_holds H σ. unfold Sets, with_heap; simpl.
  eapply eq_trans; [mstep|].
  by rewrite store_all_order, relock_id.
Qed.

Lemma delete_all_lookup (ks : list comparable) (acc : gomap W) k v :
  delete_all acc ks !! k = Some v ↔ (k ∉ ks) ∧ acc !! k = Some v.
Proof.
  unfold delete_all. revert acc.
  induction ks as [|k' ks IH]; intros acc; simpl.
  - split; [|by intros [_ ?]]. intros ?. split; [apply not_elem_of_nil|done].
  - rewrite IH, lookup_delete_Some, not_elem_of_cons. split.
    + intros (? & ? & ?). split_and!; [congruence|done..].
    + intros ((? & ?) & ?). split_and!; [done|congruence|done].
Qed.

Lemma delete_all_loop mp hp w cs m lk l (ks : list comparable) acc :
  mp !! m = Some (mkMap lk (Some l)) → hp !! l = Some acc →
  for_each (VCmp <$> ks) (λ key, d ← get_data m; map_delete d key)
    (mkState mp hp w cs)
  = Ok tt (mkState mp (<[l := delete_all acc ks]> hp) w cs).
Proof.
  intros Hm. revert hp acc.
  induction ks as [|k ks IH]; intros hp acc Hl; simpl.
  - by rewrite insert_id.
  - eapply bind_run.
    { eapply bind_run; [by apply get_data_run|]. simpl. by apply map_delete_run. }
    simpl. rewrite (IH _ (delete k acc)).
    + by rewrite insert_insert_eq.
    + by rewrite lookup_insert_eq.
Qed.

Ltac mstep_loop ::=
  first [ eapply store_all_loop; solve_lookup
        | eapply Flip_loop_ok; [solve_lookup | eassumption]
        | eapply delete_all_loop; solve_lookup ].

Lemma Removes_run σ m l s (ks : list comparable) :
  holds σ m l s →
  Removes m (VCmp <$> ks) σ = Ok tt (with_heap σ l (delete_all s ks)).
Proof.
  intros H. open_holds H σ. unfold Removes, with_heap; simpl.
  eapply eq_trans; [mstep|]. by rewrite relock_id.
Qed.

Lemma Clear_run σ m l s :
  holds σ m l s →
  Clear m σ = Ok tt (with_data σ m (fresh (dom (heap σ))) ∅).
Proof.
  intros H. open_holds H σ. unfold Clear, with_data; simpl.
  eapply eq_trans; [mstep|].
  rewrite !insert_insert_eq. rewrite (alter_Some _ _ _ _ Hm). reflexivity.
Qed.

Lemma Keys_run σ m l s :
  holds σ m l s → Keys order m σ = Ok ((λ e, VCmp e.1) <$> order s) σ.
Proof.
  intros H. open_holds H σ. unfold Keys.
  eapply eq_trans; [mstep|]. by rewrite relock_id.
Qed.

Lemma Values_run σ m l s :
  holds σ m l s → Values order m σ = Ok (snd <$> order s) σ.
Proof.
  intros H. open_holds H σ. unfold Values.
  eapply eq_trans; [mstep|]. by rewrite relock_id.
Qed.

Lemma holds_world σ m l s w' cs' :
  holds σ m l s → holds (mkState (maps σ) (heap σ) w' cs') m l s.
Proof. intros (o & H). by exists o. Qed.

(** On an absent key [doSetWithLockCheck] stores some value under it. *)
Lemma doSet_absent σ m l s c value :
  holds σ m l s → s !! c = None →
  ∃ v' σ', doSetWithLockCheck m (VCmp c) value σ = Ok v' σ' ∧
           holds σ' m l (<[c := v']> s).
Proof.
  intros H Hc. destruct (assert_func value) as [f|] eqn:Hf.
  - assert (value = VFunc f) as -> by (destruct value; simpl in *; congruence).
    eexists _, _. split; [by apply doSet_absent_func|].
    by apply holds_after_call.
  - eexists _, _. split; [by apply doSet_absent_value|].
    by eapply holds_with_heap.
Qed.

Lemma GetOrSetFunc_present σ m l s c v0 f :
  holds σ m l s → s !! c = Some v0 →
  GetOrSetFunc m (VCmp c) f σ = Ok v0 σ.
Proof.
  intros H Hc. unfold GetOrSetFunc.
  eapply bind_run; [by eapply Search_run|].
  by rewrite (comma_ok_Some _ _ _ Hc).
Qed.

Lemma GetOrSetFunc_absent σ m l s c f :
  holds σ m l s → s !! c = None →
  ∃ v' σ', GetOrSetFunc m (VCmp c) f σ = Ok v' σ' ∧
           holds σ' m l (<[c := v']> s) ∧
           calls σ ++ [write_locked σ] `prefix_of` calls σ'.
Proof.
  intros H Hc.
  destruct (doSet_absent
              (mkState (maps σ) (heap σ) (f (world σ)).2
                 (calls σ ++ [write_locked σ]))
              m l s c (f (world σ)).1) as (v' & σ' & Hrun & H'); [|done|].
  { by apply holds_world. }
  exists v', σ'. split_and!; [|done|].
  - unfold GetOrSetFunc. eapply bind_run; [by eapply Search_run|].
    rewrite (comma_ok_None _ _ Hc); simpl.
    eapply bind_run; [reflexivity|]. exact Hrun.
  - destruct (assert_func (f (world σ)).1) as [g|] eqn:Hg.
    + assert ((f (world σ)).1 = VFunc g) as Hv
        by (destruct (f (world σ)).1; simpl in *; congruence).
      rewrite Hv in Hrun. erewrite doSet_absent_func in Hrun;
        [|by apply holds_world|done].
      injection Hrun as _ <-. simpl. by apply prefix_app_r.
    + erewrite doSet_absent_value in Hrun; [|by apply holds_world|done..].
      by injection Hrun as _ <-.
Qed.

(** [GetOrSetFunc] runs the supplier before it takes the exclusive lock. *)
Lemma GetOrSetFunc_unlocked σ m l s c f :
  holds σ m l s → s !! c = None →
  ∃ v' σ' held rest,
    GetOrSetFunc m (VCmp c) f σ = Ok v' σ' ∧
    calls σ' = calls σ ++ held :: rest ∧ m ∉ held.
Proof.
  intros H Hc.
  destruct (GetOrSetFunc_absent σ m l s c f H Hc) as (v' & σ' & Hrun & _ & [rest Hpre]).
  exists v', σ', (write_locked σ), rest. split_and!; [done| |].
  - by rewrite Hpre, <-app_assoc.
  - by eapply holds_not_write_locked.
Qed.

Lemma SetIfNotExistFunc_present σ m l s c v0 f :
  holds σ m l s → s !! c = Some v0 →
  SetIfNotExistFunc m (VCmp c) f σ = Ok false σ.
Proof.
  intros H Hc. unfold SetIfNotExistFunc.
  eapply bind_run; [by eapply Contains_run|].
  by rewrite (comma_ok_Some _ _ _ Hc).
Qed.

Lemma SetIfNotExistFunc_absent σ m l s c f :
  holds σ m l s → s !! c = None →
  ∃ v' σ', SetIfNotExistFunc m (VCmp c) f σ = Ok true σ' ∧
           holds σ' m l (<[c := v']> s).
Proof.
  intros H Hc.
  destruct (doSet_absent
              (mkState (maps σ) (heap σ) (f (world σ)).2
                 (calls σ ++ [write_locked σ]))
              m l s c (f (world σ)).1) as (v' & σ' & Hrun & H'); [|done|].
  { by apply holds_world. }
  exists v', σ'. split; [|done].
  unfold SetIfNotExistFunc. eapply bind_run; [by eapply Contains_run|].
  rewrite (comma_ok_None _ _ Hc); simpl.
  eapply bind_run; [|reflexivity].
  eapply bind_run; [reflexivity|]. exact Hrun.
Qed.

Lemma SetIfNotExistFuncLock_present σ m l s c v0 f :
  holds σ m l s → s !! c = Some v0 →
  SetIfNotExistFuncLock m (VCmp c) f σ = Ok false σ.
Proof.
  intros H Hc. unfold SetIfNotExistFuncLock.
  eapply bind_run; [by eapply Contains_run|].
  by rewrite (comma_ok_Some _ _ _ Hc).
Qed.

Lemma SetIfNotExistFuncLock_absent σ m l s c f :
  holds σ m l s → s !! c = None →
  SetIfNotExistFuncLock m (VCmp c) f σ
  = Ok true (after_call σ l s c (f (world σ)) (held_with σ m)).
Proof.
  intros H Hc. unfold SetIfNotExistFuncLock.
  eapply bind_run; [by eapply Contains_run|].
  rewrite (comma_ok_None _ _ Hc); simpl.
  eapply bind_run; [by apply doSet_absent_func|reflexivity].
Qed.

(** ** Making maps *)

Lemma holds_alloc_Map σ m l s o' :
  holds σ m l s →
  holds (mkState (<[fresh (dom (maps σ)) := o']> (maps σ)) (heap σ) (world σ)
           (calls σ)) m l s.
Proof.
  intros (o & Hm & Hi & Hd & Hl). exists o. simpl. split_and!; try done.
  rewrite lookup_insert_ne; [done|]. intros Heq.
  apply (is_fresh (dom (maps σ))). rewrite Heq. apply elem_of_dom. by eexists.
Qed.

Lemma holds_new σ mp' l s us :
  heap σ !! l = Some s →
  holds (mkState (<[fresh (dom mp') := mkMap (rwmutex_New us) (Some l)]> mp')
           (heap σ) (world σ) (calls σ)) (fresh (dom mp')) l s.
Proof.
  intros Hl. eexists. simpl. rewrite lookup_insert_eq. by repeat split.
Qed.

Lemma zip_from_is_Some i (keys : list comparable) (values : list (iface W)) acc k :
  is_Some (zip_from i keys values acc !! k) ↔ k ∈ keys ∨ is_Some (acc !! k).
Proof.
  revert i acc. induction keys as [|k' keys IH]; intros i acc; simpl.
  - split; [by right|]. by intros [?%elem_of_nil|?].
  - rewrite IH, lookup_insert_is_Some, elem_of_cons.
    destruct (decide (k' = k)) as [->|Hne].
    { split; intros _; [by left; left|by right; left]. }
    split.
    + intros [?|[?|[_ ?]]]; [by left; right|congruence|by right].
    + intros [[?|?]|?]; [congruence|by left|by right; right].
Qed.

Lemma construct_at_rest (ct : ctor W) us σ :
  ∃ m σ1 s0, construct ct us σ = Ok m σ1 ∧ at_rest σ1 m s0 ∧
    (if nil_ctor ct then holds_nil σ1 m else ∃ l, holds σ1 m l s0) ∧
    ∀ k, is_Some (s0 !! k) ↔ ctor_stored ct k.
Proof.
  destruct ct as [|d| |keys values]; simpl.
  - assert (holds
      (mkState (<[fresh (dom (maps σ)) :=
                  mkMap (rwmutex_New us) (Some (fresh (dom (heap σ))))]> (maps σ))
         (<[fresh (dom (heap σ)) := ∅]> (heap σ)) (world σ) (calls σ))
      (fresh (dom (maps σ))) (fresh (dom (heap σ))) ∅) as H'.
    { eexists. simpl. rewrite !lookup_insert_eq. by repeat split. }
    eexists _, _, ∅. split_and!.
    + unfold New. eapply bind_run; reflexivity.
    + left. eexists. exact H'.
    + eexists. exact H'.
    + intros k. rewrite lookup_empty. split; [by intros [? ?]|done].
  - assert (holds
      (mkState (<[fresh (dom (maps σ)) :=
                  mkMap (rwmutex_New us) (Some (fresh (dom (heap σ))))]> (maps σ))
         (<[fresh (dom (heap σ)) := d]> (heap σ)) (world σ) (calls σ))
      (fresh (dom (maps σ))) (fresh (dom (heap σ))) d) as H'.
    { eexists. simpl. rewrite !lookup_insert_eq. by repeat split. }
    eexists _, _, d. split_and!.
    + eapply bind_run; reflexivity.
    + left. eexists. exact H'.
    + eexists. exact H'.
    + done.
  - assert (holds_nil
      (mkState (<[fresh (dom (maps σ)) := mkMap (rwmutex_New us) None]> (maps σ))
         (heap σ) (world σ) (calls σ)) (fresh (dom (maps σ)))) as H'.
    { eexists. simpl. rewrite lookup_insert_eq. by repeat split. }
    eexists _, _, ∅. split_and!.
    + reflexivity.
    + right. by split.
    + exact H'.
    + intros k. rewrite lookup_empty. split; [by intros [? ?]|done].
  - assert (holds
      (mkState (<[fresh (dom (maps σ)) :=
                  mkMap (rwmutex_New us) (Some (fresh (dom (heap σ))))]> (maps σ))
         (<[fresh (dom (heap σ)) := zip_from 0 keys values ∅]> (heap σ))
         (world σ) (calls σ))
      (fresh (dom (maps σ))) (fresh (dom (heap σ))) (zip_from 0 keys values ∅)) as H'.
    { eexists. simpl. rewrite !lookup_insert_eq. by repeat split. }
    eexists _, _, (zip_from 0 keys values ∅). split_and!.
    + apply NewFromArray_run.
    + left. eexists. exact H'.
    + eexists. exact H'.
    + intros k. rewrite zip_from_is_Some, lookup_empty. split; [|by left].
      by intros [?|[? ?]].
Qed.

(** ** One operation at a time *)

Lemma bind_Ok_inv {A B} (c : M W A) (f : A → M W B) σ b σ' :
  (c ≫= f) σ = Ok b σ' → ∃ a σ1, c σ = Ok a σ1 ∧ f a σ1 = Ok b σ'.
Proof. unfold mbind, M_bind. destruct (c σ); [eauto|done|done]. Qed.

Lemma snapshot_run σ m l s : holds σ m l s → snapshot m σ = Ok s σ.
Proof.
  intros H. open_holds H σ. unfold snapshot.
  eapply bind_run; [by apply get_data_run|]. unfold deref; simpl. by rewrite Hl.
Qed.

Lemma flip_all_Some_hashable (es : list (comparable * iface W)) acc n :
  flip_all acc es = Some n → Forall (λ e, is_Some (hash e.2)) es.
Proof.
  revert acc. induction es as [|e es IH]; intros acc Hn; simpl in *.
  - constructor.
  - destruct (hash e.2) eqn:He; [|done]. constructor; [by eexists|by eapply IH].
Qed.

Lemma presence_insert s s' k :
  (s' = s ∧ is_Some (s !! k)) ∨ (∃ v, s' = <[k := v]> s) →
  ∀ k0, is_Some (s' !! k0) ↔ k0 = k ∨ (is_Some (s !! k0) ∧ ¬ False).
Proof.
  intros [[-> Hk]|[v ->]] k0.
  - split; [tauto|]. by intros [->|[? _]].
  - rewrite lookup_insert_is_Some. split.
    + intros [->|[_ ?]]; tauto.
    + intros [->|[? _]]; [by left|].
      destruct (decide (k = k0)); [by left|by right].
Qed.

(** An operation on a map that nobody has locked runs to its end and leaves
    the map unlocked, with under each key what the operation stored or what
    was there and was not removed; the one exception is a [Flip] of a map
    with a value that cannot be hashed, which panics. *)
Lemma exec_step σ m l s (o : op W) :
  holds σ m l s →
  (o = OFlip ∧ flip_all ∅ (order s) = None ∧ exec order m o σ = Panic) ∨
  (∃ σ' l' s', exec order m o σ = Ok tt σ' ∧ holds σ' m l' s' ∧
     ∀ k, is_Some (s' !! k) ↔
          stored_by (o, s) k ∨ (is_Some (s !! k) ∧ ¬ removed_by (o, s) k)).
Proof.
  intros H.
  assert (∀ k, is_Some (s !! k) ↔ False ∨ (is_Some (s !! k) ∧ ¬ False))
    as Hsame by (intros k; tauto).
  destruct o as [k v|d|k|k|k| | |k v|k f|k f|k v|k f|k f|k|ks| | |d| ];
    unfold stored_by, removed_by; simpl.
  - (* Set *) right. exists (with_heap σ l (<[k := v]> s)), l, (<[k := v]> s).
    split_and!; [by apply Set_run|by eapply holds_with_heap|].
    apply presence_insert. right. by eexists.
  - (* Sets *) right.
    assert (fresh (dom (heap σ)) ≠ l) as Hne.
    { destruct H as (? & _ & _ & _ & Hl). by eapply fresh_loc_ne. }
    eexists _, l, (d ∪ s). split_and!.
    + eapply bind_run; [reflexivity|]. simpl.
      eapply Sets_run; [by apply (holds_with_heap_ne σ m l s)|].
      simpl. by rewrite lookup_insert_eq.
    + eapply holds_with_heap. by apply (holds_with_heap_ne σ m l s).
    + intros k. rewrite lookup_union_is_Some. tauto.
  - (* Get *) right. exists σ, l, s. split_and!; [|done..].
    eapply bind_run; [by eapply Get_run|reflexivity].
  - (* Search *) right. exists σ, l, s. split_and!; [|done..].
    eapply bind_run; [by eapply Search_run|reflexivity].
  - (* Contains *) right. exists σ, l, s. split_and!; [|done..].
    eapply bind_run; [by eapply Contains_run|reflexivity].
  - (* Size *) right. exists σ, l, s. split_and!; [|done..].
    eapply bind_run; [by eapply Size_run|reflexivity].
  - (* IsEmpty *) right. exists σ, l, s. split_and!; [|done..].
    eapply bind_run; [by eapply IsEmpty_run|reflexivity].
  - (* GetOrSet *) right. destruct (s !! k) as [v0|] eqn:Hk.
    + exists σ, l, s. split_and!; [|done|].
      * eapply bind_run; [by eapply GetOrSet_present|reflexivity].
      * apply presence_insert. left. by rewrite Hk.
    + destruct (doSet_absent σ m l s k v H Hk) as (v' & σ' & Hrun & H').
      exists σ', l, (<[k := v']> s). split_and!; [|done|].
      * eapply bind_run; [|reflexivity]. by erewrite GetOrSet_absent.
      * apply presence_insert. right. by eexists.
  - (* GetOrSetFunc *) right. destruct (s !! k) as [v0|] eqn:Hk.
    + exists σ, l, s. split_and!; [|done|].
      * eapply bind_run; [by eapply GetOrSetFunc_present|reflexivity].
      * apply presence_insert. left. by rewrite Hk.
    + destruct (GetOrSetFunc_absent σ m l s k f H Hk) as (v' & σ' & Hrun & H' & _).
      exists σ', l, (<[k := v']> s). split_and!; [|done|].
      * eapply bind_run; [exact Hrun|reflexivity].
      * apply presence_insert. right. by eexists.
  - (* GetOrSetFuncLock *) right. destruct (s !! k) as [v0|] eqn:Hk.
    + exists σ, l, s. split_and!; [|done|].
      * eapply bind_run; [by eapply GetOrSetFuncLock_present|reflexivity].
      * apply presence_insert. left. by rewrite Hk.
    + eexists _, l, _. split_and!.
      * eapply bind_run; [by eapply GetOrSetFuncLock_absent|reflexivity].
      * by apply holds_after_call.
      * apply presence_insert. right. by eexists.
  - (* SetIfNotExist *) right. destruct (s !! k) as [v0|] eqn:Hk.
    + exists σ, l, s. split_and!; [|done|].
      * eapply bind_run; [by eapply SetIfNotExist_present|reflexivity].
      * apply presence_insert. left. by rewrite Hk.
    + destruct (doSet_absent σ m l s k v H Hk) as (v' & σ' & Hrun & H').
      exists σ', l, (<[k := v']> s). split_and!; [|done|].
      * eapply bind_run; [|reflexivity]. erewrite SetIfNotExist_absent by done.
        eapply bind_run; [exact Hrun|reflexivity].
      * apply presence_insert. right. by eexists.
  - (* SetIfNotExistFunc *) right. destruct (s !! k) as [v0|] eqn:Hk.
    + exists σ, l, s. split_and!; [|done|].
      * eapply bind_run; [by eapply SetIfNotExistFunc_present|reflexivity].
      * apply presence_insert. left. by rewrite Hk.
    + destruct (SetIfNotExistFunc_absent σ m l s k f H Hk) as (v' & σ' & Hrun & H').
      exists σ', l, (<[k := v']> s). split_and!; [|done|].
      * eapply bind_run; [exact Hrun|reflexivity].
      * apply presence_insert. right. by eexists.
  - (* SetIfNotExistFuncLock *) right. destruct (s !! k) as [v0|] eqn:Hk.
    + exists σ, l, s. split_and!; [|done|].
      * eapply bind_run; [by eapply SetIfNotExistFuncLock_present|reflexivity].
      * apply presence_insert. left. by rewrite Hk.
    + eexists _, l, _. split_and!.
      * eapply bind_run; [by eapply SetIfNotExistFuncLock_absent|reflexivity].
      * by apply holds_after_call.
      * apply presence_insert. right. by eexists.
  - (* Remove *) right. pose proof (Remove_run σ m l s k H) as Hrun.
    unfold comma_ok in Hrun. destruct (s !! k) as [v0|] eqn:Hk; simpl in Hrun.
    + eexists _, l, (delete k s). split_and!.
      * eapply bind_run; [exact Hrun|reflexivity].
      * by eapply holds_with_heap.
      * intros k0. rewrite lookup_delete_is_Some. split.
        -- intros [? ?]. right. split; [done|congruence].
        -- intros [[]|[? ?]]. split; [congruence|done].
    + exists σ, l, s. split_and!; [|done|].
      * eapply bind_run; [exact Hrun|reflexivity].
      * intros k0. split; [|by intros [[]|[? _]]].
        intros Hk0. right. split; [done|]. intros ->.
        rewrite Hk in Hk0. by destruct Hk0.
  - (* Removes *) right. eexists _, l, (delete_all s ks). split_and!.
    + by apply Removes_run.
    + by eapply holds_with_heap.
    + intros k. split.
      * intros [v [? ?]%delete_all_lookup]. right. split; [by eexists|done].
      * intros [[]|[[v Hv] Hnin]]. exists v. by apply delete_all_lookup.
  - (* Clear *) right. eexists _, _, ∅. split_and!.
    + by eapply Clear_run.
    + by eapply holds_with_data.
    + intros k. rewrite lookup_empty. split; [by intros [? ?]|].
      by intros [[]|[_ []]].
  - (* Flip *) destruct (flip_all ∅ (order s)) as [n|] eqn:Hn.
    + right. eexists _, _, n. split_and!.
      * by eapply Flip_run.
      * by eapply holds_with_data.
      * assert (comparable_values s) as Hcmp.
        { intros k v Hk. apply flip_all_Some_hashable in Hn.
          rewrite Forall_forall in Hn. by apply (Hn (k, v)), elem_of_order. }
        destruct (flip_order_spec s Hcmp) as (n' & Hn' & Hfrom & Hto).
        rewrite Hn in Hn'. injection Hn' as <-. intros k. split.
        -- intros [v Hv]. left. destruct (Hfrom k v Hv) as (k0 & _ & Hk0).
           by exists k0.
        -- intros [[k0 Hk0]|[_ []]]; [|done].
           destruct (Hto k0 k Hk0) as (k' & Hk' & _). by eexists.
    + left. split_and!; [done..|]. by eapply Flip_panics.
  - (* Merge *) right.
    assert (fresh (dom (heap σ)) ≠ l) as Hne.
    { destruct H as (? & _ & _ & _ & Hl). by eapply fresh_loc_ne. }
    assert (fresh (dom (maps σ)) ≠ m) as Hnem.
    { destruct H as (? & Hm & _). intros Heq.
      apply (is_fresh (dom (maps σ))). rewrite Heq. apply elem_of_dom.
      by eexists. }
    eexists _, l, (d ∪ s). split_and!.
    + eapply bind_run; [reflexivity|]. simpl.
      eapply bind_run; [reflexivity|]. simpl.
      eapply Merge_run; [done| |].
      * apply (holds_alloc_Map (with_heap σ (fresh (dom (heap σ))) d)).
        by apply (holds_with_heap_ne σ m l s).
      * apply (holds_new (with_heap σ (fresh (dom (heap σ))) d)).
        simpl. by rewrite lookup_insert_eq.
    + eapply holds_with_heap.
      apply (holds_alloc_Map (with_heap σ (fresh (dom (heap σ))) d)).
      by apply (holds_with_heap_ne σ m l s).
    + intros k. rewrite lookup_union_is_Some. tauto.
  - (* Merge with itself *) right. exists σ, l, s. split_and!; [|done..].
    by eapply Merge_self.
Qed.

(** ** Runs without Flip *)

(** A run on a map with a data object meets no obstacle other than a [Flip]
    of values that cannot be hashed. *)
Lemma run_ops_total (ops : list (op W)) σ m l s :
  holds σ m l s → OFlip ∉ ops → ∃ h σ', run_ops order m ops σ = Ok h σ'.
Proof.
  revert σ l s. induction ops as [|o ops IH]; intros σ l s H Hnf.
  - by eexists _, _.
  - apply not_elem_of_cons in Hnf as [Hne Hnf].
    destruct (exec_step σ m l s o H) as [(-> & _)|(σ1 & l1 & s1 & Hex & H1 & _)];
      [done|].
    destruct (IH σ1 l1 s1 H1 Hnf) as (h' & σ' & Hrest).
    eexists _, _. simpl.
    eapply bind_run; [by eapply snapshot_run|].
    eapply bind_run; [exact Hex|].
    eapply bind_run; [exact Hrest|reflexivity].
Qed.

(** * Further properties of the methods *)

(** ** Set, Get and keys that cannot be hashed *)

(** X1.  After [Set(k, v)], [Get(k)] returns [v] and [Contains(k)] is true;
    the other keys read as before; and [v] is stored as it is, even when it
    is a closure: nothing is invoked. *)
Theorem Set_then_read σ m l s k v :
  holds σ m l s →
  ∃ σ', Set_ m (VCmp k) v σ = Ok tt σ' ∧
    Get m (VCmp k) σ' = Ok v σ' ∧
    Contains m (VCmp k) σ' = Ok true σ' ∧
    (∀ k', k' ≠ k → ∃ r, Get m (VCmp k') σ = Ok r σ ∧
                         Get m (VCmp k') σ' = Ok r σ') ∧
    world σ' = world σ ∧ calls σ' = calls σ.
Proof.
  intros H.
  assert (holds (with_heap σ l (<[k := v]> s)) m l (<[k := v]> s)) as H'
    by by eapply holds_with_heap.
  exists (with_heap σ l (<[k := v]> s)). split_and!; try done.
  - by apply Set_run.
  - erewrite Get_run by done. unfold comma_ok. by rewrite lookup_insert_eq.
  - erewrite Contains_run by done. unfold comma_ok. by rewrite lookup_insert_eq.
  - intros k' Hne. exists (comma_ok s k').1. split; [by eapply Get_run|].
    erewrite Get_run by done. unfold comma_ok.
    by rewrite lookup_insert_ne.
Qed.

Ltac mpanic :=
  repeat first
    [ progress (unfold defer)
    | eapply bind_run; [mstep|]; simpl
    | apply bind_panic ].

Lemma map_load_panic d key σ : hash key = None → map_load d key σ = Panic.
Proof. intros Hk. unfold map_load. by rewrite Hk. Qed.

Lemma map_store_panic d key v σ : hash key = None → map_store d key v σ = Panic.
Proof. intros Hk. unfold map_store. by rewrite Hk. Qed.

Lemma map_delete_panic d key σ : hash key = None → map_delete d key σ = Panic.
Proof. intros Hk. unfold map_delete. by rewrite Hk. Qed.

(** X2.  A key of a type that cannot be hashed, a slice or a function, makes
    every method that indexes the data with it panic: [Set], [Get],
    [Search], [Contains], [Remove], [Removes], [GetOrSet] and
    [SetIfNotExist]. *)
Theorem unhashable_key_panics σ m l s key v :
  holds σ m l s → hash key = None →
  Set_ m key v σ = Panic ∧ Get m key σ = Panic ∧ Search m key σ = Panic ∧
  Contains m key σ = Panic ∧ Remove m key σ = Panic ∧
  Removes m [key] σ = Panic ∧ GetOrSet m key v σ = Panic ∧
  SetIfNotExist m key v σ = Panic.
Proof.
  intros H Hk. open_holds H σ.
  unfold GetOrSet, SetIfNotExist.
  unfold Set_, Get, Search, Contains, Remove, Removes.
  split_and!; mpanic;
    first [ by apply map_load_panic | by apply map_store_panic
          | by apply map_delete_panic ].
Qed.

(** ** Clear *)

(** X3.  [Clear] gives the map a new, empty data object: afterwards the size
    is 0, the map is empty and no key is present, while the object that held
    the data before keeps its contents, for whoever still refers to it. *)
Theorem Clear_spec σ m l s :
  holds σ m l s →
  ∃ σ' l', Clear m σ = Ok tt σ' ∧ holds σ' m l' ∅ ∧ l' ≠ l ∧
    heap σ' !! l = Some s ∧
    Size m σ' = Ok 0%nat σ' ∧ IsEmpty m σ' = Ok true σ' ∧
    ∀ k, Contains m (VCmp k) σ' = Ok false σ'.
Proof.
  intros H.
  assert (fresh (dom (heap σ)) ≠ l) as Hne.
  { destruct H as (? & _ & _ & _ & Hl). by eapply fresh_loc_ne. }
  assert (holds (with_data σ m (fresh (dom (heap σ))) ∅) m
            (fresh (dom (heap σ))) ∅) as H' by by eapply holds_with_data.
  eexists _, _. split_and!.
  - by eapply Clear_run.
  - done.
  - done.
  - simpl. rewrite lookup_insert_ne by done. by destruct H as (? & _ & _ & _ & ?).
  - erewrite Size_run by done. by rewrite map_size_empty.
  - erewrite IsEmpty_run by done. by rewrite map_size_empty.
  - intros k. erewrite Contains_run by done. unfold comma_ok.
    by rewrite lookup_empty.
Qed.

(** ** GetOrSet *)

(** X4.  [GetOrSet] returns the value that is under the key when it
    returns: a [Get] right after gives the same value, and so does any
    further [GetOrSet], whatever value it is given, without changing the
    state. *)
Theorem GetOrSet_stable σ m l s k v :
  holds σ m l s →
  ∃ r σ', GetOrSet m (VCmp k) v σ = Ok r σ' ∧
    Get m (VCmp k) σ' = Ok r σ' ∧
    ∀ v2, GetOrSet m (VCmp k) v2 σ' = Ok r σ'.
Proof.
  intros H. destruct (s !! k) as [v0|] eqn:Hk.
  - exists v0, σ. split_and!.
    + by eapply GetOrSet_present.
    + erewrite Get_run by done. by rewrite (comma_ok_Some _ _ _ Hk).
    + intros v2. by eapply GetOrSet_present.
  - destruct (doSet_absent σ m l s k v H Hk) as (v' & σ' & Hrun & H').
    exists v', σ'. split_and!.
    + by erewrite GetOrSet_absent.
    + erewrite Get_run by done. unfold comma_ok. by rewrite lookup_insert_eq.
    + intros v2. eapply GetOrSet_present; [done|]. by rewrite lookup_insert_eq.
Qed.

(** ** Making maps: New, NewFrom, Map and Clone *)

Lemma fresh_ptr_ne mp m o : mp !! m = Some o → fresh (dom mp) ≠ m.
Proof.
  intros Hm Heq. apply (is_fresh (dom mp)). rewrite Heq.
  apply elem_of_dom. by eexists.
Qed.

(** X5.  [New] returns a pointer that was not in use, to an empty map with a
    data object of its own; the maps that exist keep what they hold; the map
    is in safe mode unless [true] is passed. *)
Theorem New_spec us σ :
  ∃ m l σ', New us σ = Ok m σ' ∧ holds σ' m l ∅ ∧
    maps σ !! m = None ∧ heap σ !! l = None ∧
    (∀ m0 l0 s0, holds σ m0 l0 s0 → holds σ' m0 l0 s0) ∧
    Size m σ' = Ok 0%nat σ' ∧
    (safe_mode σ' m ↔ List.hd false us = false).
Proof.
  assert (holds
    (mkState (<[fresh (dom (maps σ)) :=
                mkMap (rwmutex_New us) (Some (fresh (dom (heap σ))))]> (maps σ))
       (<[fresh (dom (heap σ)) := ∅]> (heap σ)) (world σ) (calls σ))
    (fresh (dom (maps σ))) (fresh (dom (heap σ))) ∅) as H'.
  { eexists. simpl. rewrite !lookup_insert_eq. by repeat split. }
  eexists _, _, _. split_and!.
  - unfold New. eapply bind_run; reflexivity.
  - exact H'.
  - apply not_elem_of_dom, is_fresh.
  - apply not_elem_of_dom, is_fresh.
  - intros m0 l0 s0 H0.
    apply (holds_alloc_Map (with_heap σ (fresh (dom (heap σ))) ∅)).
    apply (holds_with_heap_ne σ m0 l0 s0); [done|].
    destruct H0 as (? & _ & _ & _ & Hl). apply not_eq_sym. by eapply fresh_loc_ne.
  - erewrite Size_run by exact H'. by rewrite map_size_empty.
  - unfold safe_mode; simpl. rewrite lookup_insert_eq. split.
    + by intros (o & [= <-] & Hu).
    + intros Hu. by eexists.
Qed.

(** X6.  [NewFrom] adopts the map object it is given, without a copy: two
    maps made from the same object share it, so that what is [Set] through
    one is what [Get] reads through the other, and it is in the object
    itself. *)
Theorem NewFrom_shares σ l s us us' :
  heap σ !! l = Some s →
  ∃ a b σ2,
    (NewFrom (Some l) us ≫= λ a, NewFrom (Some l) us' ≫= λ b, mret (a, b)) σ
    = Ok (a, b) σ2 ∧
    a ≠ b ∧ holds σ2 a l s ∧ holds σ2 b l s ∧ heap σ2 = heap σ ∧
    ∀ k v, (Set_ a (VCmp k) v ≫= λ _, Get b (VCmp k)) σ2
           = Ok v (with_heap σ2 l (<[k := v]> s)).
Proof.
  intros Hl.
  pose (σ1 := mkState (<[fresh (dom (maps σ)) :=
                         mkMap (rwmutex_New us) (Some l)]> (maps σ))
                (heap σ) (world σ) (calls σ)).
  assert (holds σ1 (fresh (dom (maps σ))) l s) as Ha by by apply holds_new.
  pose (σ2 := mkState (<[fresh (dom (maps σ1)) :=
                         mkMap (rwmutex_New us') (Some l)]> (maps σ1))
                (heap σ1) (world σ1) (calls σ1)).
  assert (holds σ2 (fresh (dom (maps σ1))) l s) as Hb
    by by apply (holds_new σ1).
  assert (holds σ2 (fresh (dom (maps σ))) l s) as Ha2
    by by apply holds_alloc_Map.
  exists (fresh (dom (maps σ))), (fresh (dom (maps σ1))), σ2. split_and!.
  - eapply bind_run; [reflexivity|]. eapply bind_run; reflexivity.
  - apply not_eq_sym. destruct Ha as (o & Hm & _). by eapply fresh_ptr_ne.
  - done.
  - done.
  - done.
  - intros k v. eapply bind_run; [by apply Set_run|].
    erewrite Get_run by by eapply holds_with_heap.
    unfold comma_ok. by rewrite lookup_insert_eq.
Qed.

Lemma copy_loop mp hp w cs l (es : list (comparable * iface W)) acc :
  hp !! l = Some acc →
  for_each es (λ e, map_store (Some l) (VCmp e.1) e.2) (mkState mp hp w cs)
  = Ok tt (mkState mp (<[l := store_all acc es]> hp) w cs).
Proof.
  revert hp acc. induction es as [|e es IH]; intros hp acc Hl; simpl.
  - by rewrite insert_id.
  - eapply bind_run; [by apply map_store_run|]. simpl.
    rewrite (IH _ (<[e.1 := e.2]> acc)).
    + by rewrite insert_insert_eq.
    + by rewrite lookup_insert_eq.
Qed.

Ltac mstep_loop ::=
  first [ eapply store_all_loop; solve_lookup
        | eapply Flip_loop_ok; [solve_lookup | eassumption]
        | eapply delete_all_loop; solve_lookup
        | eapply copy_loop; solve_lookup ].

Lemma Map_run σ m l s :
  holds σ m l s →
  Map_ order m σ
  = Ok (Some (fresh (dom (heap σ)))) (with_heap σ (fresh (dom (heap σ))) s).
Proof.
  intros H. open_holds H σ. unfold Map_, with_heap; simpl.
  pose proof (fresh_loc_ne _ _ _ Hl) as Hfresh.
  eapply eq_trans; [mstep|].
  rewrite store_all_order, !insert_insert_eq.
  rewrite (insert_id mp) by done. by rewrite (right_id_L ∅ (∪)).
Qed.

(** X7.  [Map] returns a copy of the data in a new object: the copy has the
    entries of the map, the map itself is as before, and what is [Set] in
    the map afterwards does not show in the copy. *)
Theorem Map_is_a_copy σ m l s :
  holds σ m l s →
  ∃ l' σ', Map_ order m σ = Ok (Some l') σ' ∧
    l' ≠ l ∧ heap σ !! l' = None ∧ heap σ' !! l' = Some s ∧ holds σ' m l s ∧
    ∀ k v, ∃ σ2, Set_ m (VCmp k) v σ' = Ok tt σ2 ∧
                 heap σ2 !! l' = Some s ∧
                 contents σ2 m = Some (<[k := v]> s).
Proof.
  intros H.
  assert (fresh (dom (heap σ)) ≠ l) as Hne.
  { destruct H as (? & _ & _ & _ & Hl). by eapply fresh_loc_ne. }
  assert (holds (with_heap σ (fresh (dom (heap σ))) s) m l s) as H'
    by by apply (holds_with_heap_ne σ m l s).
  eexists _, _. split_and!.
  - by eapply Map_run.
  - done.
  - apply not_elem_of_dom, is_fresh.
  - simpl. by rewrite lookup_insert_eq.
  - done.
  - intros k v. eexists. split_and!.
    + by apply Set_run.
    + simpl. rewrite lookup_insert_ne by done. by rewrite lookup_insert_eq.
    + eapply holds_contents. by eapply holds_with_heap.
Qed.

(** X8.  [Clone] returns another map with the same entries and a data
    object of its own: what is [Set] in the clone does not show in the
    original, and what is [Set] in the original does not show in the
    clone. *)
Theorem Clone_independent σ m l s us :
  holds σ m l s →
  ∃ m' l' σ', Clone order m us σ = Ok m' σ' ∧
    m' ≠ m ∧ l' ≠ l ∧ holds σ' m l s ∧ holds σ' m' l' s ∧
    (∀ k v, ∃ σ2, Set_ m' (VCmp k) v σ' = Ok tt σ2 ∧
                  contents σ2 m = Some s ∧
                  contents σ2 m' = Some (<[k := v]> s)) ∧
    (∀ k v, ∃ σ2, Set_ m (VCmp k) v σ' = Ok tt σ2 ∧
                  contents σ2 m' = Some s ∧
                  contents σ2 m = Some (<[k := v]> s)).
Proof.
  intros H.
  assert (fresh (dom (heap σ)) ≠ l) as Hne.
  { destruct H as (? & _ & _ & _ & Hl). by eapply fresh_loc_ne. }
  assert (fresh (dom (maps σ)) ≠ m) as Hnem.
  { destruct H as (? & Hm & _). by eapply fresh_ptr_ne. }
  pose (σ1 := with_heap σ (fresh (dom (heap σ))) s).
  assert (holds σ1 m l s) as H1 by by apply (holds_with_heap_ne σ m l s).
  pose (σ' := mkState (<[fresh (dom (maps σ1)) :=
                         mkMap (rwmutex_New us) (Some (fresh (dom (heap σ))))]>
                         (maps σ1))
                (heap σ1) (world σ1) (calls σ1)).
  assert (holds σ' m l s) as Hm' by by apply holds_alloc_Map.
  assert (holds σ' (fresh (dom (maps σ))) (fresh (dom (heap σ))) s) as Hc.
  { apply (holds_new σ1). simpl. by rewrite lookup_insert_eq. }
  exists (fresh (dom (maps σ))), (fresh (dom (heap σ))), σ'. split_and!.
  - unfold Clone. eapply bind_run; [by eapply Map_run|]. reflexivity.
  - done.
  - done.
  - done.
  - done.
  - intros k v. eexists. split_and!.
    + by apply Set_run.
    + eapply holds_contents. by eapply holds_with_heap_ne.
    + eapply holds_contents. by eapply holds_with_heap.
  - intros k v. eexists. split_and!.
    + by apply Set_run.
    + eapply holds_contents. eapply holds_with_heap_ne; [done|].
      by apply not_eq_sym.
    + eapply holds_contents. by eapply holds_with_heap.
Qed.

(** ** The nil map *)

Ltac open_nil H σ :=
  let o := fresh "o" in
  let lk := fresh "lk" in
  let d := fresh "d" in
  let Hm := fresh "Hm" in
  let Hi := fresh "Hi" in
  let Hd := fresh "Hd" in
  destruct H as (o & Hm & Hi & Hd);
  destruct o as [lk d]; simpl in Hi, Hd; subst d;
  destruct σ as [mp hp w cs]; simpl in *.

(** Steps through code some of whose steps compute by themselves. *)
Ltac nstep :=
  repeat first
    [ eapply bind_run; [first [mstep | reflexivity]|]; simpl
    | progress (unfold defer) ].

Lemma comma_ok_empty c : comma_ok (∅ : gomap W) c = (Nil, false).
Proof. unfold comma_ok. by rewrite lookup_empty. Qed.

(** X9.  A map made by [NewFrom(nil)] has the nil map for data.  It reads as
    an empty map: [Get] returns nil, [Search] and [Contains] find nothing,
    [Size] is 0, [Remove] returns nil and changes nothing.  But [Set] and
    [GetOrSet] panic, as every assignment to an entry of a nil map does,
    until [Clear] has given the map a data object. *)
Theorem nil_map σ m k v :
  holds_nil σ m →
  Get m (VCmp k) σ = Ok Nil σ ∧
  Search m (VCmp k) σ = Ok (Nil, false) σ ∧
  Contains m (VCmp k) σ = Ok false σ ∧
  Size m σ = Ok 0%nat σ ∧
  Remove m (VCmp k) σ = Ok Nil σ ∧
  Set_ m (VCmp k) v σ = Panic ∧
  GetOrSet m (VCmp k) v σ = Panic ∧
  (∃ σ1 l, Clear m σ = Ok tt σ1 ∧ holds σ1 m l ∅ ∧
           ∃ σ2, Set_ m (VCmp k) v σ1 = Ok tt σ2 ∧
                 Get m (VCmp k) σ2 = Ok v σ2) ∧
  (∀ us σ0, ∃ m' σ', NewFrom None us σ0 = Ok m' σ' ∧ holds_nil σ' m').
Proof.
  intros H.
  assert (Search m (VCmp k) σ = Ok (Nil, false) σ) as HSearch.
  { open_nil H σ. unfold Search. eapply eq_trans; [nstep; reflexivity|].
    by rewrite comma_ok_empty, relock_id. }
  split_and!.
  - open_nil H σ. unfold Get. eapply eq_trans; [nstep; reflexivity|].
    by rewrite comma_ok_empty, relock_id.
  - done.
  - open_nil H σ. unfold Contains. eapply eq_trans; [nstep; reflexivity|].
    by rewrite comma_ok_empty, relock_id.
  - open_nil H σ. unfold Size. eapply eq_trans; [nstep; reflexivity|].
    by rewrite map_size_empty, relock_id.
  - open_nil H σ. unfold Remove. eapply eq_trans.
    { eapply bind_run; [mstep|]; simpl. eapply bind_run; [mstep|]; simpl.
      eapply bind_run; [reflexivity|]; simpl. rewrite comma_ok_empty; simpl.
      nstep. reflexivity. }
    by rewrite relock_id.
  - open_nil H σ. unfold Set_. mpanic. reflexivity.
  - unfold GetOrSet. eapply bind_run; [exact HSearch|]. simpl.
    open_nil H σ. unfold doSetWithLockCheck.
    eapply bind_run; [mstep|]; simpl. unfold defer. apply bind_panic.
    eapply bind_run; [mstep|]; simpl.
    eapply bind_run; [reflexivity|]; simpl. rewrite comma_ok_empty; simpl.
    destruct (assert_func v);
      (eapply bind_run; [reflexivity|]; simpl;
       eapply bind_run; [mstep|]; simpl; apply bind_panic; reflexivity).
  - assert (∃ σ1 l, Clear m σ = Ok tt σ1 ∧ holds σ1 m l ∅) as (σ1 & l & Hrun & H1).
    { open_nil H σ. unfold Clear. eexists _, (fresh (dom hp)). split.
      - nstep. mstep.
      - eexists. simpl. rewrite !lookup_insert_eq.
        exact (conj eq_refl (conj Hi (conj eq_refl eq_refl))). }
    exists σ1, l. split_and!; [done..|].
    eexists. split; [by apply Set_run|].
    erewrite Get_run by by eapply holds_with_heap.
    unfold comma_ok. by rewrite lookup_insert_eq.
  - intros us σ0. eexists _, _. split; [reflexivity|].
    eexists. simpl. rewrite lookup_insert_eq. by repeat split.
Qed.

(** ** Keys and Values *)

(** X10.  [Keys] returns every key of the map exactly once, and [Values]
    the values of the entries, in some order; both have as many elements as
    [Size] says, and neither changes the state. *)
Theorem Keys_Values_spec σ m l s :
  holds σ m l s →
  ∃ ks vs, Keys order m σ = Ok ks σ ∧ Values order m σ = Ok vs σ ∧
    NoDup ks ∧
    (∀ x, x ∈ ks ↔ ∃ k, x = VCmp k ∧ is_Some (s !! k)) ∧
    vs ≡ₚ (map_to_list s).*2 ∧
    Size m σ = Ok (length ks) σ ∧ length vs = length ks.
Proof.
  intros H.
  exists ((λ e, VCmp e.1) <$> order s), (snd <$> order s).
  assert (length (order s) = size s) as Hlen.
  { rewrite (range_perm order s). apply length_map_to_list. }
  split_and!.
  - by eapply Keys_run.
  - by eapply Values_run.
  - apply NoDup_fmap_2_strong.
    + intros [k1 v1] [k2 v2] H1%elem_of_order H2%elem_of_order [= <-].
      simpl in *. congruence.
    + rewrite (range_perm order s). apply NoDup_map_to_list.
  - intros x. rewrite list_elem_of_fmap. split.
    + intros ([k v] & -> & He%elem_of_order). exists k. split; [done|].
      by eexists.
    + intros (k & -> & [v Hv]). exists (k, v). split; [done|].
      by apply elem_of_order.
  - by rewrite (range_perm order s).
  - erewrite Size_run by done. by rewrite length_fmap, Hlen.
  - by rewrite !length_fmap.
Qed.

(** ** Sets and Removes *)

Lemma with_heap_id σ m l s : holds σ m l s → with_heap σ l s = σ.
Proof.
  intros (o & _ & _ & _ & Hl). destruct σ as [mp hp w cs]; simpl in *.
  unfold with_heap; simpl. by rewrite insert_id.
Qed.

Lemma with_heap_twice σ l s s' : with_heap (with_heap σ l s) l s' = with_heap σ l s'.
Proof. unfold with_heap; simpl. by rewrite insert_insert_eq. Qed.

Lemma Set_each_run σ m l s (es : list (comparable * iface W)) :
  holds σ m l s →
  for_each es (λ e, Set_ m (VCmp e.1) e.2) σ
  = Ok tt (with_heap σ l (store_all s es)).
Proof.
  revert σ s. induction es as [|e es IH]; intros σ s H; simpl.
  - by erewrite with_heap_id.
  - eapply bind_run; [by apply Set_run|]. simpl.
    rewrite (IH _ (<[e.1 := e.2]> s)) by by eapply holds_with_heap.
    by rewrite with_heap_twice.
Qed.

(** X11.  [Sets(data)] does, under one lock, what a [Set] of each entry of
    [data] does: both leave the same state, in which every entry of [data]
    is in the map and the other keys are as before. *)
Theorem Sets_is_Set_each σ m l s ld d :
  holds σ m l s → heap σ !! ld = Some d →
  Sets order m (Some ld) σ = for_each (order d) (λ e, Set_ m (VCmp e.1) e.2) σ ∧
  ∃ σ', Sets order m (Some ld) σ = Ok tt σ' ∧
    contents σ' m = Some (d ∪ s) ∧
    (∀ k v, d !! k = Some v → Get m (VCmp k) σ' = Ok v σ') ∧
    (∀ k, d !! k = None → (d ∪ s) !! k = s !! k).
Proof.
  intros H Hd.
  assert (holds (with_heap σ l (d ∪ s)) m l (d ∪ s)) as H'
    by by eapply holds_with_heap.
  split.
  - erewrite Sets_run, Set_each_run by done. by rewrite store_all_order.
  - eexists. split_and!.
    + by eapply Sets_run.
    + by eapply holds_contents.
    + intros k v Hk. erewrite Get_run by done.
      by rewrite (comma_ok_Some _ _ v) by by apply lookup_union_Some_l.
    + intros k Hk. by apply lookup_union_r.
Qed.

Lemma Remove_each_run σ m l s (ks : list comparable) :
  holds σ m l s →
  for_each ks (λ k, Remove m (VCmp k) ≫= λ _, mret tt) σ
  = Ok tt (with_heap σ l (delete_all s ks)).
Proof.
  revert σ s. induction ks as [|k ks IH]; intros σ s H; simpl.
  - by erewrite with_heap_id.
  - eapply bind_run.
    { eapply bind_run; [by eapply Remove_run|reflexivity]. }
    simpl. unfold comma_ok. destruct (s !! k) as [v0|] eqn:Hk; simpl.
    + rewrite (IH _ (delete k s)) by by eapply holds_with_heap.
      by rewrite with_heap_twice.
    + rewrite (IH _ s) by done. unfold delete_all at 2. simpl.
      by rewrite (delete_id s k).
Qed.

(** X12.  After [Removes(keys)] every key of [keys] is absent and every
    other entry is as before; keys that were absent, or that come twice, do
    no harm; and [Removes] leaves the state that a [Remove] of each key in
    turn leaves. *)
Theorem Removes_spec σ m l s (ks : list comparable) :
  holds σ m l s →
  ∃ σ' s', Removes m (VCmp <$> ks) σ = Ok tt σ' ∧
    holds σ' m l s' ∧
    (∀ k, k ∈ ks → s' !! k = None) ∧
    (∀ k, k ∉ ks → s' !! k = s !! k) ∧
    for_each ks (λ k, Remove m (VCmp k) ≫= λ _, mret tt) σ = Ok tt σ'.
Proof.
  intros H. exists (with_heap σ l (delete_all s ks)), (delete_all s ks).
  split_and!.
  - by apply Removes_run.
  - by eapply holds_with_heap.
  - intros k Hin. destruct (delete_all s ks !! k) as [v|] eqn:Hk; [|done].
    by apply delete_all_lookup in Hk as [? _].
  - intros k Hnin. destruct (s !! k) as [v|] eqn:Hk.
    + by apply delete_all_lookup.
    + destruct (delete_all s ks !! k) as [v|] eqn:Hk'; [|done].
      apply delete_all_lookup in Hk' as [_ ?]. congruence.
  - by apply Remove_each_run.
Qed.

(** ** Merge *)

(** X13.  [m.Merge(m)] returns with the state as it was, in both modes: the
    shared lock of [other] is not taken when [other] is [m].  In safe mode,
    taking it after the exclusive lock would block for ever. *)
Theorem Merge_with_itself σ m l s :
  holds σ m l s →
  Merge order m m σ = Ok tt σ ∧
  (safe_mode σ m → (Lock m ≫= λ _, RLock m) σ = Deadlock).
Proof.
  intros H. split.
  - open_holds H σ.
    unfold Merge; simpl. rewrite !decide_False by (intros ?; done).
    eapply eq_trans; [mstep|].
    rewrite store_all_order, relock_id by done.
    rewrite (idemp_L (∪) s). by rewrite insert_id.
  - intros (o' & Hm' & Hu). open_holds H σ.
    rewrite Hm in Hm'. injection Hm' as <-. simpl in Hu.
    eapply bind_run; [mstep|]. simpl.
    unfold RLock. eapply bind_run.
    { unfold load_Map; simpl. by rewrite lookup_insert_eq. }
    simpl. unfold wlocked. by rewrite Hu.
Qed.

(** X14.  [m.Merge(other)] changes nothing in [other] when the two maps
    have each their data object, and merging the same map again changes
    nothing at all. *)
Theorem Merge_again σ m other l s lo so :
  other ≠ m → holds σ m l s → holds σ other lo so →
  ∃ σ', Merge order m other σ = Ok tt σ' ∧
    (lo ≠ l → holds σ' other lo so) ∧
    Merge order m other σ' = Ok tt σ'.
Proof.
  intros Hne H Ho. exists (with_heap σ l (so ∪ s)). split_and!.
  - by eapply Merge_run.
  - intros Hl. by apply (holds_with_heap_ne σ other lo so).
  - assert (holds (with_heap σ l (so ∪ s)) m l (so ∪ s)) as H'
      by by eapply holds_with_heap.
    destruct (decide (lo = l)) as [->|Hl].
    + assert (holds (with_heap σ l (so ∪ s)) other l (so ∪ s)) as Ho'
        by by eapply holds_with_heap.
      erewrite Merge_run by done.
      by rewrite with_heap_twice, (idemp_L (∪) (so ∪ s)).
    + assert (holds (with_heap σ l (so ∪ s)) other lo so) as Ho'
        by by apply (holds_with_heap_ne σ other lo so).
      erewrite Merge_run by done.
      rewrite with_heap_twice, (assoc_L (∪)). by rewrite (idemp_L (∪) so).
Qed.

(** ** Flip *)

(** X15.  [Flip] panics as soon as one value of the map is of a type that
    cannot be hashed, since every value is used as a key. *)
Theorem Flip_unhashable_value σ m l s k v :
  holds σ m l s → s !! k = Some v → hash v = None →
  Flip order m σ = Panic.
Proof.
  intros H Hk Hv. eapply Flip_panics; [done|].
  apply flip_all_None, Exists_exists. exists (k, v). split; [|done].
  by apply elem_of_order.
Qed.

Lemma flip_all_size (es : list (comparable * iface W)) acc n :
  flip_all acc es = Some n → size n ≤ size acc + length es.
Proof.
  revert acc. induction es as [|e es IH]; intros acc Hn; simpl in *.
  - injection Hn as <-. lia.
  - destruct (hash e.2) as [c|]; [|done]. apply IH in Hn.
    rewrite map_size_insert in Hn. destruct (acc !! c); simpl in Hn; lia.
Qed.

(** X16.  [Flip] never makes the map larger, and it keeps the size exactly
    when the values are pairwise distinct. *)
Theorem Flip_size σ m l s σ' :
  holds σ m l s → Flip order m σ = Ok tt σ' →
  ∃ l' n, holds σ' m l' n ∧ Size m σ' = Ok (size n) σ' ∧
    size n ≤ size s ∧ (distinct_values s → size n = size s).
Proof.
  intros H Hrun.
  destruct (flip_all ∅ (order s)) as [n|] eqn:Hn;
    [|by rewrite (Flip_panics σ m l s H Hn) in Hrun].
  rewrite (Flip_run σ m l s n H Hn) in Hrun. injection Hrun as <-.
  assert (holds (with_data σ m (fresh (dom (heap σ))) n) m
            (fresh (dom (heap σ))) n) as H' by by eapply holds_with_data.
  assert (length (order s) = size s) as Hlen.
  { rewrite (range_perm order s). apply length_map_to_list. }
  assert (size n ≤ size s) as Hle.
  { apply flip_all_size in Hn. rewrite map_size_empty in Hn. lia. }
  eexists _, n. split_and!; [done|by eapply Size_run|done|].
  intros Hinj.
  assert (comparable_values s) as Hcmp.
  { intros k v Hk. apply flip_all_Some_hashable in Hn.
    rewrite Forall_forall in Hn. by apply (Hn (k, v)), elem_of_order. }
  destruct (flip_all_twice s Hcmp Hinj) as (n' & Hn' & Hback).
  rewrite Hn in Hn'. injection Hn' as <-.
  apply flip_all_size in Hback. rewrite map_size_empty in Hback.
  assert (length (order n) = size n) as Hlen'.
  { rewrite (range_perm order n). apply length_map_to_list. }
  lia.
Qed.

(** ** The supplier variants *)

Lemma call_then_doSet_value σ m l s c f :
  holds σ m l s → s !! c = None → assert_func (f (world σ)).1 = None →
  (call f ≫= λ x, doSetWithLockCheck m (VCmp c) x) σ
  = Ok (f (world σ)).1
       (with_heap (with_calls σ (f (world σ)).2 [write_locked σ]) l
          (<[c := (f (world σ)).1]> s)).
Proof.
  intros H Hc Hf. eapply bind_run; [reflexivity|].
  apply (doSet_absent_value (with_calls σ (f (world σ)).2 [write_locked σ]));
    [by apply holds_world|done..].
Qed.

Lemma call_then_doSet_func σ m l s c f g :
  holds σ m l s → s !! c = None → (f (world σ)).1 = VFunc g →
  (call f ≫= λ x, doSetWithLockCheck m (VCmp c) x) σ
  = Ok (g (f (world σ)).2).1
       (with_heap (with_calls σ (g (f (world σ)).2).2
                     [write_locked σ; held_with σ m]) l
          (<[c := (g (f (world σ)).2).1]> s)).
Proof.
  intros H Hc Hf. eapply bind_run; [reflexivity|]. simpl. rewrite Hf.
  rewrite (doSet_absent_func (with_calls σ (f (world σ)).2 [write_locked σ]) m l s)
    by (by apply holds_world || done).
  unfold after_call, with_heap, with_calls; simpl.
  by rewrite <-app_assoc.
Qed.

(** X17.  [GetOrSetFunc(k, f)] on a present key returns the value without
    running [f].  On an absent key it runs [f] once, before the exclusive
    lock is taken, and stores and returns the result; but when the result is
    itself of type [func() interface{}] it is run in turn, under the lock,
    and it is its result that is stored and returned. *)
Theorem GetOrSetFunc_spec σ m l s k f :
  holds σ m l s →
  (∀ v0, s !! k = Some v0 → GetOrSetFunc m (VCmp k) f σ = Ok v0 σ) ∧
  (s !! k = None →
   (m ∉ write_locked σ) ∧
   (assert_func (f (world σ)).1 = None →
    GetOrSetFunc m (VCmp k) f σ
    = Ok (f (world σ)).1
         (with_heap (with_calls σ (f (world σ)).2 [write_locked σ]) l
            (<[k := (f (world σ)).1]> s))) ∧
   (∀ g, (f (world σ)).1 = VFunc g →
    GetOrSetFunc m (VCmp k) f σ
    = Ok (g (f (world σ)).2).1
         (with_heap (with_calls σ (g (f (world σ)).2).2
                       [write_locked σ; held_with σ m]) l
            (<[k := (g (f (world σ)).2).1]> s)))).
Proof.
  intros H. split.
  - intros v0 Hk. by eapply GetOrSetFunc_present.
  - intros Hk.
    assert (GetOrSetFunc m (VCmp k) f σ
            = (call f ≫= λ x, doSetWithLockCheck m (VCmp k) x) σ) as ->.
    { unfold GetOrSetFunc. eapply bind_run; [by eapply Search_run|].
      by rewrite (comma_ok_None _ _ Hk). }
    split_and!.
    + by eapply holds_not_write_locked.
    + intros Hf. by apply call_then_doSet_value.
    + intros g Hg. by apply call_then_doSet_func.
Qed.

(** X18.  [SetIfNotExistFunc] and [SetIfNotExistFuncLock] on a present key
    return false without running the supplier and leave the state as it
    was.  On an absent key they return true; [SetIfNotExistFuncLock] runs
    the supplier under the lock and stores its result as it is, while
    [SetIfNotExistFunc] runs it before taking the lock, and runs its result
    in turn when that is of type [func() interface{}]. *)
Theorem SetIfNotExistFunc_spec σ m l s k f :
  holds σ m l s →
  (∀ v0, s !! k = Some v0 →
     SetIfNotExistFunc m (VCmp k) f σ = Ok false σ ∧
     SetIfNotExistFuncLock m (VCmp k) f σ = Ok false σ) ∧
  (s !! k = None →
   SetIfNotExistFuncLock m (VCmp k) f σ
   = Ok true (after_call σ l s k (f (world σ)) (held_with σ m)) ∧
   (assert_func (f (world σ)).1 = None →
    SetIfNotExistFunc m (VCmp k) f σ
    = Ok true (with_heap (with_calls σ (f (world σ)).2 [write_locked σ]) l
                 (<[k := (f (world σ)).1]> s))) ∧
   (∀ g, (f (world σ)).1 = VFunc g →
    SetIfNotExistFunc m (VCmp k) f σ
    = Ok true (with_heap (with_calls σ (g (f (world σ)).2).2
                            [write_locked σ; held_with σ m]) l
                 (<[k := (g (f (world σ)).2).1]> s)))).
Proof.
  intros H. split.
  - intros v0 Hk. split.
    + by eapply SetIfNotExistFunc_present.
    + by eapply SetIfNotExistFuncLock_present.
  - intros Hk.
    assert (SetIfNotExistFunc m (VCmp k) f σ
            = ((call f ≫= λ x, doSetWithLockCheck m (VCmp k) x)
               ≫= λ _, mret true) σ) as ->.
    { unfold SetIfNotExistFunc. eapply bind_run; [by eapply Contains_run|].
      by rewrite (comma_ok_None _ _ Hk). }
    split_and!.
    + by eapply SetIfNotExistFuncLock_absent.
    + intros Hf. eapply bind_run; [by apply call_then_doSet_value|reflexivity].
    + intros g Hg. eapply bind_run; [by apply call_then_doSet_func|reflexivity].
Qed.

(** ** The callbacks on the raw data *)



(** ** Iterator *)

Lemma iterate_run mp hp w cs p g (es : list (comparable * iface W)) :
  iterate es (visitor p g) (mkState mp hp w cs)
  = Ok tt (mkState mp hp
             (foldl (λ w e, g (VCmp e.1) e.2 w) w (visited p es)) cs).
Proof.
  revert w. induction es as [|e es IH]; intros w; simpl; [done|].
  eapply bind_run; [reflexivity|]. simpl.
  destruct (p (VCmp e.1) e.2); simpl; [apply IH|done].
Qed.

Lemma visited_prefix p (es : list (comparable * iface W)) :
  ∃ rest, es = visited p es ++ rest ∧
    (rest ≠ [] → ∃ e, last (visited p es) = Some e ∧ p (VCmp e.1) e.2 = false).
Proof.
  induction es as [|e es (rest & Hes & Hlast)]; simpl.
  - exists []. by split.
  - destruct (p (VCmp e.1) e.2) eqn:Hp.
    + exists rest. split; [simpl; by f_equal|].
      intros Hr. destruct (Hlast Hr) as (e' & He' & Hp').
      exists e'. split; [|done]. simpl.
      destruct (visited p es); [done|]. done.
    + exists es. split; [done|]. intros _. by exists e.
Qed.

(** X20.  [Iterator] calls the callback on the entries of the map in the
    order of the enumeration, under the shared lock, and stops at the first
    entry for which the callback returns false: that entry is visited, the
    ones after it are not.  When the callback never returns false every
    entry is visited once.  The map is left as it was. *)
Theorem Iterator_visits σ m l s p g :
  holds σ m l s →
  ∃ vis rest,
    Iterator order m (visitor p g) σ
    = Ok tt (mkState (maps σ) (heap σ)
               (foldl (λ w e, g (VCmp e.1) e.2 w) (world σ) vis) (calls σ)) ∧
    order s = vis ++ rest ∧
    Forall (λ e, p (VCmp e.1) e.2 = true) (removelast vis) ∧
    (rest ≠ [] → ∃ e, last vis = Some e ∧ p (VCmp e.1) e.2 = false) ∧
    ((∀ k v, s !! k = Some v → p (VCmp k) v = true) → vis ≡ₚ map_to_list s).
Proof.
  intros H. destruct (visited_prefix p (order s)) as (rest & Hes & Hlast).
  exists (visited p (order s)), rest. split_and!.
  - open_holds H σ. unfold Iterator.
    eapply eq_trans.
    { eapply bind_run; [mstep|]. simpl. unfold defer.
      eapply bind_run.
      { eapply bind_run; [mstep|]. simpl. eapply bind_run; [mstep|]. simpl.
        apply iterate_run. }
      simpl. eapply bind_run; [mstep|]. reflexivity. }
    by rewrite relock_id.
  - done.
  - clear. induction (order s) as [|e es IH]; simpl; [constructor|].
    destruct (p (VCmp e.1) e.2) eqn:Hp; [|constructor].
    destruct (visited p es) eqn:Hv; [constructor|].
    constructor; [done|]. exact IH.
  - done.
  - intros Hall.
    assert (Forall (λ e, p (VCmp e.1) e.2 = true) (order s)) as Hf.
    { apply Forall_forall. intros [k v] He%elem_of_order. by apply Hall. }
    assert (visited p (order s) = order s) as ->; [|apply range_perm].
    clear -Hf. induction Hf as [|e es He Hf IH]; simpl; [done|].
    rewrite He. by f_equal.
Qed.

(** ** Maps at rest: a data object or the nil map *)

Lemma order_empty : order (∅ : gomap W) = [].
Proof.
  pose proof (range_perm order ∅) as Hp. rewrite map_to_list_empty in Hp.
  by apply Permutation_nil_r in Hp.
Qed.

Lemma order_nil_size (d : gomap W) : order d = [] ↔ size d = 0%nat.
Proof.
  rewrite <-(length_map_to_list d), <-(range_perm order d).
  by rewrite length_zero_iff_nil.
Qed.

Lemma holds_not_nil σ m l s : holds σ m l s → ¬ holds_nil σ m.
Proof. intros (o & Hm & _ & Hd & _) (o' & Hm' & _ & Hd'). congruence. Qed.

Lemma holds_nil_maps σ σ' m : maps σ' = maps σ → holds_nil σ m → holds_nil σ' m.
Proof. intros Heq (o & Hm & Hi & Hd). exists o. by rewrite Heq. Qed.

Lemma snapshot_nil σ m : holds_nil σ m → snapshot m σ = Ok ∅ σ.
Proof.
  intros H. open_nil H σ. unfold snapshot.
  eapply bind_run; [by apply get_data_run|]. reflexivity.
Qed.

Lemma at_rest_snapshot σ m s : at_rest σ m s → snapshot m σ = Ok s σ.
Proof.
  intros [[l H]|[H ->]]; [by eapply snapshot_run|by apply snapshot_nil].
Qed.

Lemma at_rest_contents σ m s : at_rest σ m s → contents σ m = Some s.
Proof.
  intros [[l H]|[(o & Hm & _ & Hd) ->]]; [by eapply holds_contents|].
  unfold contents. by rewrite Hm, Hd.
Qed.

Lemma Search_nil σ m k :
  holds_nil σ m → Search m (VCmp k) σ = Ok (Nil, false) σ.
Proof.
  intros H. open_nil H σ. unfold Search. eapply eq_trans; [nstep; reflexivity|].
  by rewrite comma_ok_empty, relock_id.
Qed.

Lemma Get_nil σ m k : holds_nil σ m → Get m (VCmp k) σ = Ok Nil σ.
Proof.
  intros H. open_nil H σ. unfold Get. eapply eq_trans; [nstep; reflexivity|].
  by rewrite comma_ok_empty, relock_id.
Qed.

Lemma Contains_nil σ m k : holds_nil σ m → Contains m (VCmp k) σ = Ok false σ.
Proof.
  intros H. open_nil H σ. unfold Contains. eapply eq_trans; [nstep; reflexivity|].
  by rewrite comma_ok_empty, relock_id.
Qed.

Lemma Size_nil σ m : holds_nil σ m → Size m σ = Ok 0%nat σ.
Proof.
  intros H. open_nil H σ. unfold Size. eapply eq_trans; [nstep; reflexivity|].
  by rewrite map_size_empty, relock_id.
Qed.

Lemma IsEmpty_nil σ m : holds_nil σ m → IsEmpty m σ = Ok true σ.
Proof.
  intros H. open_nil H σ. unfold IsEmpty. eapply eq_trans; [nstep; reflexivity|].
  by rewrite map_size_empty, relock_id.
Qed.

Lemma Remove_nil σ m k : holds_nil σ m → Remove m (VCmp k) σ = Ok Nil σ.
Proof.
  intros H. open_nil H σ. unfold Remove. eapply eq_trans.
  { eapply bind_run; [mstep|]; simpl. eapply bind_run; [mstep|]; simpl.
    eapply bind_run; [reflexivity|]; simpl. rewrite comma_ok_empty; simpl.
    nstep. reflexivity. }
  by rewrite relock_id.
Qed.

Lemma delete_nil_loop mp hp w cs m lk (ks : list comparable) :
  mp !! m = Some (mkMap lk None) →
  for_each (VCmp <$> ks) (λ key, d ← get_data m; map_delete d key)
    (mkState mp hp w cs)
  = Ok tt (mkState (W:=W) mp hp w cs).
Proof.
  intros Hm. induction ks as [|k ks IH]; simpl; [done|].
  eapply bind_run; [|exact IH].
  eapply bind_run; [by apply get_data_run|]. reflexivity.
Qed.

Lemma Removes_nil σ m (ks : list comparable) :
  holds_nil σ m → Removes m (VCmp <$> ks) σ = Ok tt σ.
Proof.
  intros H. open_nil H σ. unfold Removes. eapply eq_trans.
  { eapply bind_run; [mstep|]; simpl.
    eapply bind_run; [eapply delete_nil_loop; apply lookup_insert_eq|]; simpl.
    mstep. }
  by rewrite relock_id.
Qed.

Lemma store_nil_loop mp hp w cs m lk (es : list (comparable * iface W)) :
  mp !! m = Some (mkMap lk None) →
  for_each es (λ e, d ← get_data m; map_store d (VCmp e.1) e.2)
    (mkState mp hp w cs)
  = if (length es =? 0)%nat then Ok tt (mkState mp hp w cs) else Panic.
Proof.
  intros Hm. destruct es as [|e es]; simpl; [done|].
  apply bind_panic. eapply bind_run; [by apply get_data_run|]. reflexivity.
Qed.

Lemma length_order (d : gomap W) : length (order d) = size d.
Proof. rewrite (range_perm order d). apply length_map_to_list. Qed.

Lemma Set_nil σ m k v : holds_nil σ m → Set_ m (VCmp k) v σ = Panic.
Proof. intros H. open_nil H σ. unfold Set_. mpanic. reflexivity. Qed.

Lemma doSet_nil σ m k v :
  holds_nil σ m → doSetWithLockCheck m (VCmp k) v σ = Panic.
Proof.
  intros H. open_nil H σ. unfold doSetWithLockCheck.
  eapply bind_run; [mstep|]; simpl. unfold defer. apply bind_panic.
  eapply bind_run; [mstep|]; simpl.
  eapply bind_run; [reflexivity|]; simpl. rewrite comma_ok_empty; simpl.
  destruct (assert_func v);
    (eapply bind_run; [reflexivity|]; simpl;
     eapply bind_run; [mstep|]; simpl; apply bind_panic; reflexivity).
Qed.

Lemma Clear_nil σ m :
  holds_nil σ m → ∃ σ' l, Clear m σ = Ok tt σ' ∧ holds σ' m l ∅.
Proof.
  intros H. open_nil H σ. unfold Clear. eexists _, (fresh (dom hp)). split.
  - nstep. mstep.
  - eexists. simpl. rewrite !lookup_insert_eq.
    exact (conj eq_refl (conj Hi (conj eq_refl eq_refl))).
Qed.

Lemma Flip_nil σ m :
  holds_nil σ m → ∃ σ' l, Flip order m σ = Ok tt σ' ∧ holds σ' m l ∅.
Proof.
  intros H. open_nil H σ. unfold Flip. eexists _, (fresh (dom hp)). split.
  - eapply bind_run; [mstep|]; simpl. unfold defer.
    eapply bind_run.
    { eapply bind_run; [mstep|]; simpl.
      eapply bind_run; [reflexivity|]; simpl.
      eapply bind_run; [reflexivity|]; simpl.
      eapply bind_run; [mstep|]; simpl.
      eapply bind_run; [reflexivity|]; simpl.
      rewrite order_empty; simpl.
      eapply bind_run; [reflexivity|]; simpl. mstep. }
    simpl. eapply bind_run; [mstep|]. reflexivity.
  - eexists. simpl. rewrite !lookup_insert_eq.
    exact (conj eq_refl (conj Hi (conj eq_refl eq_refl))).
Qed.

Lemma Sets_nil σ m ld (d : gomap W) :
  holds_nil σ m → heap σ !! ld = Some d →
  Sets order m (Some ld) σ = if (size d =? 0)%nat then Ok tt σ else Panic.
Proof.
  intros H Hld. open_nil H σ. unfold Sets. rewrite <-length_order.
  eapply bind_run; [mstep|]; simpl.
  eapply bind_run; [mstep|]; simpl.
  unfold mbind at 1, M_bind at 1.
  erewrite store_nil_loop by apply lookup_insert_eq.
  destruct (length (order d) =? 0)%nat; [|done].
  eapply eq_trans; [mstep|]. by rewrite relock_id.
Qed.

Lemma Merge_nil σ m other lo (d : gomap W) :
  other ≠ m → holds_nil σ m → holds σ other lo d →
  Merge order m other σ = if (size d =? 0)%nat then Ok tt σ else Panic.
Proof.
  intros Hne H Ho. open_nil H σ. open_holds Ho σ.
  unfold Merge. rewrite !decide_True by done. rewrite <-length_order.
  eapply bind_run; [mstep|]; simpl. unfold defer.
  unfold mbind at 1, M_bind at 1.
  erewrite (bind_run (RLock other)); [|mstep|reflexivity]. simpl.
  unfold mbind at 1, M_bind at 1.
  erewrite (bind_run (get_data other)); [|mstep|reflexivity]. simpl.
  erewrite (bind_run (map_range order (Some lo))); [|mstep|reflexivity]. simpl.
  erewrite store_nil_loop
    by (rewrite lookup_insert_ne by done; apply lookup_insert_eq).
  destruct (length (order d) =? 0)%nat; [|done].
  eapply eq_trans.
  { eapply bind_run; [mstep|]; simpl. eapply bind_run; [mstep|]. reflexivity. }
  by rewrite unlock2_id.
Qed.

Lemma Merge_self_nil σ m : holds_nil σ m → Merge order m m σ = Ok tt σ.
Proof.
  intros H. open_nil H σ.
  unfold Merge. rewrite !decide_False by (intros ?; done).
  eapply eq_trans.
  { eapply bind_run; [mstep|]; simpl. unfold defer.
    eapply bind_run.
    { eapply bind_run; [reflexivity|]; simpl.
      eapply bind_run.
      { eapply bind_run; [mstep|]; simpl.
        eapply bind_run; [reflexivity|]; simpl.
        rewrite order_empty. reflexivity. }
      simpl. reflexivity. }
    simpl. eapply bind_run; [mstep|]. reflexivity. }
  by rewrite relock_id.
Qed.

(** On a map with the nil map for data the operations that assign into the
    data panic; the others return, [Clear] and [Flip] with a new, empty data
    object, the rest with the map as it was. *)
Lemma exec_step_nil σ m (o : op W) :
  holds_nil σ m →
  (needs_data o = true ∧ exec order m o σ = Panic) ∨
  (needs_data o = false ∧
   ∃ σ', exec order m o σ = Ok tt σ' ∧
     if gives_data o then ∃ l, holds σ' m l ∅ else holds_nil σ' m).
Proof.
  intros H.
  destruct o as [k v|d|k|k|k| | |k v|k f|k f|k v|k f|k f|k|ks| | |d| ]; simpl.
  - (* Set *) left. split; [done|by apply Set_nil].
  - (* Sets *)
    assert (holds_nil (with_heap σ (fresh (dom (heap σ))) d) m) as H1
      by by eapply holds_nil_maps.
    pose proof (Sets_nil _ m (fresh (dom (heap σ))) d H1
                  (lookup_insert_eq _ _ _)) as Hrun.
    destruct (size d =? 0)%nat; [right|left]; (split; [done|]).
    + eexists. split; [|exact H1]. eapply bind_run; [reflexivity|exact Hrun].
    + eapply bind_run; [reflexivity|exact Hrun].
  - (* Get *) right. split; [done|]. exists σ. split; [|done].
    eapply bind_run; [by apply Get_nil|reflexivity].
  - (* Search *) right. split; [done|]. exists σ. split; [|done].
    eapply bind_run; [by apply Search_nil|reflexivity].
  - (* Contains *) right. split; [done|]. exists σ. split; [|done].
    eapply bind_run; [by apply Contains_nil|reflexivity].
  - (* Size *) right. split; [done|]. exists σ. split; [|done].
    eapply bind_run; [by apply Size_nil|reflexivity].
  - (* IsEmpty *) right. split; [done|]. exists σ. split; [|done].
    eapply bind_run; [by apply IsEmpty_nil|reflexivity].
  - (* GetOrSet *) left. split; [done|]. apply bind_panic. unfold GetOrSet.
    eapply bind_run; [by apply Search_nil|]. simpl. by apply doSet_nil.
  - (* GetOrSetFunc *) left. split; [done|]. apply bind_panic.
    unfold GetOrSetFunc. eapply bind_run; [by apply Search_nil|]. simpl.
    eapply bind_run; [reflexivity|]. apply doSet_nil.
    by eapply holds_nil_maps.
  - (* GetOrSetFuncLock *) left. split; [done|]. apply bind_panic.
    unfold GetOrSetFuncLock. eapply bind_run; [by apply Search_nil|]. simpl.
    by apply doSet_nil.
  - (* SetIfNotExist *) left. split; [done|]. apply bind_panic.
    unfold SetIfNotExist. eapply bind_run; [by apply Contains_nil|]. simpl.
    apply bind_panic. by apply doSet_nil.
  - (* SetIfNotExistFunc *) left. split; [done|]. apply bind_panic.
    unfold SetIfNotExistFunc. eapply bind_run; [by apply Contains_nil|]. simpl.
    apply bind_panic. eapply bind_run; [reflexivity|]. apply doSet_nil.
    by eapply holds_nil_maps.
  - (* SetIfNotExistFuncLock *) left. split; [done|]. apply bind_panic.
    unfold SetIfNotExistFuncLock. eapply bind_run; [by apply Contains_nil|].
    simpl. apply bind_panic. by apply doSet_nil.
  - (* Remove *) right. split; [done|]. exists σ. split; [|done].
    eapply bind_run; [by apply Remove_nil|reflexivity].
  - (* Removes *) right. split; [done|]. exists σ. split; [|done].
    by apply Removes_nil.
  - (* Clear *) right. split; [done|].
    destruct (Clear_nil σ m H) as (σ' & l & Hrun & H'). exists σ'.
    split; [done|by exists l].
  - (* Flip *) right. split; [done|].
    destruct (Flip_nil σ m H) as (σ' & l & Hrun & H'). exists σ'.
    split; [done|by exists l].
  - (* Merge *)
    set (σ1 := with_heap σ (fresh (dom (heap σ))) d).
    set (σ2 := mkState (<[fresh (dom (maps σ1)) :=
                          mkMap (rwmutex_New []) (Some (fresh (dom (heap σ))))]>
                          (maps σ1)) (heap σ1) (world σ1) (calls σ1)).
    assert (fresh (dom (maps σ)) ≠ m) as Hnem.
    { destruct H as (? & Hm & _). intros Heq.
      apply (is_fresh (dom (maps σ))). rewrite Heq. apply elem_of_dom.
      by eexists. }
    assert (holds_nil σ2 m) as H2.
    { destruct H as (o & Hm & Hi & Hd). exists o. simpl.
      by rewrite lookup_insert_ne. }
    assert (holds σ2 (fresh (dom (maps σ))) (fresh (dom (heap σ))) d) as Ho.
    { apply (holds_new σ1). simpl. by rewrite lookup_insert_eq. }
    pose proof (Merge_nil σ2 m _ _ d Hnem H2 Ho) as Hrun.
    destruct (size d =? 0)%nat; [right|left]; (split; [done|]).
    + exists σ2. split; [|exact H2].
      eapply bind_run; [reflexivity|]. eapply bind_run; [reflexivity|].
      exact Hrun.
    + eapply bind_run; [reflexivity|]. eapply bind_run; [reflexivity|].
      exact Hrun.
  - (* Merge with itself *) right. split; [done|]. exists σ. split; [|done].
    by apply Merge_self_nil.
Qed.

Lemma needs_data_stored (o : op W) k :
  needs_data o = false → ¬ stored_by (o, ∅) k.
Proof.
  assert (∀ d : gomap W, negb (size d =? 0)%nat = false → ¬ is_Some (d !! k))
    as Hd.
  { intros d Hs [v Hv]. apply negb_false_iff, Nat.eqb_eq in Hs.
    apply map_size_empty_iff in Hs. subst d. by rewrite lookup_empty in Hv. }
  unfold stored_by, stored_by_setter.
  destruct o as [k' v|d|k'|k'|k'| | |k' v|k' f|k' f|k' v|k' f|k' f|k'|ks| | |d| ];
    simpl; try done; try tauto.
  - apply Hd.
  - intros _ [k0 Hk0]. by rewrite lookup_empty in Hk0.
  - apply Hd.
Qed.

Lemma needs_gives (o : op W) : needs_data o = true → gives_data o = false.
Proof. by destruct o. Qed.

Lemma flip_all_None_inv (es : list (comparable * iface W)) acc :
  flip_all acc es = None → Exists (λ e, hash e.2 = None) es.
Proof.
  revert acc. induction es as [|e es IH]; intros acc Hn; simpl in *; [done|].
  destruct (hash e.2) eqn:He; [|by left]. right. by eapply IH.
Qed.

Lemma flip_all_None_iff (s : gomap W) :
  flip_all ∅ (order s) = None ↔ ∃ k v, s !! k = Some v ∧ hash v = None.
Proof.
  split.
  - intros (e & He & Hh)%flip_all_None_inv%Exists_exists.
    exists e.1, e.2. split; [by apply elem_of_order|done].
  - intros (k & v & Hk & Hh). apply flip_all_None, Exists_exists.
    exists (k, v). split; [by apply elem_of_order|done].
Qed.

(** An operation on a map at rest: it panics when it is a [Flip] of a map
    with a value that cannot be hashed, or assigns into the nil map;
    otherwise it runs to its end and leaves the map at rest, with under each
    key what the operation stored or what was there and was not removed. *)
Lemma exec_step_rest σ m s (o : op W) :
  at_rest σ m s →
  (exec order m o σ = Panic ∧
   ((o = OFlip ∧ flip_all ∅ (order s) = None) ∨
    (holds_nil σ m ∧ needs_data o = true))) ∨
  (∃ σ' s', exec order m o σ = Ok tt σ' ∧ at_rest σ' m s' ∧
     ∀ k, is_Some (s' !! k) ↔
          stored_by (o, s) k ∨ (is_Some (s !! k) ∧ ¬ removed_by (o, s) k)).
Proof.
  intros [[l H]|[H ->]].
  - destruct (exec_step σ m l s o H)
      as [(-> & Hn & Hp)|(σ' & l' & s' & Hrun & H' & Hk)].
    + left. split; [done|]. by left.
    + right. exists σ', s'. split_and!; [done| |done]. left. by exists l'.
  - destruct (exec_step_nil σ m o H) as [[Hn Hp]|[Hn (σ' & Hrun & H')]].
    + left. split; [done|]. by right.
    + right. exists σ', ∅. split_and!; [done| |].
      * destruct (gives_data o); [left; exact H'|right; by split].
      * intros k. rewrite lookup_empty. split; [by intros [? ?]|].
        intros [Hst|[[? ?] _]]; [|done]. by apply needs_data_stored in Hst.
Qed.

(** ** Histories *)

(** Along a run, a key is in the map at the end exactly when it was there at
    the start and nothing removed it, or something stored under it and
    nothing removed it afterwards. *)
Lemma run_ops_history (ops : list (op W)) σ m s h σ' :
  at_rest σ m s → run_ops order m ops σ = Ok h σ' →
  h.*1 = ops ∧
  ∃ s', at_rest σ' m s' ∧
    ∀ k, is_Some (s' !! k) ↔
      (is_Some (s !! k) ∧ Forall (λ e, ¬ removed_by e k) h) ∨
      (∃ pre e post, h = pre ++ e :: post ∧ stored_by e k ∧
                     Forall (λ e', ¬ removed_by e' k) post).
Proof.
  revert σ s h. induction ops as [|o ops IH]; intros σ s h H Hrun.
  - injection Hrun as <- <-. split; [done|]. exists s. split; [done|].
    intros k. split.
    + intros Hk. left. split; [done|constructor].
    + intros [[? _]|(pre & e & post & Hh & _)]; [done|].
      by destruct pre.
  - simpl in Hrun.
    apply bind_Ok_inv in Hrun as (s0 & σ0 & Hsnap & Hrun).
    rewrite (at_rest_snapshot _ _ _ H) in Hsnap. injection Hsnap as <- <-.
    apply bind_Ok_inv in Hrun as ([] & σ1 & Hexec & Hrun).
    apply bind_Ok_inv in Hrun as (h' & σ2 & Hrest & Hret).
    injection Hret as <- <-.
    destruct (exec_step_rest σ m s o H) as [[Hp _]|(σ1' & s1 & Hex & H1 & Hstep)];
      [congruence|].
    rewrite Hex in Hexec. injection Hexec as ->.
    destruct (IH σ1 s1 h' H1 Hrest) as (Hops & s' & H' & Hdom).
    split; [simpl; by f_equal|].
    exists s'. split; [done|]. intros k. rewrite Hdom, Hstep. split.
    + intros [[[Hst|[Hk Hnr]] Hall]|(pre & e & post & -> & Hst & Hall)].
      * right. by exists [], (o, s), h'.
      * left. split; [done|]. by constructor.
      * right. by exists ((o, s) :: pre), e, post.
    + intros [[Hk Hall]|(pre & e & post & Hh & Hst & Hall)].
      * apply Forall_cons in Hall as [Hnr Hall]. left. split; [|done].
        right. by split.
      * destruct pre as [|e0 pre]; simpl in Hh; injection Hh as <- ->.
        -- left. split; [by left|done].
        -- right. by exists pre, e, post.
Qed.

(** A run on a map with the nil map for data, and without [Flip], ends
    unless an operation assigns into the data before a [Clear] has replaced
    it. *)
Lemma run_ops_nil_total (ops : list (op W)) σ m :
  holds_nil σ m → OFlip ∉ ops →
  if stores_before_data ops then run_ops order m ops σ = Panic
  else ∃ h σ', run_ops order m ops σ = Ok h σ'.
Proof.
  revert σ. induction ops as [|o ops IH]; intros σ H Hnf; simpl.
  - by eexists _, _.
  - apply not_elem_of_cons in Hnf as [Hne Hnf].
    destruct (exec_step_nil σ m o H) as [[Hn Hp]|[Hn (σ1 & Hex & H1)]].
    + rewrite (needs_gives _ Hn), Hn. simpl.
      eapply bind_run; [by apply snapshot_nil|]. by apply bind_panic.
    + rewrite Hn. simpl. destruct (gives_data o).
      * destruct H1 as [l H1].
        destruct (run_ops_total ops σ1 m l ∅ H1 Hnf) as (h' & σ' & Hrest).
        eexists _, _. eapply bind_run; [by apply snapshot_nil|].
        eapply bind_run; [exact Hex|].
        eapply bind_run; [exact Hrest|reflexivity].
      * specialize (IH σ1 H1 Hnf). destruct (stores_before_data ops).
        -- eapply bind_run; [by apply snapshot_nil|].
           eapply bind_run; [exact Hex|]. by apply bind_panic.
        -- destruct IH as (h' & σ' & Hrest).
           eexists _, _. eapply bind_run; [by apply snapshot_nil|].
           eapply bind_run; [exact Hex|].
           eapply bind_run; [exact Hrest|reflexivity].
Qed.

(** A run on a map at rest never blocks. *)
Lemma run_ops_no_deadlock (ops : list (op W)) σ m s :
  at_rest σ m s → run_ops order m ops σ ≠ Deadlock.
Proof.
  revert σ s. induction ops as [|o ops IH]; intros σ s H; simpl; [done|].
  erewrite bind_run; [|by apply at_rest_snapshot|reflexivity].
  destruct (exec_step_rest σ m s o H) as [[Hp _]|(σ1 & s1 & Hex & H1 & _)].
  - by rewrite (bind_panic _ _ _ Hp).
  - erewrite bind_run; [|exact Hex|reflexivity].
    specialize (IH σ1 s1 H1). unfold mbind, M_bind.
    by destruct (run_ops order m ops σ1).
Qed.

Lemma run_ops_app_panic (pre post : list (op W)) σ m h σ1 :
  run_ops order m pre σ = Ok h σ1 → run_ops order m post σ1 = Panic →
  run_ops order m (pre ++ post) σ = Panic.
Proof.
  revert σ h. induction pre as [|o pre IH]; intros σ h Hpre Hpost; simpl in *.
  - by injection Hpre as <- <-.
  - apply bind_Ok_inv in Hpre as (s0 & σ0 & Hsnap & Hpre).
    apply bind_Ok_inv in Hpre as ([] & σ2 & Hexec & Hpre).
    apply bind_Ok_inv in Hpre as (h' & σ3 & Hrest & Hret).
    injection Hret as <- <-.
    eapply bind_run; [exact Hsnap|]. eapply bind_run; [exact Hexec|].
    apply bind_panic. by eapply IH.
Qed.

Lemma Contains_at_rest σ m s k :
  at_rest σ m s → Contains m (VCmp k) σ = Ok (comma_ok s k).2 σ.
Proof.
  intros [[l H]|[H ->]]; [by eapply Contains_run|].
  rewrite comma_ok_empty. by apply Contains_nil.
Qed.

Lemma Flip_at_rest_panics σ m s k v :
  at_rest σ m s → s !! k = Some v → hash v = None → Flip order m σ = Panic.
Proof.
  intros [[l H]|[_ ->]] Hk Hv; [|by rewrite lookup_empty in Hk].
  eapply Flip_panics; [done|]. apply flip_all_None_iff. by exists k, v.
Qed.

(** ** Presence along a run *)

(** C8, as the code has it.  Take a map made by [New], by [NewFrom] of a
    new map object or of nil, or by [NewFromArray], and run on it any
    sequence of the operations [Set], [Sets], [Get], [Search], [Contains],
    [Size], [IsEmpty], the [GetOrSet] and [SetIfNotExist] families,
    [Remove], [Removes], [Clear], [Flip] and [Merge], on keys that can be
    hashed and with closures that return without using the map.  If the run
    ends, a key is present at the end if and only if something stored a
    value under it, the making of the map, one of the setters, or a [Flip]
    of a map that held the key as a value, and nothing after that removed
    it, [Remove] or [Removes] of that key, or any [Flip] or [Clear].  No run
    blocks.  A run without [Flip] ends, unless the map was made by
    [NewFrom(nil)] and an operation that assigns into the data, [Set], a
    method of the [GetOrSet] or [SetIfNotExist] families, or [Sets] or
    [Merge] of a map that is not empty, comes before any [Clear]: that run
    panics.  And a run panics at a [Flip] of a map that holds a value that
    cannot be hashed. *)
Theorem presence_history (ct : ctor W) us (ops : list (op W)) σ k :
  (∀ m h σ', run order ct us ops σ = Ok (m, h) σ' →
     h.*1 = ops ∧
     (Contains m (VCmp k) σ' = Ok true σ' ↔ set_and_kept stored_by ct h k)) ∧
  run order ct us ops σ ≠ Deadlock ∧
  (OFlip ∉ ops →
     if nil_ctor ct && stores_before_data ops
     then run order ct us ops σ = Panic
     else ∃ m h σ', run order ct us ops σ = Ok (m, h) σ') ∧
  (∀ pre post m h σ1 s k0 v,
     ops = pre ++ OFlip :: post →
     run order ct us pre σ = Ok (m, h) σ1 →
     contents σ1 m = Some s → s !! k0 = Some v → hash v = None →
     run order ct us ops σ = Panic).
Proof.
  destruct (construct_at_rest ct us σ) as (m0 & σ0 & s0 & Hct & H0 & Hnil & Hdom0).
  split_and!.
  - intros m h σ' Hrun. unfold run in Hrun.
    apply bind_Ok_inv in Hrun as (m' & σ1' & Hct' & Hrun).
    rewrite Hct in Hct'. injection Hct' as <- <-.
    apply bind_Ok_inv in Hrun as (h' & σ2 & Hrun & Hret).
    injection Hret as <- <- <-.
    destruct (run_ops_history ops σ0 m0 s0 h' σ2 H0 Hrun)
      as (Hops & s' & H' & Hdom).
    split; [done|].
    rewrite (Contains_at_rest _ _ _ k H'). unfold set_and_kept.
    rewrite <-Hdom0, <-Hdom. unfold comma_ok. destruct (s' !! k); simpl.
    + split; [by eexists|done].
    + split; [done|]. by intros [? ?].
  - unfold run. erewrite bind_run; [|exact Hct|reflexivity].
    pose proof (run_ops_no_deadlock ops σ0 m0 s0 H0) as Hnd.
    unfold mbind, M_bind. by destruct (run_ops order m0 ops σ0).
  - intros Hnf. unfold run. destruct (nil_ctor ct); simpl.
    + pose proof (run_ops_nil_total ops σ0 m0 Hnil Hnf) as Ht.
      destruct (stores_before_data ops).
      * eapply bind_run; [exact Hct|]. by apply bind_panic.
      * destruct Ht as (h & σ' & Hrun). exists m0, h, σ'.
        eapply bind_run; [exact Hct|].
        eapply bind_run; [exact Hrun|reflexivity].
    + destruct Hnil as [l Hl].
      destruct (run_ops_total ops σ0 m0 l s0 Hl Hnf) as (h & σ' & Hrun).
      exists m0, h, σ'. eapply bind_run; [exact Hct|].
      eapply bind_run; [exact Hrun|reflexivity].
  - intros pre post m h σ1 s k0 v -> Hrun Hs Hk0 Hv. unfold run in *.
    apply bind_Ok_inv in Hrun as (m' & σ0' & Hct' & Hrun).
    rewrite Hct in Hct'. injection Hct' as <- <-.
    apply bind_Ok_inv in Hrun as (h' & σ2 & Hrun & Hret).
    injection Hret as <- <- <-.
    destruct (run_ops_history pre σ0 m0 s0 h' σ2 H0 Hrun) as (_ & s' & H' & _).
    rewrite (at_rest_contents _ _ _ H') in Hs. injection Hs as ->.
    eapply bind_run; [exact Hct|]. apply bind_panic.
    eapply run_ops_app_panic; [exact Hrun|]. simpl.
    eapply bind_run; [by apply at_rest_snapshot|]. apply bind_panic.
    by eapply Flip_at_rest_panics.
Qed.

(** ** The lock discipline *)

(** X21.  Take a map that nobody has locked, its data a map object or the
    nil map, and one of [Set], [Sets], [Get], [Search], [Contains], [Size],
    [IsEmpty], the [GetOrSet] and [SetIfNotExist] families, [Remove],
    [Removes], [Clear], [Flip] and [Merge], called on keys that can be
    hashed and with closures that return without using the map.  The call
    does not block.  It panics in two cases and in no other: it is a [Flip]
    and the map holds a value that cannot be hashed, or the data is the nil
    map and the method assigns into it, which [Set] and the [GetOrSet] and
    [SetIfNotExist] families do, and [Sets] and [Merge] of a map that is not
    empty.  Otherwise it returns and the map is unlocked again, its data a
    map object or the nil map. *)
Theorem methods_release_the_lock σ m s (o : op W) :
  at_rest σ m s →
  exec order m o σ ≠ Deadlock ∧
  (exec order m o σ = Panic ↔
     (o = OFlip ∧ ∃ k v, s !! k = Some v ∧ hash v = None) ∨
     (holds_nil σ m ∧ needs_data o = true)) ∧
  (∀ σ', exec order m o σ = Ok tt σ' → ∃ s', at_rest σ' m s').
Proof.
  intros H.
  destruct (exec_step_rest σ m s o H)
    as [[Hp Hwhy]|(σ1 & s1 & Hex & H1 & _)].
  - split_and!; [congruence| |congruence].
    split; [intros _|done].
    destruct Hwhy as [[-> Hn]|Hn]; [left|by right].
    split; [done|]. by apply flip_all_None_iff.
  - split_and!; [congruence| |].
    + split; [congruence|].
      intros [[-> (k & v & Hk & Hv)]|[Hn Hneeds]].
      * simpl. by eapply Flip_at_rest_panics.
      * destruct (exec_step_nil σ m o Hn) as [[_ Hp]|[Hf _]]; [done|congruence].
    + intros σ' Hrun. rewrite Hex in Hrun. injection Hrun as <-. by exists s1.
Qed.

End GmapTheory.

(** * The theorems at work on the concrete program *)

Lemma holds_state_of u s : holds (state_of u s) m1 l1 s.
Proof.
  exists (map_of u). unfold state_of; simpl. by rewrite !lookup_singleton_eq.
Qed.

Lemma GetOrSet_spec_witness :
  holds (state_of false {[ CInt 1 := VInt 10 ]}) m1 l1 {[ CInt 1 := VInt 10 ]} ∧
  GetOrSet m1 (VInt 1) (VInt 5) (state_of false {[ CInt 1 := VInt 10 ]})
  = Ok (VInt 10) (state_of false {[ CInt 1 := VInt 10 ]}).
Proof.
  split.
  - exists (map_of false). repeat split; reflexivity.
  - apply (GetOrSet_spec (state_of false {[ CInt 1 := VInt 10 ]}) m1 l1
             {[ CInt 1 := VInt 10 ]} (CInt 1) (VInt 5)).
    + exists (map_of false). repeat split; reflexivity.
    + reflexivity.
Defined.

(** C1, as it is worded, fails when the value is a closure: on the empty map,
    [GetOrSet(1, seven)] returns and stores [7], not the closure. *)
Lemma GetOrSet_stores_argument_fails :
  ¬ GetOrSet_stores_argument (state_of false ∅) m1 l1 ∅ (CInt 1) (VFunc seven).
Proof.
  intros Hc. destruct (Hc (holds_state_of false ∅)) as [_ Habs].
  destruct (Habs eq_refl) as (σ' & Hrun & _).
  vm_compute in Hrun. discriminate Hrun.
Qed.

Lemma SetIfNotExist_spec_witness :
  holds (state_of false {[ CInt 1 := VInt 10 ]}) m1 l1 {[ CInt 1 := VInt 10 ]} ∧
  SetIfNotExist m1 (VInt 1) (VInt 5) (state_of false {[ CInt 1 := VInt 10 ]})
  = Ok false (state_of false {[ CInt 1 := VInt 10 ]}) ∧
  SetIfNotExist m1 (VInt 2) (VInt 5) (state_of false {[ CInt 1 := VInt 10 ]})
  = Ok true (with_heap (state_of false {[ CInt 1 := VInt 10 ]}) l1
               (<[CInt 2 := VInt 5]> {[ CInt 1 := VInt 10 ]})).
Proof.
  assert (holds (state_of false {[ CInt 1 := VInt 10 ]}) m1 l1
            {[ CInt 1 := VInt 10 ]}) as Hh.
  { exists (map_of false). repeat split; reflexivity. }
  split; [exact Hh|split].
  - destruct (SetIfNotExist_spec _ m1 l1 _ (CInt 1) (VInt 5) Hh) as (_ & _ & Hp).
    apply (Hp (VInt 10)). reflexivity.
  - destruct (SetIfNotExist_spec _ m1 l1 _ (CInt 2) (VInt 5) Hh) as (Ha & _ & _).
    apply Ha; reflexivity.
Defined.

(** C2, as it is worded, fails when the value is a closure: on the empty map,
    [SetIfNotExist(1, seven)] stores [7], not the closure. *)
Lemma SetIfNotExist_stores_argument_fails :
  ¬ SetIfNotExist_stores_argument (state_of false ∅) m1 l1 ∅ (CInt 1) (VFunc seven).
Proof.
  intros Hc. destruct (Hc (holds_state_of false ∅)) as [Habs _].
  destruct (Habs eq_refl) as (σ' & Hrun & Hcont).
  vm_compute in Hrun. injection Hrun as <-.
  apply (f_equal (λ o, o ≫= (.!! CInt 1))) in Hcont.
  vm_compute in Hcont. discriminate Hcont.
Qed.

Lemma func_value_is_run_witness :
  holds (state_of false ∅) m1 l1 ∅ ∧
  (∅ : gomap nat) !! CInt 1 = None ∧
  GetOrSet m1 (VInt 1) (VFunc seven) (state_of false ∅)
  = Ok (VInt 7) (after_call (state_of false ∅) l1 ∅ (CInt 1) (VInt 7, 1)
                   (held_with (state_of false ∅) m1)) ∧
  calls (after_call (state_of false ∅) l1 ∅ (CInt 1) (VInt 7, 1)
           (held_with (state_of false ∅) m1))
  = [held_with (state_of false ∅) m1].
Proof.
  split; [|split; [|split]].
  - exists (map_of false). repeat split; reflexivity.
  - reflexivity.
  - refine (proj1 (func_value_is_run (state_of false ∅) m1 l1 ∅ (CInt 1) seven
                     _ eq_refl)).
    exists (map_of false). repeat split; reflexivity.
  - refine (proj2 (proj2 (proj2 (proj2
             (func_value_is_run (state_of false ∅) m1 l1 ∅ (CInt 1) seven
                _ eq_refl))))).
    exists (map_of false). repeat split; reflexivity.
Defined.

(** C9, as it is worded, fails for a closure that returns a closure: on the
    empty map, [GetOrSet(1, make_seven)] leaves the closure [seven] under
    key [1]. *)
Lemma never_stores_func_fails :
  ¬ never_stores_func (state_of false ∅) m1 l1 ∅ (CInt 1) make_seven.
Proof.
  intros Hc. destruct (Hc (holds_state_of false ∅) eq_refl) as [HG _].
  specialize (HG (VFunc seven)
                 (after_call (state_of false ∅) l1 ∅ (CInt 1) (VFunc seven, 1)
                    (held_with (state_of false ∅) m1))
                 {[ CInt 1 := VFunc seven ]} (VFunc seven)).
  discriminate HG; reflexivity.
Qed.


Lemma Get_Search_absent_witness :
  holds (state_of false {[ CInt 1 := Nil ]}) m1 l1 {[ CInt 1 := Nil ]} ∧
  Get m1 (VInt 2) (state_of false {[ CInt 1 := Nil ]})
  = Ok Nil (state_of false {[ CInt 1 := Nil ]}) ∧
  Get m1 (VInt 1) (state_of false {[ CInt 1 := Nil ]})
  = Ok Nil (state_of false {[ CInt 1 := Nil ]}).
Proof.
  assert (holds (state_of false {[ CInt 1 := Nil ]}) m1 l1 {[ CInt 1 := Nil ]})
    as Hh.
  { exists (map_of false). repeat split; reflexivity. }
  destruct (Get_Search_absent _ m1 l1 _ Hh) as (Ha & Hn & _).
  split; [exact Hh|split].
  - apply (Ha (CInt 2)). reflexivity.
  - apply (Hn (CInt 1)). reflexivity.
Defined.

Lemma Remove_spec_witness :
  holds (state_of false {[ CInt 1 := VInt 10 ]}) m1 l1 {[ CInt 1 := VInt 10 ]} ∧
  ∃ σ' s', Remove m1 (VInt 1) (state_of false {[ CInt 1 := VInt 10 ]})
           = Ok (VInt 10) σ' ∧ contents σ' m1 = Some s' ∧ s' !! CInt 1 = None.
Proof.
  split.
  - exists (map_of false). repeat split; reflexivity.
  - destruct (Remove_spec (state_of false {[ CInt 1 := VInt 10 ]}) m1 l1
                {[ CInt 1 := VInt 10 ]} (CInt 1))
      as (σ' & s' & Hrun & _ & Hcont & Hk & _).
    + exists (map_of false). repeat split; reflexivity.
    + exists σ', s'. repeat split; [exact Hrun | exact Hcont | exact Hk].
Defined.

Lemma NewFromArray_spec_witness :
  ∃ m σ',
    NewFromArray [VInt 1; VInt 2; VInt 3] [VInt 10; VInt 20] [] (state_of false ∅)
    = Ok m σ' ∧
    contents σ' m = Some {[ CInt 1 := VInt 10; CInt 2 := VInt 20; CInt 3 := Nil ]}.
Proof.
  exact (proj2 (NewFromArray_spec (state_of false ∅) [] [] [])).
Defined.

(** C6, as it is worded, fails when a key is repeated: in
    [NewFromArray([1,1], [10])] the key [keys[0] = 1] maps to nil, the entry
    of its second occurrence, not to [values[0] = 10]. *)
Lemma NewFromArray_zips_fails :
  ¬ NewFromArray_zips (state_of false ∅) [CInt 1; CInt 1] [VInt 10].
Proof.
  intros Hc. destruct Hc as (m & σ' & s' & Hrun & Hcont & Hzip & _).
  { simpl. lia. }
  vm_compute in Hrun. injection Hrun as <- <-.
  specialize (Hzip 0%nat (CInt 1) (VInt 10) eq_refl eq_refl).
  vm_compute in Hcont. injection Hcont as <-.
  vm_compute in Hzip. discriminate Hzip.
Qed.

(** Two maps: [m1] with its data at [l1], [m2] with its data at [l2]. *)
Lemma Merge_spec_witness :
  m2 ≠ m1 ∧
  holds (state_of2 {[ CInt 1 := VInt 10 ]} {[ CInt 1 := VInt 11; CInt 2 := VInt 20 ]})
    m1 l1 {[ CInt 1 := VInt 10 ]} ∧
  holds (state_of2 {[ CInt 1 := VInt 10 ]} {[ CInt 1 := VInt 11; CInt 2 := VInt 20 ]})
    m2 l2 {[ CInt 1 := VInt 11; CInt 2 := VInt 20 ]} ∧
  ∃ σ' s',
    Merge order_fwd m1 m2
      (state_of2 {[ CInt 1 := VInt 10 ]} {[ CInt 1 := VInt 11; CInt 2 := VInt 20 ]})
    = Ok tt σ' ∧
    contents σ' m1 = Some s' ∧
    s' !! CInt 1 = Some (VInt 11) ∧ s' !! CInt 2 = Some (VInt 20).
Proof.
  assert (m2 ≠ m1) as Hne by discriminate.
  assert (holds (state_of2 {[ CInt 1 := VInt 10 ]}
                   {[ CInt 1 := VInt 11; CInt 2 := VInt 20 ]})
            m1 l1 {[ CInt 1 := VInt 10 ]}) as H1.
  { exists (map_of false). repeat split; reflexivity. }
  assert (holds (state_of2 {[ CInt 1 := VInt 10 ]}
                   {[ CInt 1 := VInt 11; CInt 2 := VInt 20 ]})
            m2 l2 {[ CInt 1 := VInt 11; CInt 2 := VInt 20 ]}) as H2.
  { exists (mkMap (mkRWMutex false false 0) (Some l2)). repeat split; reflexivity. }
  split; [exact Hne|split; [exact H1|split; [exact H2|]]].
  destruct (Merge_spec order_fwd _ m1 m2 l1 _ l2 _ Hne H1 H2)
    as (σ' & s' & Hrun & _ & Hcont & Hin & _).
  exists σ', s'. split; [exact Hrun|split; [exact Hcont|split]].
  - apply (Hin (CInt 1) (VInt 11)). reflexivity.
  - apply (Hin (CInt 2) (VInt 20)). reflexivity.
Defined.

Lemma Flip_twice_witness :
  holds (state_of false {[ CInt 1 := VInt 10; CInt 2 := VInt 20 ]}) m1 l1
    {[ CInt 1 := VInt 10; CInt 2 := VInt 20 ]} ∧
  comparable_values ({[ CInt 1 := VInt 10; CInt 2 := VInt 20 ]} : gomap nat) ∧
  distinct_values ({[ CInt 1 := VInt 10; CInt 2 := VInt 20 ]} : gomap nat) ∧
  ∃ σ', (Flip order_rev m1 ≫= λ _, Flip order_rev m1)
          (state_of false {[ CInt 1 := VInt 10; CInt 2 := VInt 20 ]}) = Ok tt σ' ∧
        contents σ' m1 = Some {[ CInt 1 := VInt 10; CInt 2 := VInt 20 ]}.
Proof.
  assert (holds (state_of false {[ CInt 1 := VInt 10; CInt 2 := VInt 20 ]}) m1 l1
            {[ CInt 1 := VInt 10; CInt 2 := VInt 20 ]}) as Hh.
  { exists (map_of false). repeat split; reflexivity. }
  assert (comparable_values
            ({[ CInt 1 := VInt 10; CInt 2 := VInt 20 ]} : gomap nat)) as Hcmp.
  { intros k v Hk. apply lookup_insert_Some in Hk as [[_ <-]|[_ Hk]].
    - eexists; reflexivity.
    - apply lookup_singleton_Some in Hk as [_ <-]. eexists; reflexivity. }
  assert (distinct_values
            ({[ CInt 1 := VInt 10; CInt 2 := VInt 20 ]} : gomap nat)) as Hinj.
  { intros k1 k2 v Hk1 Hk2.
    apply lookup_insert_Some in Hk1 as [[<- <-]|[_ Hk1]];
      apply lookup_insert_Some in Hk2 as [[<- Hv]|[_ Hk2]];
      try apply lookup_singleton_Some in Hk1 as [<- <-];
      try apply lookup_singleton_Some in Hk2 as [<- Hv];
      try reflexivity; discriminate Hv. }
  split; [exact Hh|split; [exact Hcmp|split; [exact Hinj|]]].
  exact (proj1 (Flip_twice order_rev _ m1 l1 _ Hh Hcmp) Hinj).
Defined.

(** The two keys of [{1:9, 2:9}] can both be the one that a [Flip] keeps:
    which one depends on the order of the enumeration. *)
Lemma Flip_keeps_either :
  (Flip order_fwd m1 ≫= λ _, Get m1 (VInt 9))
    (state_of false {[ CInt 1 := VInt 9; CInt 2 := VInt 9 ]})
  = Ok (VInt 1)
       (with_data (state_of false {[ CInt 1 := VInt 9; CInt 2 := VInt 9 ]})
          m1 2%positive {[ CInt 9 := VInt 1 ]}) ∧
  (Flip order_rev m1 ≫= λ _, Get m1 (VInt 9))
    (state_of false {[ CInt 1 := VInt 9; CInt 2 := VInt 9 ]})
  = Ok (VInt 2)
       (with_data (state_of false {[ CInt 1 := VInt 9; CInt 2 := VInt 9 ]})
          m1 2%positive {[ CInt 9 := VInt 2 ]}).
Proof. split; vm_compute; reflexivity. Qed.

(** C4, as it is worded, fails for a map with a value that cannot be hashed:
    [Flip] of [{1: []interface{}{}}], whose single value is trivially
    distinct from the others, panics. *)
Lemma Flip_twice_restores_fails :
  ¬ Flip_twice_restores order_fwd (state_of false {[ CInt 1 := VSlice [] ]})
      m1 l1 {[ CInt 1 := VSlice [] ]}.
Proof.
  intros Hc. destruct Hc as (σ' & Hrun & _).
  - apply holds_state_of.
  - intros k1 k2 v [<- _]%lookup_singleton_Some [<- _]%lookup_singleton_Some.
    reflexivity.
  - vm_compute in Hrun. discriminate Hrun.
Qed.

Lemma presence_history_witness :
  (∃ m h σ',
     run order_fwd CNew [] [OSet (CInt 1) (VInt 2); OFlip] state0 = Ok (m, h) σ' ∧
     Contains m (VInt 2) σ' = Ok true σ' ∧
     set_and_kept stored_by CNew h (CInt 2)) ∧
  run order_fwd CNewFromNil [] [OGet (CInt 1); OSet (CInt 1) (VInt 2)] state0
  = Panic ∧
  run order_fwd CNew []
    [OSet (CInt 1) (VSlice []); OFlip; OGet (CInt 1)] state0 = Panic.
Proof.
  split_and!.
  - destruct (presence_history order_fwd CNew [] [OSet (CInt 1) (VInt 2); OFlip]
                state0 (CInt 2)) as [Hp _].
    eexists _, _, _. split; [vm_compute; reflexivity|].
    split; [vm_compute; reflexivity|].
    eapply Hp; vm_compute; reflexivity.
  - destruct (presence_history order_fwd CNewFromNil []
                [OGet (CInt 1); OSet (CInt 1) (VInt 2)] state0 (CInt 1))
      as (_ & _ & Ht & _).
    apply Ht. intros Hin.
    repeat (apply elem_of_cons in Hin as [Hin|Hin]; [discriminate|]).
    by apply elem_of_nil in Hin.
  - destruct (presence_history order_fwd CNew []
                [OSet (CInt 1) (VSlice []); OFlip; OGet (CInt 1)] state0 (CInt 1))
      as (_ & _ & _ & Hf).
    eapply (Hf [OSet (CInt 1) (VSlice [])] [OGet (CInt 1)] _ _ _ _ (CInt 1)
              (VSlice [])); [reflexivity|vm_compute; reflexivity|..].
    + vm_compute; reflexivity.
    + vm_compute; reflexivity.
    + reflexivity.
Defined.


(** C8, as it is worded, fails on [Flip]: after [Set(1, 2)] and [Flip] the
    key [2] is present, and none of the setters stored under it. *)
Lemma present_iff_set_fails :
  ¬ present_iff_set order_fwd CNew [OSet (CInt 1) (VInt 2); OFlip] state0 (CInt 2).
Proof.
  intros Hc. edestruct Hc as [Hto _]; [vm_compute; reflexivity|].
  destruct Hto as [[[] _]|(pre & e & post & Hh & Hst & _)];
    [vm_compute; reflexivity|].
  destruct pre as [|e1 [|e2 pre]]; simpl in Hh.
  - injection Hh as <- _. discriminate Hst.
  - injection Hh as _ <- _. exact Hst.
  - injection Hh as _ _ Hh. by destruct pre.
Qed.

(** ** The further properties on the concrete program *)

Lemma Set_then_read_witness :
  holds st10 m1 l1 one_ten ∧
  ∃ σ', Set_ m1 (VInt 2) (VFunc seven) st10 = Ok tt σ' ∧
        Get m1 (VInt 2) σ' = Ok (VFunc seven) σ' ∧ calls σ' = [].
Proof.
  assert (holds st10 m1 l1 one_ten) as Hh.
  { exists (map_of false). repeat split; reflexivity. }
  split; [exact Hh|].
  destruct (Set_then_read st10 m1 l1 one_ten (CInt 2) (VFunc seven) Hh)
    as (σ' & Hset & Hget & _ & _ & _ & Hcalls).
  exists σ'. split; [exact Hset|split; [exact Hget|exact Hcalls]].
Defined.

Lemma unhashable_key_panics_witness :
  holds st10 m1 l1 one_ten ∧ hash (VSlice [] : iface nat) = None ∧
  Get m1 (VSlice []) st10 = Panic ∧ Set_ m1 (VFunc seven) (VInt 1) st10 = Panic.
Proof.
  assert (holds st10 m1 l1 one_ten) as Hh.
  { exists (map_of false). repeat split; reflexivity. }
  split; [exact Hh|split; [reflexivity|split]].
  - exact (proj1 (proj2 (unhashable_key_panics st10 m1 l1 one_ten (VSlice [])
                           (VInt 1) Hh eq_refl))).
  - exact (proj1 (unhashable_key_panics st10 m1 l1 one_ten (VFunc seven)
                    (VInt 1) Hh eq_refl)).
Defined.

Lemma Clear_spec_witness :
  holds st10 m1 l1 one_ten ∧
  ∃ σ' l', Clear m1 st10 = Ok tt σ' ∧ holds σ' m1 l' ∅ ∧
           heap σ' !! l1 = Some one_ten ∧ Size m1 σ' = Ok 0%nat σ'.
Proof.
  assert (holds st10 m1 l1 one_ten) as Hh.
  { exists (map_of false). repeat split; reflexivity. }
  split; [exact Hh|].
  destruct (Clear_spec st10 m1 l1 one_ten Hh)
    as (σ' & l' & Hrun & H' & _ & Hold & Hsize & _).
  exists σ', l'. split; [exact Hrun|split; [exact H'|split; [exact Hold|exact Hsize]]].
Defined.

Lemma GetOrSet_stable_witness :
  holds (state_of false ∅) m1 l1 ∅ ∧
  ∃ r σ', GetOrSet m1 (VInt 1) (VFunc seven) (state_of false ∅) = Ok r σ' ∧
          Get m1 (VInt 1) σ' = Ok r σ' ∧
          GetOrSet m1 (VInt 1) (VInt 5) σ' = Ok r σ'.
Proof.
  assert (holds (state_of false ∅) m1 l1 ∅) as Hh.
  { exists (map_of false). repeat split; reflexivity. }
  split; [exact Hh|].
  destruct (GetOrSet_stable (state_of false ∅) m1 l1 ∅ (CInt 1) (VFunc seven) Hh)
    as (r & σ' & Hrun & Hget & Hagain).
  exists r, σ'. split; [exact Hrun|split; [exact Hget|exact (Hagain (VInt 5))]].
Defined.

Lemma NewFrom_shares_witness :
  heap st10 !! l1 = Some one_ten ∧
  ∃ a b σ2,
    (NewFrom (Some l1) [] ≫= λ a, NewFrom (Some l1) [true] ≫= λ b, mret (a, b)) st10
    = Ok (a, b) σ2 ∧ a ≠ b ∧
    (Set_ a (VInt 2) (VInt 20) ≫= λ _, Get b (VInt 2)) σ2
    = Ok (VInt 20) (with_heap σ2 l1 (<[CInt 2 := VInt 20]> one_ten)).
Proof.
  assert (heap st10 !! l1 = Some one_ten) as Hl by reflexivity.
  split; [exact Hl|].
  destruct (NewFrom_shares st10 l1 one_ten [] [true] Hl)
    as (a & b & σ2 & Hrun & Hne & _ & _ & _ & Hsee).
  exists a, b, σ2. split; [exact Hrun|split; [exact Hne|]].
  exact (Hsee (CInt 2) (VInt 20)).
Defined.

Lemma Map_is_a_copy_witness :
  holds st10 m1 l1 one_ten ∧
  ∃ l' σ', Map_ order_fwd m1 st10 = Ok (Some l') σ' ∧ l' ≠ l1 ∧
           heap σ' !! l' = Some one_ten.
Proof.
  assert (holds st10 m1 l1 one_ten) as Hh.
  { exists (map_of false). repeat split; reflexivity. }
  split; [exact Hh|].
  destruct (Map_is_a_copy order_fwd st10 m1 l1 one_ten Hh)
    as (l' & σ' & Hrun & Hne & _ & Hcopy & _).
  exists l', σ'. split; [exact Hrun|split; [exact Hne|exact Hcopy]].
Defined.

Lemma Clone_independent_witness :
  holds st10 m1 l1 one_ten ∧
  ∃ m' σ', Clone order_fwd m1 [] st10 = Ok m' σ' ∧ m' ≠ m1 ∧
    ∃ σ2, Set_ m' (VInt 2) (VInt 20) σ' = Ok tt σ2 ∧
          contents σ2 m1 = Some one_ten ∧
          contents σ2 m' = Some (<[CInt 2 := VInt 20]> one_ten).
Proof.
  assert (holds st10 m1 l1 one_ten) as Hh.
  { exists (map_of false). repeat split; reflexivity. }
  split; [exact Hh|].
  destruct (Clone_independent order_fwd st10 m1 l1 one_ten [] Hh)
    as (m' & l' & σ' & Hrun & Hne & _ & _ & _ & Hclone & _).
  exists m', σ'. split; [exact Hrun|split; [exact Hne|]].
  exact (Hclone (CInt 2) (VInt 20)).
Defined.

Lemma nil_map_witness :
  holds_nil state_nil m1 ∧
  Get m1 (VInt 1) state_nil = Ok Nil state_nil ∧
  Set_ m1 (VInt 1) (VInt 10) state_nil = Panic.
Proof.
  assert (holds_nil state_nil m1) as Hh.
  { exists (mkMap (mkRWMutex false false 0) None). repeat split; reflexivity. }
  split; [exact Hh|].
  destruct (nil_map state_nil m1 (CInt 1) (VInt 10) Hh)
    as (Hget & _ & _ & _ & _ & Hset & _).
  split; [exact Hget|exact Hset].
Defined.

Lemma Keys_Values_spec_witness :
  holds st10 m1 l1 one_ten ∧
  ∃ ks vs, Keys order_fwd m1 st10 = Ok ks st10 ∧
           Values order_fwd m1 st10 = Ok vs st10 ∧ NoDup ks ∧
           Size m1 st10 = Ok (length ks) st10.
Proof.
  assert (holds st10 m1 l1 one_ten) as Hh.
  { exists (map_of false). repeat split; reflexivity. }
  split; [exact Hh|].
  destruct (Keys_Values_spec order_fwd st10 m1 l1 one_ten Hh)
    as (ks & vs & Hk & Hv & Hnd & _ & _ & Hsize & _).
  exists ks, vs. split; [exact Hk|split; [exact Hv|split; [exact Hnd|exact Hsize]]].
Defined.

Lemma Sets_is_Set_each_witness :
  holds (state_of2 one_ten {[ CInt 1 := VInt 11; CInt 2 := VInt 20 ]}) m1 l1 one_ten ∧
  heap (state_of2 one_ten {[ CInt 1 := VInt 11; CInt 2 := VInt 20 ]}) !! l2
  = Some {[ CInt 1 := VInt 11; CInt 2 := VInt 20 ]} ∧
  Sets order_fwd m1 (Some l2)
    (state_of2 one_ten {[ CInt 1 := VInt 11; CInt 2 := VInt 20 ]})
  = for_each (order_fwd {[ CInt 1 := VInt 11; CInt 2 := VInt 20 ]})
      (λ e, Set_ m1 (VCmp e.1) e.2)
      (state_of2 one_ten {[ CInt 1 := VInt 11; CInt 2 := VInt 20 ]}).
Proof.
  assert (holds (state_of2 one_ten {[ CInt 1 := VInt 11; CInt 2 := VInt 20 ]})
            m1 l1 one_ten) as Hh.
  { exists (map_of false). repeat split; reflexivity. }
  split; [exact Hh|split; [reflexivity|]].
  exact (proj1 (Sets_is_Set_each order_fwd _ m1 l1 one_ten l2 _ Hh eq_refl)).
Defined.

Lemma Removes_spec_witness :
  holds st10 m1 l1 one_ten ∧
  ∃ σ' s', Removes m1 [VInt 1; VInt 3; VInt 1] st10 = Ok tt σ' ∧
           holds σ' m1 l1 s' ∧ s' !! CInt 1 = None.
Proof.
  assert (holds st10 m1 l1 one_ten) as Hh.
  { exists (map_of false). repeat split; reflexivity. }
  split; [exact Hh|].
  destruct (Removes_spec st10 m1 l1 one_ten [CInt 1; CInt 3; CInt 1] Hh)
    as (σ' & s' & Hrun & H' & Hgone & _).
  exists σ', s'. split; [exact Hrun|split; [exact H'|]].
  apply Hgone. apply elem_of_cons. left. reflexivity.
Defined.

Lemma Merge_with_itself_witness :
  holds st10 m1 l1 one_ten ∧ safe_mode st10 m1 ∧
  Merge order_fwd m1 m1 st10 = Ok tt st10 ∧
  (Lock m1 ≫= λ _, RLock m1) st10 = Deadlock.
Proof.
  assert (holds st10 m1 l1 one_ten) as Hh.
  { exists (map_of false). repeat split; reflexivity. }
  assert (safe_mode st10 m1) as Hs.
  { exists (map_of false). split; reflexivity. }
  destruct (Merge_with_itself order_fwd st10 m1 l1 one_ten Hh) as [Hrun Hdead].
  split; [exact Hh|split; [exact Hs|split; [exact Hrun|exact (Hdead Hs)]]].
Defined.

Lemma Merge_again_witness :
  m2 ≠ m1 ∧
  holds (state_of2 one_ten {[ CInt 2 := VInt 20 ]}) m1 l1 one_ten ∧
  holds (state_of2 one_ten {[ CInt 2 := VInt 20 ]}) m2 l2 {[ CInt 2 := VInt 20 ]} ∧
  ∃ σ', Merge order_fwd m1 m2 (state_of2 one_ten {[ CInt 2 := VInt 20 ]}) = Ok tt σ' ∧
        holds σ' m2 l2 {[ CInt 2 := VInt 20 ]} ∧
        Merge order_fwd m1 m2 σ' = Ok tt σ'.
Proof.
  assert (m2 ≠ m1) as Hne by discriminate.
  assert (holds (state_of2 one_ten {[ CInt 2 := VInt 20 ]}) m1 l1 one_ten) as H1.
  { exists (map_of false). repeat split; reflexivity. }
  assert (holds (state_of2 one_ten {[ CInt 2 := VInt 20 ]}) m2 l2
            {[ CInt 2 := VInt 20 ]}) as H2.
  { exists (mkMap (mkRWMutex false false 0) (Some l2)). repeat split; reflexivity. }
  split; [exact Hne|split; [exact H1|split; [exact H2|]]].
  destruct (Merge_again order_fwd _ m1 m2 l1 _ l2 _ Hne H1 H2)
    as (σ' & Hrun & Hother & Hagain).
  exists σ'. split; [exact Hrun|split; [|exact Hagain]].
  apply Hother. discriminate.
Defined.

Lemma Flip_unhashable_value_witness :
  holds (state_of false {[ CInt 1 := VFunc seven ]}) m1 l1 {[ CInt 1 := VFunc seven ]} ∧
  ({[ CInt 1 := VFunc seven ]} : gomap nat) !! CInt 1 = Some (VFunc seven) ∧
  hash (VFunc seven) = None ∧
  Flip order_fwd m1 (state_of false {[ CInt 1 := VFunc seven ]}) = Panic.
Proof.
  assert (holds (state_of false {[ CInt 1 := VFunc seven ]}) m1 l1
            {[ CInt 1 := VFunc seven ]}) as Hh.
  { exists (map_of false). repeat split; reflexivity. }
  split; [exact Hh|split; [reflexivity|split; [reflexivity|]]].
  exact (Flip_unhashable_value order_fwd _ m1 l1 _ (CInt 1) (VFunc seven)
           Hh eq_refl eq_refl).
Defined.

Lemma Flip_size_witness :
  ∃ σ',
    holds (state_of false {[ CInt 1 := VInt 9; CInt 2 := VInt 9 ]}) m1 l1
      {[ CInt 1 := VInt 9; CInt 2 := VInt 9 ]} ∧
    Flip order_fwd m1 (state_of false {[ CInt 1 := VInt 9; CInt 2 := VInt 9 ]})
    = Ok tt σ' ∧
    ∃ l' n, holds σ' m1 l' n ∧ Size m1 σ' = Ok (size n) σ' ∧
            size n ≤ size ({[ CInt 1 := VInt 9; CInt 2 := VInt 9 ]} : gomap nat).
Proof.
  assert (holds (state_of false {[ CInt 1 := VInt 9; CInt 2 := VInt 9 ]}) m1 l1
            {[ CInt 1 := VInt 9; CInt 2 := VInt 9 ]}) as Hh.
  { exists (map_of false). repeat split; reflexivity. }
  eexists. split; [exact Hh|].
  assert (Flip order_fwd m1 (state_of false {[ CInt 1 := VInt 9; CInt 2 := VInt 9 ]})
          = Ok tt (with_data (state_of false {[ CInt 1 := VInt 9; CInt 2 := VInt 9 ]})
                     m1 2%positive {[ CInt 9 := VInt 1 ]})) as Hrun.
  { vm_compute. reflexivity. }
  split; [exact Hrun|].
  destruct (Flip_size order_fwd _ m1 l1 _ _ Hh Hrun) as (l' & n & H' & Hsize & Hle & _).
  exists l', n. split; [exact H'|split; [exact Hsize|exact Hle]].
Defined.

Lemma GetOrSetFunc_spec_witness :
  holds (state_of false ∅) m1 l1 ∅ ∧
  GetOrSetFunc m1 (VInt 1) make_seven (state_of false ∅)
  = Ok (VInt 7)
       (with_heap (with_calls (state_of false ∅) 2%nat
                     [write_locked (state_of false ∅);
                      held_with (state_of false ∅) m1]) l1
          (<[CInt 1 := VInt 7]> ∅)).
Proof.
  assert (holds (state_of false ∅) m1 l1 ∅) as Hh.
  { exists (map_of false). repeat split; reflexivity. }
  split; [exact Hh|].
  destruct (GetOrSetFunc_spec (state_of false ∅) m1 l1 ∅ (CInt 1) make_seven Hh)
    as [_ Habs].
  destruct (Habs eq_refl) as (_ & _ & Hfunc).
  exact (Hfunc seven eq_refl).
Defined.

Lemma SetIfNotExistFunc_spec_witness :
  holds st10 m1 l1 one_ten ∧
  SetIfNotExistFunc m1 (VInt 1) seven st10 = Ok false st10 ∧
  SetIfNotExistFuncLock m1 (VInt 2) make_seven st10
  = Ok true (after_call st10 l1 one_ten (CInt 2) (VFunc seven, 1%nat)
               (held_with st10 m1)).
Proof.
  assert (holds st10 m1 l1 one_ten) as Hh.
  { exists (map_of false). repeat split; reflexivity. }
  split; [exact Hh|split].
  - destruct (SetIfNotExistFunc_spec st10 m1 l1 one_ten (CInt 1) seven Hh)
      as [Hpres _].
    exact (proj1 (Hpres (VInt 10) eq_refl)).
  - destruct (SetIfNotExistFunc_spec st10 m1 l1 one_ten (CInt 2) make_seven Hh)
      as [_ Habs].
    exact (proj1 (Habs eq_refl)).
Defined.


Lemma Iterator_visits_witness :
  holds (state_of false {[ CInt 1 := VInt 10; CInt 2 := VInt 20 ]}) m1 l1
    {[ CInt 1 := VInt 10; CInt 2 := VInt 20 ]} ∧
  ∃ vis rest,
    Iterator order_rev m1 (visitor not_ten count_call)
      (state_of false {[ CInt 1 := VInt 10; CInt 2 := VInt 20 ]})
    = Ok tt (mkState
               (maps (state_of false {[ CInt 1 := VInt 10; CInt 2 := VInt 20 ]}))
               (heap (state_of false {[ CInt 1 := VInt 10; CInt 2 := VInt 20 ]}))
               (foldl (λ w e, count_call (VCmp e.1) e.2 w) 0%nat vis) []) ∧
    order_rev {[ CInt 1 := VInt 10; CInt 2 := VInt 20 ]} = vis ++ rest.
Proof.
  assert (holds (state_of false {[ CInt 1 := VInt 10; CInt 2 := VInt 20 ]}) m1 l1
            {[ CInt 1 := VInt 10; CInt 2 := VInt 20 ]}) as Hh.
  { exists (map_of false). repeat split; reflexivity. }
  split; [exact Hh|].
  destruct (Iterator_visits order_rev _ m1 l1 _ not_ten count_call Hh)
    as (vis & rest & Hrun & Hsplit & _).
  exists vis, rest. split; [exact Hrun|exact Hsplit].
Defined.

Lemma methods_release_the_lock_witness :
  at_rest st10 m1 one_ten ∧ at_rest state_nil m1 ∅ ∧
  exec order_fwd m1 (OGetOrSetFuncLock (CInt 2) seven) st10 ≠ Deadlock ∧
  exec order_fwd m1 OFlip st10 ≠ Panic ∧
  exec order_fwd m1 (OSet (CInt 1) (VInt 2)) state_nil = Panic.
Proof.
  assert (at_rest st10 m1 one_ten) as Hh.
  { left. exists l1, (map_of false). repeat split; reflexivity. }
  assert (holds_nil state_nil m1) as Hn.
  { eexists. split; [reflexivity|]. repeat split; reflexivity. }
  assert (at_rest state_nil m1 ∅) as Hr by (right; by split).
  split_and!; [exact Hh|exact Hr|..].
  - exact (proj1 (methods_release_the_lock order_fwd st10 m1 one_ten
                    (OGetOrSetFuncLock (CInt 2) seven) Hh)).
  - destruct (methods_release_the_lock order_fwd st10 m1 one_ten OFlip Hh)
      as (_ & Hp & _).
    intros [[_ (k & v & Hk & Hv)]|[(o & Hm & _ & Hd) _]]%Hp.
    + unfold one_ten in Hk. apply lookup_singleton_Some in Hk as [_ <-].
      discriminate.
    + vm_compute in Hm. injection Hm as <-. discriminate.
  - destruct (methods_release_the_lock order_fwd state_nil m1 ∅
                (OSet (CInt 1) (VInt 2)) Hr) as (_ & Hp & _).
    apply Hp. right. by split.
Defined.
